(** * JSON-RPC transport of [src/json.c]: a shallow embedding

    The development follows the C file from top to bottom:
    - C strings and the few libc routines the transport relies on
      ([strlen], [strstr], [strtol], [strcpy], [sprintf] of [%zu]);
    - Lisp objects, non-local exits and [json_parse_args];
    - the JSON collaborator (jansson and the Lisp converters);
    - [struct json_rpc_state], the connection handle and the locking
      discipline ([can_use_handle] / [end_using_handle]);
    - the send path ([json_rpc_send_callback], [Fjson_rpc_send]);
    - the framed reader ([read_stdout], [read_until],
      [json_rpc_callback]) and the dispatch loop ([Fjson_rpc]);
    - the two converters, [lisp_to_json] and [json_to_lisp], as json.c
      writes them (module [Convert]).

    C integers are [Z] with the conversions written out, buffers are
    lists of characters, and every effect on the outside world (a send
    on the handle, a close, a call of the Lisp handler) is appended to
    a log kept next to the C state. *)

From Stdlib Require Import String Ascii List ZArith Lia Bool.
From Stdlib Require DecimalString DecimalFacts DecimalN.
Import ListNotations.

Local Open Scope Z_scope.

(** ** Characters and C strings *)

Definition NUL : ascii := "000"%char.
Definition CR : ascii := "013"%char.
Definition LF : ascii := "010"%char.
Definition DQUOTE : ascii := "034"%char.
Definition BACKSLASH : ascii := "092"%char.

(** [chars "abc"] is the character array of a string literal, without
    its terminator. *)
Definition chars (s : string) : list ascii := list_ascii_of_string s.

Definition has_NUL (buf : list ascii) : bool := existsb (Ascii.eqb NUL) buf.

(** The C-string view of a buffer: what lies before the first NUL. *)
Fixpoint cstr (buf : list ascii) : list ascii :=
  match buf with
  | [] => []
  | c :: rest => if Ascii.eqb c NUL then [] else c :: cstr rest
  end.

Definition strlen (buf : list ascii) : Z := Z.of_nat (length (cstr buf)).

Fixpoint starts_with (needle hay : list ascii) : bool :=
  match needle, hay with
  | [], _ => true
  | _ :: _, [] => false
  | n :: needle', h :: hay' => Ascii.eqb n h && starts_with needle' hay'
  end.

(** [strstr hay needle <> NULL], both arguments being C strings
    already. *)
Fixpoint strstr (hay needle : list ascii) : bool :=
  starts_with needle hay
  || match hay with
     | [] => false
     | _ :: hay' => strstr hay' needle
     end.

Definition digit_of (c : ascii) : option Z :=
  let n := Z.of_nat (nat_of_ascii c) in
  if (48 <=? n) && (n <=? 57) then Some (n - 48) else None.

(** [isspace] in the C locale. *)
Definition isspace (c : ascii) : bool :=
  let n := Z.of_nat (nat_of_ascii c) in
  (n =? 32) || ((9 <=? n) && (n <=? 13)).

Fixpoint skip_isspace (s : list ascii) : list ascii :=
  match s with
  | c :: rest => if isspace c then skip_isspace rest else s
  | [] => []
  end.

Fixpoint strtol_digits (acc : Z) (s : list ascii) : Z :=
  match s with
  | c :: rest =>
      match digit_of c with
      | Some d => strtol_digits (10 * acc + d) rest
      | None => acc
      end
  | [] => acc
  end.

Definition LONG_MAX : Z := 9223372036854775807.
Definition LONG_MIN : Z := -9223372036854775808.

(** [strtol (s, &end, 10)]: blanks, an optional sign, then as many
    digits as there are; no digit at all gives 0, and a value out of
    range is clamped.  The end pointer is not used by json.c. *)
Definition strtol (s : list ascii) : Z :=
  match skip_isspace s with
  | c :: rest =>
      if Ascii.eqb c "-"%char
      then Z.max LONG_MIN (- strtol_digits 0 rest)
      else if Ascii.eqb c "+"%char
      then Z.min LONG_MAX (strtol_digits 0 rest)
      else Z.min LONG_MAX (strtol_digits 0 (c :: rest))
  | [] => 0
  end.

(** ** Lisp objects and non-local exits *)

#[warnings="-register-all"]
Inductive Lisp_Object : Type :=
| Symbol (name : string)
| Fixnum (n : Z)
| LString (data : list ascii)
| Cons (car cdr : Lisp_Object)
| Vector (elts : list Lisp_Object)
| HashTable (entries : list (Lisp_Object * Lisp_Object)).

Definition Qnil := Symbol "nil".
Definition Qt := Symbol "t".
Definition QCnull := Symbol ":null".
Definition QCfalse := Symbol ":false".
Definition QCobject_type := Symbol ":object-type".
Definition QCarray_type := Symbol ":array-type".
Definition QCnull_object := Symbol ":null-object".
Definition QCfalse_object := Symbol ":false-object".
Definition Qhash_table := Symbol "hash-table".
Definition Qalist := Symbol "alist".
Definition Qplist := Symbol "plist".
Definition Qarray := Symbol "array".
Definition Qlist := Symbol "list".
Definition Qplistp := Symbol "plistp".
Definition Qjson_end_of_file := Symbol "json-end-of-file".
Definition Qjson_trailing_content := Symbol "json-trailing-content".
Definition Qjson_parse_error := Symbol "json-parse-error".
Definition Qjson_value_p := Symbol "json-value-p".

(** [EQ] is object identity.  A [Lisp_Object] here carries no address,
    so identity is exact only where it coincides with equality of
    content: on interned symbols, by name, and on fixnums, by value.
    Strings, conses, vectors and hash tables are in C identical to
    themselves and to nothing else; on them [EQ] answers false, also
    for an object compared with itself, and an integer outside the
    fixnum range is compared by value although it is a heap object in
    C.  json.c applies [EQ] in [json_parse_args], to compare keywords
    and values with interned symbols, and in [lisp_to_json], to compare
    the object to convert with [t] and with the caller's null and false
    objects, which may be of any shape: the answer given here is that
    of the C code whenever one of the two objects is a symbol or a
    fixnum. *)
Definition EQ (a b : Lisp_Object) : bool :=
  match a, b with
  | Symbol x, Symbol y => String.eqb x y
  | Fixnum x, Fixnum y => Z.eqb x y
  | _, _ => false
  end.

Definition Fcons := Cons.
Definition Flist (args : list Lisp_Object) : Lisp_Object :=
  fold_right Cons Qnil args.
Definition list2 (a b : Lisp_Object) := Flist [a; b].
Definition list3 (a b c : Lisp_Object) := Flist [a; b; c].
Definition list4 (a b c d : Lisp_Object) := Flist [a; b; c; d].
Definition list5 (a b c d e : Lisp_Object) := Flist [a; b; c; d; e].

(** The ways a Lisp primitive leaves by a non-local exit, named after
    the signalling function json.c calls. *)
Inductive lisp_error : Type :=
| wrong_type_argument (predicate value : Lisp_Object)
| wrong_choice (choices wrong : Lisp_Object)
| Fsignal_error (message : string)
| handler_error (data : Lisp_Object).

(** Failures below the Lisp level: a failed [assert] aborts, the others
    are undefined behaviour of the C program. *)
Inductive crash : Type :=
| AssertionFailed
| NullDereference
| BufferOverrun
| AllocationFailed.

Inductive result (A : Type) : Type :=
| Ret (a : A)
| Signal (e : lisp_error)
| Crash (c : crash).

Arguments Ret {A} a.
Arguments Signal {A} e.
Arguments Crash {A} c.

Definition bind {A B} (r : result A) (k : A -> result B) : result B :=
  match r with
  | Ret a => k a
  | Signal e => Signal e
  | Crash c => Crash c
  end.

Notation "x <- r ;; k" := (bind r (fun x => k))
  (at level 61, r at next level, right associativity).

(** ** [struct json_configuration] and [json_parse_args] *)

Inductive json_object_type : Type :=
| json_object_hashtable
| json_object_alist
| json_object_plist.

Inductive json_array_type : Type :=
| json_array_array
| json_array_list.

Record json_configuration : Type := mk_conf {
  object_type : json_object_type;
  array_type : json_array_type;
  null_object : Lisp_Object;
  false_object : Lisp_Object
}.

(** The initialiser every entry point uses. *)
Definition default_conf : json_configuration :=
  mk_conf json_object_hashtable json_array_array QCnull QCfalse.

(** One iteration of the loop of [json_parse_args]: the [if] chain on
    [key]. *)
Definition json_parse_arg (key value : Lisp_Object)
    (conf : json_configuration) (parse_object_types : bool)
  : result json_configuration :=
  if parse_object_types && EQ key QCobject_type then
    if EQ value Qhash_table then
      Ret (mk_conf json_object_hashtable (array_type conf)
                   (null_object conf) (false_object conf))
    else if EQ value Qalist then
      Ret (mk_conf json_object_alist (array_type conf)
                   (null_object conf) (false_object conf))
    else if EQ value Qplist then
      Ret (mk_conf json_object_plist (array_type conf)
                   (null_object conf) (false_object conf))
    else Signal (wrong_choice (list3 Qhash_table Qalist Qplist) value)
  else if parse_object_types && EQ key QCarray_type then
    if EQ value Qarray then
      Ret (mk_conf (object_type conf) json_array_array
                   (null_object conf) (false_object conf))
    else if EQ value Qlist then
      Ret (mk_conf (object_type conf) json_array_list
                   (null_object conf) (false_object conf))
    else Signal (wrong_choice (list2 Qarray Qlist) value)
  else if EQ key QCnull_object then
    Ret (mk_conf (object_type conf) (array_type conf)
                 value (false_object conf))
  else if EQ key QCfalse_object then
    Ret (mk_conf (object_type conf) (array_type conf)
                 (null_object conf) value)
  else if parse_object_types then
    Signal (wrong_choice
              (list4 QCobject_type QCarray_type QCnull_object QCfalse_object)
              value)
  else Signal (wrong_choice (list2 QCnull_object QCfalse_object) value).

(** [args[2*j]] and [args[2*j+1]]: the [j]-th keyword and its value. *)
Definition key_at (args : list Lisp_Object) (j : nat) : Lisp_Object :=
  nth (2 * j) args Qnil.
Definition value_at (args : list Lisp_Object) (j : nat) : Lisp_Object :=
  nth (2 * j + 1) args Qnil.

(** The [for] loop, [i = 2 * pairs] running down to [0]: the pair at
    [i - 2], [i - 1] is handled first, then the ones before it. *)
Fixpoint json_parse_args_loop (pairs : nat) (args : list Lisp_Object)
    (conf : json_configuration) (parse_object_types : bool)
  : result json_configuration :=
  match pairs with
  | O => Ret conf
  | S k =>
      conf' <- json_parse_arg (key_at args k) (value_at args k)
                              conf parse_object_types ;;
      json_parse_args_loop k args conf' parse_object_types
  end.

Definition json_parse_args (nargs : Z) (args : list Lisp_Object)
    (conf : json_configuration) (parse_object_types : bool)
  : result json_configuration :=
  if negb (Z.rem nargs 2 =? 0) then
    Signal (wrong_type_argument Qplistp (Flist (firstn (Z.to_nat nargs) args)))
  else
    json_parse_args_loop (Z.to_nat (nargs / 2)) args conf parse_object_types.

(** What a value of [:object-type] / [:array-type] selects. *)
Definition object_type_of (value : Lisp_Object) : option json_object_type :=
  if EQ value Qhash_table then Some json_object_hashtable
  else if EQ value Qalist then Some json_object_alist
  else if EQ value Qplist then Some json_object_plist
  else None.

Definition array_type_of (value : Lisp_Object) : option json_array_type :=
  if EQ value Qarray then Some json_array_array
  else if EQ value Qlist then Some json_array_list
  else None.

(** [first_occurrence args K j]: the [j]-th pair of [args] is the
    earliest one whose keyword is [K]. *)
Definition first_occurrence (args : list Lisp_Object) (K : Lisp_Object)
    (j : nat) : Prop :=
  (2 * j + 1 < length args)%nat /\
  EQ (key_at args j) K = true /\
  forall j', (j' < j)%nat -> EQ (key_at args j') K = false.

Definition absent (args : list Lisp_Object) (K : Lisp_Object) : Prop :=
  forall j, (2 * j + 1 < length args)%nat -> EQ (key_at args j) K = false.

(** ** C integer conversions *)

Definition INT_MAX : Z := 2147483647.
Definition PTRDIFF_MAX : Z := 9223372036854775807.

(** Conversion to [size_t] (64 bits, unsigned). *)
Definition to_size_t (z : Z) : Z := z mod 2 ^ 64.

(** Conversion to [int] (32 bits, two's complement). *)
Definition to_int (z : Z) : Z := (z + 2 ^ 31) mod 2 ^ 32 - 2 ^ 31.

(** [sprintf] of a [size_t] with [%zu]. *)
Definition decimal (n : Z) : list ascii :=
  chars (DecimalString.NilZero.string_of_uint (N.to_uint (Z.to_N n))).

(** ** The JSON collaborator *)

#[warnings="-register-all"]
Inductive json_t : Type :=
| JSON_NULL
| JSON_TRUE
| JSON_FALSE
| JSON_INTEGER (value : Z)
| JSON_STRING (value : list ascii)
| JSON_ARRAY (elts : list json_t)
| JSON_OBJECT (members : list (list ascii * json_t)).

Inductive json_error_code : Type :=
| json_error_premature_end_of_input
| json_error_end_of_input_expected
| json_error_invalid_syntax.

Record json_error_t : Type := mk_json_error {
  text : list ascii;
  source : list ascii;
  line : Z;
  column : Z;
  position : Z;
  code : json_error_code
}.

(** jansson and the two converters of json.c are used by the transport
    as black boxes: [json_dumps] with [JSON_COMPACT | JSON_ENCODE_ANY]
    (NULL on failure), [json_loads] with
    [JSON_DECODE_ANY | JSON_ALLOW_NUL], and [lisp_to_json] /
    [json_to_lisp], which may leave by a signal. *)
Class Collaborator : Type := {
  json_dumps : json_t -> option (list ascii);
  json_loads : list ascii -> json_t + json_error_t;
  lisp_to_json : Lisp_Object -> json_configuration -> result json_t;
  json_to_lisp : json_t -> json_configuration -> result Lisp_Object
}.

(** ** The connection handle

    Modelled from the spec: [struct SSP_Handle] and its [send], [recv],
    [isalive], [cancel_recv] and [close] members come from spsupr.c,
    which is not part of the sources at hand.  The handle is the child
    process seen from the transport: the bytes it is going to write on
    its two output streams, and a schedule that fixes, for each future
    [recv] call, how much of each stream is available to that call,
    what the call returns and whether the child is alive afterwards.
    When the schedule is used up the child is gone and [recv] yields
    nothing.  A single [recv] transfers at most [MAX_RW_COUNT] bytes of
    standard output, as a read on a pipe does. *)

Record recv_event : Type := mk_event {
  ev_stdout : nat;
  ev_stderr : nat;
  ev_res : Z;
  ev_alive : bool
}.

Record SSP_Handle : Type := mk_handle {
  stdout_pipe : list ascii;
  stderr_pipe : list ascii;
  schedule : list recv_event;
  alive : bool;
  send_results : list Z
}.

Definition MAX_RW_COUNT : Z := 2147479552.

Record recv_result : Type := mk_recv {
  r_stdout : list ascii;
  r_stderr : list ascii;
  r_res : Z
}.

Definition ssp_recv (h : SSP_Handle) (size stderr_size : Z)
  : recv_result * SSP_Handle :=
  match schedule h with
  | [] =>
      (mk_recv [] [] 0,
       mk_handle (stdout_pipe h) (stderr_pipe h) [] false (send_results h))
  | e :: rest =>
      let n_out :=
        Z.to_nat (Z.min (Z.min size MAX_RW_COUNT) (Z.of_nat (ev_stdout e))) in
      let n_err := Z.to_nat (Z.min stderr_size (Z.of_nat (ev_stderr e))) in
      (mk_recv (firstn n_out (stdout_pipe h))
               (firstn n_err (stderr_pipe h))
               (ev_res e),
       mk_handle (skipn n_out (stdout_pipe h))
                 (skipn n_err (stderr_pipe h))
                 rest (ev_alive e) (send_results h))
  end.

Definition ssp_isalive (h : SSP_Handle) : bool := alive h.

(** [send] reports what the environment decides; an exhausted list
    means the whole buffer goes through. *)
Definition ssp_send (h : SSP_Handle) (bytes_to_send : Z) : Z * SSP_Handle :=
  match send_results h with
  | [] => (bytes_to_send, h)
  | r :: rest =>
      (r, mk_handle (stdout_pipe h) (stderr_pipe h) (schedule h) (alive h)
                    rest)
  end.

(** ** [struct json_rpc_state] *)

Definition ERROR_BUFFER_SIZE : Z := 1024 * 1024 * 4.
Definition BUFFER_SIZE : Z := 1000.

(** What the outside world sees of a run, in order. *)
Inductive effect : Type :=
| Send (cancel : bool) (msg : list ascii) (bytes_to_send bytes_sent : Z)
| CancelRecv
| Close
| Funcall (msg err eof : Lisp_Object).

(** The mutex is seen from the running thread only: the list gives the
    outcome of each coming [pthread_mutex_timedlock], as decided by the
    other threads; past its end the mutex is free. *)
Inductive lock_outcome : Type :=
| Acquired
| TimedOut.

(** [error_buffer] maps an index of the array to the byte stored
    there; the array has [ERROR_BUFFER_SIZE + 1] elements and starts
    with whatever [malloc] returned.  [log] is not a member of the C
    structure: it records the effects of the run. *)
Record json_rpc_state : Type := mk_state {
  handle_mx : list lock_outcome;
  handle : option SSP_Handle;
  message : option json_t;
  error : json_error_t;
  done : bool;
  pid : Z;
  cancel_send : bool;
  error_buffer : Z -> ascii;
  error_buffer_read : Z;
  log : list effect
}.

Definition set_handle_mx (s : json_rpc_state) (v : list lock_outcome) :=
  mk_state v (handle s) (message s) (error s) (done s) (pid s)
           (cancel_send s) (error_buffer s) (error_buffer_read s) (log s).
Definition set_handle (s : json_rpc_state) (v : option SSP_Handle) :=
  mk_state (handle_mx s) v (message s) (error s) (done s) (pid s)
           (cancel_send s) (error_buffer s) (error_buffer_read s) (log s).
Definition set_message (s : json_rpc_state) (v : option json_t) :=
  mk_state (handle_mx s) (handle s) v (error s) (done s) (pid s)
           (cancel_send s) (error_buffer s) (error_buffer_read s) (log s).
Definition set_error (s : json_rpc_state) (v : json_error_t) :=
  mk_state (handle_mx s) (handle s) (message s) v (done s) (pid s)
           (cancel_send s) (error_buffer s) (error_buffer_read s) (log s).
Definition set_done (s : json_rpc_state) (v : bool) :=
  mk_state (handle_mx s) (handle s) (message s) (error s) v (pid s)
           (cancel_send s) (error_buffer s) (error_buffer_read s) (log s).
Definition set_cancel_send (s : json_rpc_state) (v : bool) :=
  mk_state (handle_mx s) (handle s) (message s) (error s) (done s) (pid s)
           v (error_buffer s) (error_buffer_read s) (log s).
Definition set_error_buffer (s : json_rpc_state) (v : Z -> ascii) (r : Z) :=
  mk_state (handle_mx s) (handle s) (message s) (error s) (done s) (pid s)
           (cancel_send s) v r (log s).
Definition emit (s : json_rpc_state) (e : effect) :=
  mk_state (handle_mx s) (handle s) (message s) (error s) (done s) (pid s)
           (cancel_send s) (error_buffer s) (error_buffer_read s)
           (log s ++ [e]).

(** Computations on the state that may leave by a signal or crash; the
    state reached is kept in every case. *)
Definition M (A : Type) : Type := json_rpc_state -> result A * json_rpc_state.

Definition ret {A} (a : A) : M A := fun s => (Ret a, s).
Definition throw {A} (e : lisp_error) : M A := fun s => (Signal e, s).
Definition crashed {A} (c : crash) : M A := fun s => (Crash c, s).
Definition lift {A} (r : result A) : M A := fun s => (r, s).

Definition bindM {A B} (m : M A) (k : A -> M B) : M B :=
  fun s =>
    match m s with
    | (Ret a, s') => k a s'
    | (Signal e, s') => (Signal e, s')
    | (Crash c, s') => (Crash c, s')
    end.

Notation "x <~ m ;; k" := (bindM m (fun x => k))
  (at level 61, m at next level, right associativity).
Notation "m ;;; k" := (bindM m (fun _ => k))
  (at level 61, right associativity).

Definition get {A} (f : json_rpc_state -> A) : M A := fun s => (Ret (f s), s).
Definition modify (f : json_rpc_state -> json_rpc_state) : M unit :=
  fun s => (Ret tt, f s).
Definition assert (b : bool) : M unit :=
  if b then ret tt else crashed AssertionFailed.

(** ** Locking discipline *)

Definition pthread_mutex_timedlock : M lock_outcome :=
  fun s => (Ret (hd Acquired (handle_mx s)),
            set_handle_mx s (tl (handle_mx s))).

Definition pthread_mutex_unlock : M unit := ret tt.

Definition is_some {A} (o : option A) : bool :=
  match o with Some _ => true | None => false end.

Definition end_using_handle : M unit :=
  h <~ get handle ;;
  assert (is_some h) ;;;
  pthread_mutex_unlock.

Definition can_use_handle : M bool :=
  o <~ pthread_mutex_timedlock ;;
  match o with
  | Acquired =>
      h <~ get handle ;;
      if is_some h then ret true
      else end_using_handle ;;; ret false
  | TimedOut => ret false
  end.

(** The finaliser of the user pointer. *)
Definition json_rpc_state_free : M unit :=
  h <~ get handle ;;
  assert (negb (is_some h)).

(** ** Send path *)

Definition MARKER : list ascii := chars "Content-Length:".
Definition DELIM : list ascii := [CR; LF; CR; LF].

(** [sprintf (msg, "Content-Length: %zu\r\n\r\n%s", size, string)] *)
Definition sprintf_frame (size : Z) (string : list ascii) : list ascii :=
  chars "Content-Length: " ++ decimal size ++ DELIM ++ cstr string.

Section Transport.

Context {collab : Collaborator}.

(** Runs with the global lock released; the mutex is taken with a
    timeout of 5 ms.  The value returned is [param->res]. *)
Definition json_rpc_send_callback (message : json_t) : M Z :=
  usable <~ can_use_handle ;;
  if usable then
    match json_dumps message with
    | None => crashed NullDereference
    | Some string =>
        let size := strlen string in
        let msg := sprintf_frame size string in
        let bytes_to_send := to_int (strlen msg) in
        h <~ get handle ;;
        match h with
        | None => crashed NullDereference
        | Some h =>
            cancel <~ get cancel_send ;;
            let '(bytes_sent, h') := ssp_send h bytes_to_send in
            modify (fun s =>
                      emit (set_handle s (Some h'))
                           (Send cancel msg bytes_to_send bytes_sent)) ;;;
            assert (bytes_sent <=? bytes_to_send) ;;;
            end_using_handle ;;;
            ret (if bytes_sent =? bytes_to_send then 0 else -1)
        end
    end
  else ret (-1).

(** [(json-rpc-send CONNECTION OBJECT &rest ARGS)] *)
Definition Fjson_rpc_send (object : Lisp_Object) (args : list Lisp_Object)
  : M Lisp_Object :=
  conf <~ lift (json_parse_args (Z.of_nat (length args)) args
                                default_conf false) ;;
  message <~ lift (lisp_to_json object conf) ;;
  res <~ json_rpc_send_callback message ;;
  if res <? 0 then throw (Fsignal_error "Failed to send message")
  else ret Qnil.

(** [(json-rpc-shutdown CONNECTION)]; the mutex is taken with a
    timeout of 1 s. *)
Definition Fjson_rpc_shutdown : M Lisp_Object :=
  modify (fun s => set_cancel_send s true) ;;;
  usable <~ can_use_handle ;;
  (if usable then
     modify (fun s => emit s CancelRecv) ;;;
     end_using_handle
   else ret tt) ;;;
  ret Qnil.

Definition Fjson_rpc_pid : M Lisp_Object :=
  d <~ get done ;;
  p <~ get pid ;;
  ret (Fixnum (if d then -1 else p)).

(** [make_string (state->error_buffer, state->error_buffer_read)] *)
Definition Fjson_rpc_stderr : M Lisp_Object :=
  buf <~ get error_buffer ;;
  n <~ get error_buffer_read ;;
  ret (LString (map (fun i => buf (Z.of_nat i)) (seq 0 (Z.to_nat n)))).

End Transport.

(** ** A reference collaborator

    A small stand-in for jansson and the converters, used to run the
    transport on concrete inputs.  It prints compactly (no blank after
    [,] and [:]), reads the same texts back, and covers null, the two
    booleans, integers, strings, arrays and objects; reals and [\u]
    escapes are left out. *)
Module Reference.

Definition dump_integer (z : Z) : list ascii :=
  if z <? 0 then "-"%char :: decimal (- z) else decimal z.

Definition escape_char (c : ascii) : list ascii :=
  if Ascii.eqb c DQUOTE then [BACKSLASH; DQUOTE]
  else if Ascii.eqb c BACKSLASH then [BACKSLASH; BACKSLASH]
  else if Ascii.eqb c LF then [BACKSLASH; "n"%char]
  else if Ascii.eqb c CR then [BACKSLASH; "r"%char]
  else if Ascii.eqb c "009"%char then [BACKSLASH; "t"%char]
  else [c].

Definition dump_string (s : list ascii) : list ascii :=
  DQUOTE :: flat_map escape_char s ++ [DQUOTE].

Fixpoint dump (j : json_t) : list ascii :=
  match j with
  | JSON_NULL => chars "null"
  | JSON_TRUE => chars "true"
  | JSON_FALSE => chars "false"
  | JSON_INTEGER z => dump_integer z
  | JSON_STRING s => dump_string s
  | JSON_ARRAY elts =>
      let fix items (l : list json_t) : list ascii :=
        match l with
        | [] => []
        | [x] => dump x
        | x :: rest => dump x ++ ","%char :: items rest
        end in
      "["%char :: items elts ++ ["]"%char]
  | JSON_OBJECT members =>
      let fix items (l : list (list ascii * json_t)) : list ascii :=
        match l with
        | [] => []
        | [(k, v)] => dump_string k ++ ":"%char :: dump v
        | (k, v) :: rest =>
            dump_string k ++ ":"%char :: dump v ++ ","%char :: items rest
        end in
      "{"%char :: items members ++ ["}"%char]
  end.

Definition is_space (c : ascii) : bool :=
  Ascii.eqb c " "%char || Ascii.eqb c "009"%char
  || Ascii.eqb c LF || Ascii.eqb c CR.

Fixpoint skip_space (s : list ascii) : list ascii :=
  match s with
  | c :: rest => if is_space c then skip_space rest else s
  | [] => []
  end.

Fixpoint read_digits (acc : Z) (s : list ascii) : Z * list ascii :=
  match s with
  | c :: rest =>
      match digit_of c with
      | Some d => read_digits (10 * acc + d) rest
      | None => (acc, s)
      end
  | [] => (acc, [])
  end.

Fixpoint read_string (acc : list ascii) (s : list ascii)
  : (list ascii * list ascii) + json_error_code :=
  match s with
  | [] => inr json_error_premature_end_of_input
  | c :: rest =>
      if Ascii.eqb c DQUOTE then inl (rev acc, rest)
      else if Ascii.eqb c BACKSLASH then
        match rest with
        | [] => inr json_error_premature_end_of_input
        | e :: rest' =>
            let plain (x : ascii) := read_string (x :: acc) rest' in
            if Ascii.eqb e "n"%char then plain LF
            else if Ascii.eqb e "r"%char then plain CR
            else if Ascii.eqb e "t"%char then plain "009"%char
            else if Ascii.eqb e DQUOTE then plain DQUOTE
            else if Ascii.eqb e BACKSLASH then plain BACKSLASH
            else if Ascii.eqb e "/"%char then plain "/"%char
            else inr json_error_invalid_syntax
        end
      else read_string (c :: acc) rest
  end.

Definition parsed (A : Type) : Type := (A * list ascii) + json_error_code.

(** Recursive descent; [fuel] bounds the nesting and the number of
    items, and the length of the text is always enough. *)
Fixpoint parse_value (fuel : nat) (s : list ascii) : parsed json_t :=
  match fuel with
  | O => inr json_error_invalid_syntax
  | S fuel' =>
      match skip_space s with
      | [] => inr json_error_premature_end_of_input
      | c :: rest =>
          if starts_with (chars "null") (c :: rest)
          then inl (JSON_NULL, skipn 4 (c :: rest))
          else if starts_with (chars "true") (c :: rest)
          then inl (JSON_TRUE, skipn 4 (c :: rest))
          else if starts_with (chars "false") (c :: rest)
          then inl (JSON_FALSE, skipn 5 (c :: rest))
          else if Ascii.eqb c DQUOTE then
            match read_string [] rest with
            | inl (str, rest') => inl (JSON_STRING str, rest')
            | inr e => inr e
            end
          else if Ascii.eqb c "-"%char then
            match rest with
            | [] => inr json_error_premature_end_of_input
            | d :: _ =>
                match digit_of d with
                | Some _ =>
                    let '(n, rest') := read_digits 0 rest in
                    inl (JSON_INTEGER (- n), rest')
                | None => inr json_error_invalid_syntax
                end
            end
          else if is_some (digit_of c) then
            let '(n, rest') := read_digits 0 (c :: rest) in
            inl (JSON_INTEGER n, rest')
          else if Ascii.eqb c "["%char then
            match skip_space rest with
            | [] => inr json_error_premature_end_of_input
            | c' :: rest' =>
                if Ascii.eqb c' "]"%char then inl (JSON_ARRAY [], rest')
                else
                  match parse_items fuel' (c' :: rest') with
                  | inl (elts, rest'') => inl (JSON_ARRAY elts, rest'')
                  | inr e => inr e
                  end
            end
          else if Ascii.eqb c "{"%char then
            match skip_space rest with
            | [] => inr json_error_premature_end_of_input
            | c' :: rest' =>
                if Ascii.eqb c' "}"%char then inl (JSON_OBJECT [], rest')
                else
                  match parse_members fuel' (c' :: rest') with
                  | inl (ms, rest'') => inl (JSON_OBJECT ms, rest'')
                  | inr e => inr e
                  end
            end
          else inr json_error_invalid_syntax
      end
  end
with parse_items (fuel : nat) (s : list ascii) : parsed (list json_t) :=
  match fuel with
  | O => inr json_error_invalid_syntax
  | S fuel' =>
      match parse_value fuel' s with
      | inr e => inr e
      | inl (v, rest) =>
          match skip_space rest with
          | [] => inr json_error_premature_end_of_input
          | c :: rest' =>
              if Ascii.eqb c "]"%char then inl ([v], rest')
              else if Ascii.eqb c ","%char then
                match parse_items fuel' rest' with
                | inl (vs, rest'') => inl (v :: vs, rest'')
                | inr e => inr e
                end
              else inr json_error_invalid_syntax
          end
      end
  end
with parse_members (fuel : nat) (s : list ascii)
  : parsed (list (list ascii * json_t)) :=
  match fuel with
  | O => inr json_error_invalid_syntax
  | S fuel' =>
      match skip_space s with
      | [] => inr json_error_premature_end_of_input
      | q :: after_quote =>
          if negb (Ascii.eqb q DQUOTE) then inr json_error_invalid_syntax
          else
            match read_string [] after_quote with
            | inr e => inr e
            | inl (key, rest) =>
                match skip_space rest with
                | [] => inr json_error_premature_end_of_input
                | colon :: rest1 =>
                    if negb (Ascii.eqb colon ":"%char)
                    then inr json_error_invalid_syntax
                    else
                      match parse_value fuel' rest1 with
                      | inr e => inr e
                      | inl (v, rest2) =>
                          match skip_space rest2 with
                          | [] => inr json_error_premature_end_of_input
                          | c :: rest3 =>
                              if Ascii.eqb c "}"%char
                              then inl ([(key, v)], rest3)
                              else if Ascii.eqb c ","%char then
                                match parse_members fuel' rest3 with
                                | inl (ms, rest4) =>
                                    inl ((key, v) :: ms, rest4)
                                | inr e => inr e
                                end
                              else inr json_error_invalid_syntax
                          end
                      end
                end
            end
      end
  end.

Definition error_of (c : json_error_code) (input : list ascii)
  : json_error_t :=
  mk_json_error
    (match c with
     | json_error_premature_end_of_input =>
         chars "unexpected token near end of file"
     | json_error_end_of_input_expected =>
         chars "end of file expected"
     | json_error_invalid_syntax => chars "invalid token"
     end)
    (chars "<string>") 1 0 0 c.

Definition loads (input : list ascii) : json_t + json_error_t :=
  match parse_value (S (length input)) input with
  | inr e => inr (error_of e input)
  | inl (v, rest) =>
      match skip_space rest with
      | [] => inl v
      | _ :: _ => inr (error_of json_error_end_of_input_expected input)
      end
  end.

Definition to_json_scalar (lisp : Lisp_Object) (conf : json_configuration)
  : result json_t :=
  if EQ lisp (null_object conf) then Ret JSON_NULL
  else if EQ lisp (false_object conf) then Ret JSON_FALSE
  else if EQ lisp Qt then Ret JSON_TRUE
  else
    match lisp with
    | Fixnum n => Ret (JSON_INTEGER n)
    | LString s => Ret (JSON_STRING s)
    | _ => Signal (wrong_type_argument Qjson_value_p lisp)
    end.

Fixpoint to_json (lisp : Lisp_Object) (conf : json_configuration)
  : result json_t :=
  match lisp with
  | Vector elts =>
      let fix each (l : list Lisp_Object) : result (list json_t) :=
        match l with
        | [] => Ret []
        | x :: rest =>
            j <- to_json x conf ;; js <- each rest ;; Ret (j :: js)
        end in
      js <- each elts ;; Ret (JSON_ARRAY js)
  | HashTable entries =>
      let fix each (l : list (Lisp_Object * Lisp_Object))
        : result (list (list ascii * json_t)) :=
        match l with
        | [] => Ret []
        | (LString k, v) :: rest =>
            j <- to_json v conf ;; js <- each rest ;; Ret ((k, j) :: js)
        | (k, _) :: _ => Signal (wrong_type_argument Qjson_value_p k)
        end in
      ms <- each entries ;; Ret (JSON_OBJECT ms)
  | _ => to_json_scalar lisp conf
  end.

Fixpoint to_lisp (j : json_t) (conf : json_configuration) : Lisp_Object :=
  match j with
  | JSON_NULL => null_object conf
  | JSON_FALSE => false_object conf
  | JSON_TRUE => Qt
  | JSON_INTEGER n => Fixnum n
  | JSON_STRING s => LString s
  | JSON_ARRAY elts =>
      match array_type conf with
      | json_array_array => Vector (map (fun x => to_lisp x conf) elts)
      | json_array_list => Flist (map (fun x => to_lisp x conf) elts)
      end
  | JSON_OBJECT members =>
      match object_type conf with
      | json_object_hashtable =>
          HashTable (map (fun kv => (LString (fst kv),
                                     to_lisp (snd kv) conf)) members)
      | json_object_alist =>
          Flist (map (fun kv =>
                        Cons (Symbol (string_of_list_ascii (fst kv)))
                             (to_lisp (snd kv) conf)) members)
      | json_object_plist =>
          Flist (flat_map
                   (fun kv =>
                      [Symbol (String ":"%char
                                      (string_of_list_ascii (fst kv)));
                       to_lisp (snd kv) conf]) members)
      end
  end.

#[global] Instance collaborator : Collaborator := {
  json_dumps j := Some (dump j);
  json_loads := loads;
  lisp_to_json := to_json;
  json_to_lisp j conf := Ret (to_lisp j conf)
}.

End Reference.

(** The text [{"id":1,"method":"ping"}] and the value it denotes. *)
Definition quoted (s : string) : list ascii := DQUOTE :: chars s ++ [DQUOTE].

Definition ping_text : list ascii :=
  chars "{" ++ quoted "id" ++ chars ":1," ++ quoted "method" ++ chars ":"
        ++ quoted "ping" ++ chars "}".

Definition ping_object : Lisp_Object :=
  HashTable [(LString (chars "id"), Fixnum 1);
             (LString (chars "method"), LString (chars "ping"))].

Definition ping_message : json_t :=
  JSON_OBJECT [(chars "id", JSON_INTEGER 1);
               (chars "method", JSON_STRING (chars "ping"))].

(** ** Framed reader *)

(** Index of the first NUL among the [fuel] bytes from [from] on. *)
Fixpoint find_NUL (fuel : nat) (buf : Z -> ascii) (from : Z) : option Z :=
  match fuel with
  | O => None
  | S fuel' =>
      if Ascii.eqb (buf from) NUL then Some from
      else find_NUL fuel' buf (from + 1)
  end.

(** [strcpy (buf, buf + src)] in an array of [size] elements.  The
    bytes move front to back, the terminator included; the destination
    never catches up with the source, so every byte read is an
    original one.  [None] when no terminator lies inside the array. *)
Definition strcpy_down (size : Z) (buf : Z -> ascii) (src : Z)
  : option (Z -> ascii) :=
  match find_NUL (Z.to_nat (size - src)) buf src with
  | None => None
  | Some stop =>
      Some (fun i => if (0 <=? i) && (i <=? stop - src)
                     then buf (src + i) else buf i)
  end.

(** What [recv] does to the array when it stores [bytes] at [at_]. *)
Definition write_bytes (buf : Z -> ascii) (at_ : Z) (bytes : list ascii)
  : Z -> ascii :=
  fun i => if (at_ <=? i) && (i <? at_ + Z.of_nat (length bytes))
           then nth (Z.to_nat (i - at_)) bytes NUL else buf i.

(** The [if (stderr_size)] block of [read_stdout], [bytes] being the
    diagnostic bytes [recv] has just stored at
    [error_buffer + error_buffer_read]. *)
Definition capture_stderr (bytes : list ascii) : M unit :=
  fun param =>
    let stderr_size := Z.of_nat (length bytes) in
    if stderr_size =? 0 then (Ret tt, param)
    else
      let buf :=
        write_bytes (error_buffer param) (error_buffer_read param) bytes in
      let fill := to_int (error_buffer_read param + stderr_size) in
      if fill =? ERROR_BUFFER_SIZE then
        match strcpy_down (ERROR_BUFFER_SIZE + 1) buf (ERROR_BUFFER_SIZE / 2)
        with
        | Some buf' =>
            (Ret tt, set_error_buffer param buf' (ERROR_BUFFER_SIZE / 2))
        | None =>
            (Crash BufferOverrun,
             set_error_buffer param buf (ERROR_BUFFER_SIZE / 2))
        end
      else (Ret tt, set_error_buffer param buf fill).

Arguments strcpy_down : simpl never.
Arguments capture_stderr : simpl never.

Definition is_empty {A} (l : list A) : bool :=
  match l with [] => true | _ :: _ => false end.

(** The [do ... while] of [read_stdout]; [fuel] counts the turns still
    allowed after the first one. *)
Fixpoint read_stdout_loop (fuel : nat) (size : Z) : M (list ascii) :=
  fun param =>
    match handle param with
    | None => (Crash NullDereference, param)
    | Some h =>
        let stderr_size :=
          to_size_t (ERROR_BUFFER_SIZE - error_buffer_read param) in
        let '(r, h') := ssp_recv h size stderr_size in
        (capture_stderr (r_stderr r) ;;;
         if negb (is_empty (r_stdout r)) then ret (r_stdout r)
         else if (0 <? to_size_t (r_res r)) || ssp_isalive h' then
           match fuel with
           | O => ret []
           | S fuel' => read_stdout_loop fuel' size
           end
         else ret [])
          (set_handle param (Some h'))
    end.

(** Every turn of the loop uses up one entry of the schedule, and the
    turn that finds it empty is the last. *)
Definition read_stdout (size : Z) : M (list ascii) :=
  fun param =>
    match handle param with
    | None => (Crash NullDereference, param)
    | Some h => read_stdout_loop (length (schedule h)) size param
    end.

(** [output] is the [data] array of [json_rpc_callback]:
    [BUFFER_SIZE + 1] elements of which [memset] cleared the first
    [BUFFER_SIZE].  Only the bytes read so far are kept; the string
    [strstr] scans ends inside the array when one of them is NUL or
    when fewer than [BUFFER_SIZE] were stored. *)
Definition terminated (output : list ascii) : bool :=
  has_NUL output || (Z.of_nat (length output) <? BUFFER_SIZE).

(** The [while] of [read_until]; [room] is the number of elements of
    the array past [output + read]. *)
Fixpoint read_until_loop (room : nat) (needle output : list ascii)
  : M (bool * list ascii) :=
  if negb (terminated output) then crashed BufferOverrun
  else if strstr (cstr output) needle then ret (true, output)
  else
    bytes <~ read_stdout 1 ;;
    if is_empty bytes then ret (false, output)
    else
      match room with
      | O => crashed BufferOverrun
      | S room' => read_until_loop room' needle (output ++ bytes)
      end.

Definition read_until (needle : list ascii) : M (bool * list ascii) :=
  read_until_loop (Z.to_nat (BUFFER_SIZE + 1)) needle [].

(** The [while (has_to_read > 0)] of [json_rpc_callback].  [msg] holds
    the bytes stored so far, [allocated] tells whether [malloc]
    succeeded; [fuel] counts the turns still allowed after the first
    one. *)
Fixpoint read_payload (fuel : nat) (allocated : bool) (msg : list ascii)
    (has_to_read : Z) : M (list ascii) :=
  if 0 <? has_to_read then
    bytes <~ read_stdout has_to_read ;;
    let bytes_read := to_int (Z.of_nat (length bytes)) in
    if negb (is_empty bytes) && negb allocated then crashed NullDereference
    else if bytes_read =? 0 then
      modify (fun s => set_done s true) ;;; ret (msg ++ bytes)
    else
      match fuel with
      | O => ret (msg ++ bytes)
      | S fuel' =>
          read_payload fuel' allocated (msg ++ bytes)
                       (to_size_t (has_to_read - bytes_read))
      end
  else ret msg.

Definition schedule_length (param : json_rpc_state) : nat :=
  match handle param with
  | Some h => length (schedule h)
  | None => O
  end.

(** [(Qjson_xxx "text" "source" line column position)] *)
Definition get_json_parse_error (error : json_error_t) : Lisp_Object :=
  let symbol :=
    match code error with
    | json_error_premature_end_of_input => Qjson_end_of_file
    | json_error_end_of_input_expected => Qjson_trailing_content
    | _ => Qjson_parse_error
    end in
  Fcons symbol (list5 (LString (text error)) (LString (source error))
                      (Fixnum (line error)) (Fixnum (column error))
                      (Fixnum (position error))).

(** A Lisp function of three arguments: it returns or signals. *)
Definition lisp_function : Type :=
  Lisp_Object -> Lisp_Object -> Lisp_Object -> result Lisp_Object.

(** [CALLN (Ffuncall, callback, a, b, c)] *)
Definition Ffuncall (callback : lisp_function) (a b c : Lisp_Object)
  : M unit :=
  modify (fun s => emit s (Funcall a b c)) ;;;
  lift (callback a b c) ;;;
  ret tt.

Section Dispatch.

Context {collab : Collaborator}.

(** Runs with the global lock released. *)
Definition json_rpc_callback : M unit :=
  marker <~ read_until MARKER ;;
  if fst marker then
    header <~ read_until DELIM ;;
    if fst header then
      let content_length := to_size_t (strtol (cstr (snd header))) in
      let has_to_read := content_length in
      let allocated := content_length <? PTRDIFF_MAX in
      fuel <~ get schedule_length ;;
      msg <~ read_payload fuel allocated [] has_to_read ;;
      d <~ get done ;;
      if negb d then
        match json_loads (cstr msg) with
        | inl value => modify (fun s => set_message s (Some value))
        | inr e => modify (fun s => set_error (set_message s None) e)
        end
      else ret tt
    else modify (fun s => set_done s true)
  else modify (fun s => set_done s true).

(** The [while (!param->done && handle->isalive (handle))] of
    [Fjson_rpc]. *)
Fixpoint Fjson_rpc_loop (fuel : nat) (callback : lisp_function)
    (conf : json_configuration) : M unit :=
  match fuel with
  | O => ret tt
  | S fuel' =>
      d <~ get done ;;
      if d then ret tt
      else
        h <~ get handle ;;
        match h with
        | None => crashed NullDereference
        | Some h =>
            if ssp_isalive h then
              json_rpc_callback ;;;
              d' <~ get done ;;
              (if negb d' then
                 m <~ get message ;;
                 match m with
                 | Some value =>
                     msg <~ lift (json_to_lisp value conf) ;;
                     modify (fun s => set_message s None) ;;;
                     Ffuncall callback msg Qnil Qnil
                 | None =>
                     e <~ get error ;;
                     Ffuncall callback Qnil (get_json_parse_error e) Qnil
                 end
               else ret tt) ;;;
              Fjson_rpc_loop fuel' callback conf
            else ret tt
        end
  end.

(** [(json-rpc CONNECTION CALLBACK &rest ARGS)]; the closing mutex is
    taken with a timeout of 1 s, and nothing is done when that
    fails. *)
Definition Fjson_rpc (callback : lisp_function) (args : list Lisp_Object)
  : M Lisp_Object :=
  conf <~ lift (json_parse_args (Z.of_nat (length args)) args
                                default_conf true) ;;
  fuel <~ get schedule_length ;;
  Fjson_rpc_loop (fuel + 2) callback conf ;;;
  Ffuncall callback Qnil Qnil Qt ;;;
  o <~ pthread_mutex_timedlock ;;
  match o with
  | Acquired =>
      h <~ get handle ;;
      match h with
      | None => crashed NullDereference
      | Some _ =>
          modify (fun s => set_handle (emit s Close) None) ;;;
          pthread_mutex_unlock
      end
  | TimedOut => ret tt
  end ;;;
  ret Qnil.

End Dispatch.

(** ** Vocabulary of the statements *)

Definition no_error : json_error_t :=
  mk_json_error [] [] 0 0 0 json_error_invalid_syntax.

(** The state [json-rpc-connection] builds around a freshly spawned
    child; [mem] is the content of the memory [malloc] handed out for
    the diagnostic buffer. *)
Definition Fjson_rpc_connection (h : SSP_Handle) (child : Z)
    (mem : Z -> ascii) : json_rpc_state :=
  mk_state [] (Some h) None no_error false child false mem 0 [].

(** The next [pthread_mutex_timedlock] succeeds. *)
Definition lock_available (s : json_rpc_state) : bool :=
  match hd Acquired (handle_mx s) with
  | Acquired => true
  | TimedOut => false
  end.

(** A payload as it goes on the wire. *)
Definition frame (payload : list ascii) : list ascii :=
  chars "Content-Length: " ++ decimal (Z.of_nat (length payload))
        ++ DELIM ++ payload.

(** [strtol] finds no digit to convert: after the blanks and an
    optional sign, the text is over or goes on with something else. *)
Definition lacks_number (s : list ascii) : bool :=
  let no_digit (t : list ascii) :=
    match t with
    | [] => true
    | d :: _ => negb (is_some (digit_of d))
    end in
  match skip_isspace s with
  | [] => true
  | c :: rest =>
      if Ascii.eqb c "-"%char || Ascii.eqb c "+"%char
      then no_digit rest
      else no_digit (c :: rest)
  end.

(** The buffers handed to [send], in order. *)
Definition sent_buffers (l : list effect) : list (list ascii) :=
  flat_map (fun e => match e with
                     | Send _ msg _ _ => [msg]
                     | _ => []
                     end) l.

(** The end-of-session call of the handler, and the calls made while
    the loop is running. *)
Definition end_of_session : effect := Funcall Qnil Qnil Qt.

Definition running_delivery (e : effect) : Prop :=
  exists msg err, e = Funcall msg err Qnil.

(** What the framed reader leaves alone: the log, the mutex, the
    cancellation flag, and whether the handle is open. *)
Definition reads (s s' : json_rpc_state) : Prop :=
  log s' = log s
  /\ handle_mx s' = handle_mx s
  /\ cancel_send s' = cancel_send s
  /\ is_some (handle s') = is_some (handle s).

(** What [recv] and the capture of diagnostics leave alone: all of the
    above and the result fields of the structure. *)
Definition receives (s s' : json_rpc_state) : Prop :=
  reads s s'
  /\ done s' = done s
  /\ message s' = message s
  /\ error s' = error s.

(** What the dispatch loop does to the outside while it runs: calls of
    the handler with a third argument [nil], and nothing else. *)
Definition delivers (s s' : json_rpc_state) : Prop :=
  (exists ds, log s' = log s ++ ds /\ Forall running_delivery ds)
  /\ handle_mx s' = handle_mx s
  /\ is_some (handle s') = is_some (handle s).

(** The fill level of the diagnostic buffer is inside the array. *)
Definition buffer_wf (s : json_rpc_state) : Prop :=
  0 <= error_buffer_read s < ERROR_BUFFER_SIZE.

(** ** Connections used as examples *)

(** [:null-object 1 :null-object 2] *)
Definition twice_null_object : list Lisp_Object :=
  [QCnull_object; Fixnum 1; QCnull_object; Fixnum 2].

(** A handler that always returns. *)
Definition quiet_handler : lisp_function := fun _ _ _ => Ret Qnil.

(** A child that is alive and silent, and the connection around it. *)
Definition idle_handle : SSP_Handle := mk_handle [] [] [] true [].
Definition fresh_state : json_rpc_state :=
  Fjson_rpc_connection idle_handle 1 (fun _ => NUL).

(** A child that lets up to 100 bytes through on each of [n] reads. *)
Definition steady (n : nat) : list recv_event :=
  repeat (mk_event 100 0 1 true) n.

(** A header whose length is not a number, followed by a well-formed
    frame carrying [true]. *)
Definition garbled_stream : list ascii :=
  chars "Content-Length: abc" ++ DELIM ++ frame (chars "true").

Definition garbled_state : json_rpc_state :=
  Fjson_rpc_connection (mk_handle garbled_stream [] (steady 60) true []) 1
                       (fun _ => NUL).

(** A child that has exited, while another thread keeps the mutex for
    longer than the next timed lock waits. *)
Definition contended_state : json_rpc_state :=
  mk_state [TimedOut] (Some (mk_handle [] [] [] false [])) None no_error
           false 1 false (fun _ => NUL) 0 [].

(** A connection whose child has written 2 MiB of [a], one NUL and
    then [b] up to one byte short of 4 MiB on its diagnostic stream,
    all of it captured. *)
Definition brim_buffer (i : Z) : ascii :=
  if i <? ERROR_BUFFER_SIZE / 2 then "a"%char
  else if i =? ERROR_BUFFER_SIZE / 2 then NUL
  else "b"%char.

Definition brim_state : json_rpc_state :=
  mk_state [] (Some (mk_handle [] [] [] true [])) None no_error false 1 false
           brim_buffer (ERROR_BUFFER_SIZE - 1) [].

(** A frame whose payload is not JSON, followed by a well-formed one. *)
Definition broken_stream : list ascii :=
  frame (chars "tru") ++ frame (chars "true").

Definition broken_state : json_rpc_state :=
  Fjson_rpc_connection (mk_handle broken_stream [] (steady 60) true []) 1
                       (fun _ => NUL).

(** The states a first turn goes through on a connection: after the
    marker, after the delimiter, after the payload. *)
Definition after_marker (st : json_rpc_state) : json_rpc_state :=
  snd (read_until MARKER st).
Definition after_header (st : json_rpc_state) : json_rpc_state :=
  snd (read_until DELIM (after_marker st)).
Definition header_of (st : json_rpc_state) : list ascii :=
  match fst (read_until DELIM (after_marker st)) with
  | Ret (_, hdr) => hdr
  | _ => []
  end.
Definition after_payload (st : json_rpc_state) : json_rpc_state :=
  snd (read_payload (schedule_length (after_header st))
                    (to_size_t (strtol (cstr (header_of st))) <? PTRDIFF_MAX)
                    []
                    (to_size_t (strtol (cstr (header_of st))))
                    (after_header st)).

(** The diagnostics still to come fit in the buffer: no overflow will
    occur on this connection. *)
Definition quiet (s : json_rpc_state) (h : SSP_Handle) : Prop :=
  0 <= error_buffer_read s
  /\ error_buffer_read s + Z.of_nat (length (stderr_pipe h))
     < ERROR_BUFFER_SIZE.

(** [consumed k s s']: between [s] and [s'] the reader took [k] bytes
    off the standard output of the child, used up part of the
    schedule, strictly so when [k] is positive, moved captured
    diagnostics from the pipe to the buffer, and touched nothing
    else. *)
Definition consumed (k : nat) (s s' : json_rpc_state) : Prop :=
  receives s s'
  /\ exists h h',
      handle s = Some h
      /\ handle s' = Some h'
      /\ (k <= length (stdout_pipe h))%nat
      /\ stdout_pipe h' = skipn k (stdout_pipe h)
      /\ (length (schedule h') <= length (schedule h))%nat
      /\ ((0 < k)%nat -> (length (schedule h') < length (schedule h))%nat)
      /\ error_buffer_read s <= error_buffer_read s'
      /\ error_buffer_read s' + Z.of_nat (length (stderr_pipe h'))
         = error_buffer_read s + Z.of_nat (length (stderr_pipe h)).

(** The delimiter occurs in [header], and in none of its proper
    prefixes: [header] is what [read_until] collects after the
    marker. *)
Definition delimited (header : list ascii) : bool :=
  strstr (cstr header) DELIM
  && forallb (fun j => negb (strstr (cstr (firstn j header)) DELIM))
             (seq 0 (length header)).

(** A child that exits two bytes into the payload of a frame carrying
    [true], and one that exits inside the header of that frame. *)
Definition cut_handle (cut : nat) : SSP_Handle :=
  mk_handle (firstn cut (frame (chars "true"))) [] (steady 60) true [].

Definition cut_state (cut : nat) : json_rpc_state :=
  Fjson_rpc_connection (cut_handle cut) 1 (fun _ => NUL).

(** ** Vocabulary of the further properties *)

(** A keyword and its value that [json_parse_args] lets through. *)
Definition valid_pair (parse_object_types : bool) (key value : Lisp_Object)
  : bool :=
  if EQ key QCobject_type
  then parse_object_types && is_some (object_type_of value)
  else if EQ key QCarray_type
  then parse_object_types && is_some (array_type_of value)
  else EQ key QCnull_object || EQ key QCfalse_object.

(** The two flags are never cleared and the fill level stays inside
    the diagnostic buffer. *)
Definition persists (s s' : json_rpc_state) : Prop :=
  (done s = true -> done s' = true)
  /\ (cancel_send s = true -> cancel_send s' = true)
  /\ (buffer_wf s -> buffer_wf s').

(** The diagnostics [json-rpc-stderr] would return. *)
Definition captured (s : json_rpc_state) : list ascii :=
  map (fun i => error_buffer s (Z.of_nat i))
      (seq 0 (Z.to_nat (error_buffer_read s))).

(** On a quiet connection the diagnostics are conserved: what has been
    captured, followed by what the child has still to write, does not
    change. *)
Definition conserves (s s' : json_rpc_state) : Prop :=
  forall h,
    handle s = Some h ->
    quiet s h ->
    exists h',
      handle s' = Some h'
      /\ quiet s' h'
      /\ captured s' ++ stderr_pipe h' = captured s ++ stderr_pipe h.

(** A child that answers [true] in one frame while it writes a warning
    on its diagnostic stream, three bytes to a read. *)
Definition chatty_handle : SSP_Handle :=
  mk_handle (frame (chars "true")) (chars "warning: slow")
            (repeat (mk_event 100 3 1 true) 60) true [].

Definition chatty_state : json_rpc_state :=
  Fjson_rpc_connection chatty_handle 1 (fun _ => NUL).

(** A child that has something to give on its standard output at every
    read still to come. *)
Definition responsive (h : SSP_Handle) : bool :=
  forallb (fun e => (0 <? ev_stdout e)%nat) (schedule h).


(** A child that sends a line of noise, then [true] in one frame and
    the start of another, a few bytes to a read. *)
Definition noisy_stream : list ascii :=
  chars "starting up" ++ [LF] ++ frame (chars "true") ++ MARKER.

Definition noisy_handle : SSP_Handle :=
  mk_handle noisy_stream [] (repeat (mk_event 3 0 1 true) 60) true [].

Definition noisy_state : json_rpc_state :=
  Fjson_rpc_connection noisy_handle 1 (fun _ => NUL).

(** None of the first [n] prefixes of [stream], the empty one
    included, holds [needle] when scanned as a C string. *)
Definition never_within (n : nat) (needle stream : list ascii) : bool :=
  forallb (fun j => negb (strstr (cstr (firstn j stream)) needle))
          (seq 0 n).

(** A child that floods its standard output with a long line. *)
Definition flooding_handle : SSP_Handle :=
  mk_handle (repeat "."%char 1100) []
            (repeat (mk_event 1 0 1 true) 1100) true [].

Definition flooding_state : json_rpc_state :=
  Fjson_rpc_connection flooding_handle 1 (fun _ => NUL).

(** A call of the handler, whatever its arguments. *)
Definition handler_call (e : effect) : Prop :=
  exists msg err eof, e = Funcall msg err eof.

(** A handler that always signals. *)
Definition failing_handler : lisp_function :=
  fun _ _ _ => Signal (handler_error Qnil).

(** A child that wrote [true] in one frame and exited before the
    dispatch loop was started. *)
Definition exited_handle : SSP_Handle :=
  mk_handle (frame (chars "true")) [] (repeat (mk_event 100 0 1 false) 60)
            false [].

Definition exited_state : json_rpc_state :=
  Fjson_rpc_connection exited_handle 1 (fun _ => NUL).

(** The call came back with a value. *)
Definition returned {A} (r : result A) : bool :=
  match r with
  | Ret _ => true
  | _ => false
  end.



(** A keyword list with a wrong value for [:array-type], then an
    unknown keyword, then a valid pair. *)
Definition misspelt_args : list Lisp_Object :=
  [QCarray_type; Fixnum 0; Symbol ":nul-object"; Fixnum 7;
   QCnull_object; Qnil].

(** ** The converters of json.c

    [lisp_to_json] and [json_to_lisp], which the transport uses as
    black boxes, as json.c writes them.  A Lisp string is the sequence
    of its UTF-8 bytes, so that [json_encode] and
    [make_string_from_utf8] copy it; floats have no counterpart in
    [Lisp_Object] and [json_t], and the branches for them are left
    out; allocation succeeds.  [lisp_eval_depth] is followed through
    [room], the number of levels left before [max_lisp_eval_depth] is
    exceeded.  A jansson object is the list of its members in the
    order they were inserted, which is the order
    [json_object_foreach] visits them in. *)

Module Convert.

(** A primitive returns, leaves by [xsignal (symbol, data)], or
    aborts on a failed [eassert]. *)
Inductive outcome (A : Type) : Type :=
| Normal (a : A)
| Xsignal (error_symbol data : Lisp_Object)
| Abort.

Arguments Normal {A} a.
Arguments Xsignal {A} error_symbol data.
Arguments Abort {A}.

Definition chain {A B} (r : outcome A) (k : A -> outcome B) : outcome B :=
  match r with
  | Normal a => k a
  | Xsignal s d => Xsignal s d
  | Abort => Abort
  end.

Notation "'do' x <- r ; k" := (chain r (fun x => k))
  (at level 10, x name, r at level 100, k at level 200).

Definition Qwrong_type_argument := Symbol "wrong-type-argument".
Definition Qargs_out_of_range := Symbol "args-out-of-range".
Definition Qoverflow_error := Symbol "overflow-error".
Definition Qjson_object_too_deep := Symbol "json-object-too-deep".
Definition Qjson_out_of_memory := Symbol "json-out-of-memory".
Definition Qstringp := Symbol "stringp".
Definition Qsymbolp := Symbol "symbolp".
Definition Qconsp := Symbol "consp".
Definition Qlistp := Symbol "listp".
Definition Qstring_without_embedded_nulls_p :=
  Symbol "string-without-embedded-nulls-p".
Definition Qutf_8_string_p := Symbol "utf-8-string-p".

Definition xsignal0 {A} (error_symbol : Lisp_Object) : outcome A :=
  Xsignal error_symbol Qnil.
Definition wrong_type_argument {A} (predicate value : Lisp_Object)
  : outcome A :=
  Xsignal Qwrong_type_argument (list2 predicate value).
Definition json_out_of_memory {A} : outcome A :=
  xsignal0 Qjson_out_of_memory.
Definition overflow_error {A} : outcome A := xsignal0 Qoverflow_error.

Definition MOST_POSITIVE_FIXNUM : Z := 2 ^ 61 - 1.
Definition JSON_INT_MIN : Z := - 2 ^ 63.
Definition JSON_INT_MAX : Z := 2 ^ 63 - 1.

(** The two tests of well-formed UTF-8 that json.c relies on: the one
    jansson applies to the strings and keys it is given, and
    [utf8_string_p] of Emacs. *)
Class Encoding : Type := {
  utf8_check_string : list ascii -> bool;
  utf8_string_p : list ascii -> bool
}.

Definition NILP (x : Lisp_Object) : bool := EQ x Qnil.

(** [Fnreverse] on a list. *)
Fixpoint nreverse_onto (l acc : Lisp_Object) : Lisp_Object :=
  match l with
  | Cons a d => nreverse_onto d (Cons a acc)
  | _ => acc
  end.
Definition Fnreverse (l : Lisp_Object) : Lisp_Object := nreverse_onto l Qnil.

(** [Fintern (build_string_from_utf8 (key_str), Qnil)] and
    [intern_1 (keyword_key_str, key_str_len + 1)]; [key_str] is a C
    string. *)
Definition intern (key_str : list ascii) : Lisp_Object :=
  Symbol (string_of_list_ascii (cstr key_str)).
Definition intern_keyword (key_str : list ascii) : Lisp_Object :=
  Symbol (String ":"%char (string_of_list_ascii (cstr key_str))).

(** *** [json_to_lisp] *)

(** [for (i = 0; i < size; ++i) ASET (result, i, f (json_array_get
    (json, i)))] *)
Fixpoint fill_vector (f : json_t -> outcome Lisp_Object)
    (elts : list json_t) : outcome (list Lisp_Object) :=
  match elts with
  | [] => Normal []
  | x :: rest =>
      do v <- f x;
      do vs <- fill_vector f rest;
      Normal (v :: vs)
  end.

(** [for (i = size - 1; i >= 0; --i) result = Fcons (f
    (json_array_get (json, i)), result)]: the last element is
    converted first. *)
Fixpoint cons_backwards (f : json_t -> outcome Lisp_Object)
    (elts : list json_t) : outcome Lisp_Object :=
  match elts with
  | [] => Normal Qnil
  | x :: rest =>
      do result <- cons_backwards f rest;
      do v <- f x;
      Normal (Fcons v result)
  end.

Definition has_key (h : list (Lisp_Object * Lisp_Object))
    (key : list ascii) : bool :=
  existsb (fun kv => match fst kv with
                     | LString k => if list_eq_dec ascii_dec k key
                                    then true else false
                     | _ => false
                     end) h.

(** The [json_object_foreach] loop of the hash-table case;
    [hash_put] adds the entry after the ones already there. *)
Fixpoint put_members (f : json_t -> outcome Lisp_Object)
    (members : list (list ascii * json_t))
    (h : list (Lisp_Object * Lisp_Object))
  : outcome (list (Lisp_Object * Lisp_Object)) :=
  match members with
  | [] => Normal h
  | (key_str, value) :: rest =>
      let key := cstr key_str in
      if has_key h key then Abort
      else
        do v <- f value;
        put_members f rest (h ++ [(LString key, v)])
  end.

(** The loop of the alist case: [result] grows at the front. *)
Fixpoint push_pairs (f : json_t -> outcome Lisp_Object)
    (members : list (list ascii * json_t)) (result : Lisp_Object)
  : outcome Lisp_Object :=
  match members with
  | [] => Normal result
  | (key_str, value) :: rest =>
      let key := intern key_str in
      do v <- f value;
      push_pairs f rest (Fcons (Fcons key v) result)
  end.

(** The loop of the plist case: the value is pushed after the key. *)
Fixpoint push_properties (f : json_t -> outcome Lisp_Object)
    (members : list (list ascii * json_t)) (result : Lisp_Object)
  : outcome Lisp_Object :=
  match members with
  | [] => Normal result
  | (key_str, value) :: rest =>
      let key := intern_keyword key_str in
      let result := Fcons key result in
      do v <- f value;
      push_properties f rest (Fcons v result)
  end.

Fixpoint json_to_lisp (room : nat) (json : json_t)
    (conf : json_configuration) : outcome Lisp_Object :=
  match json with
  | JSON_NULL => Normal (null_object conf)
  | JSON_FALSE => Normal (false_object conf)
  | JSON_TRUE => Normal Qt
  | JSON_INTEGER i => Normal (Fixnum i)
  | JSON_STRING s => Normal (LString s)
  | JSON_ARRAY elts =>
      match room with
      | O => xsignal0 Qjson_object_too_deep
      | S room' =>
          let size := Z.of_nat (length elts) in
          if PTRDIFF_MAX <? size then overflow_error
          else
            match array_type conf with
            | json_array_array =>
                do result <- fill_vector
                               (fun x => json_to_lisp room' x conf) elts;
                Normal (Vector result)
            | json_array_list =>
                cons_backwards (fun x => json_to_lisp room' x conf) elts
            end
      end
  | JSON_OBJECT members =>
      match room with
      | O => xsignal0 Qjson_object_too_deep
      | S room' =>
          match object_type conf with
          | json_object_hashtable =>
              let size := Z.of_nat (length members) in
              if MOST_POSITIVE_FIXNUM <? size then overflow_error
              else
                do h <- put_members (fun x => json_to_lisp room' x conf)
                                    members [];
                Normal (HashTable h)
          | json_object_alist =>
              do result <- push_pairs (fun x => json_to_lisp room' x conf)
                                      members Qnil;
              Normal (Fnreverse result)
          | json_object_plist =>
              do result <- push_properties
                             (fun x => json_to_lisp room' x conf)
                             members Qnil;
              Normal (Fnreverse result)
          end
      end
  end.

(** *** [lisp_to_json] *)

(** [json_object_get (json, key) != NULL] *)
Definition json_object_get (json : list (list ascii * json_t))
    (key : list ascii) : bool :=
  existsb (fun kv => if list_eq_dec ascii_dec (fst kv) key
                     then true else false) json.

(** [CHECK_TYPE (memchr (SDATA (object), '\0', SBYTES (object)) ==
    NULL, ...)], [object] being a string already. *)
Definition check_string_without_embedded_nulls (object : list ascii)
  : outcome unit :=
  if has_NUL object
  then wrong_type_argument Qstring_without_embedded_nulls_p (LString object)
  else Normal tt.

Section Converters.

Context {enc : Encoding}.

Definition json_check_utf8 (string : list ascii) : outcome unit :=
  if utf8_string_p string then Normal tt
  else wrong_type_argument Qutf_8_string_p (LString string).

(** [json_object_set_new (json, key, value)] on a key that [json]
    does not hold: -1 when the key is not UTF-8. *)
Definition json_object_set_new (json : list (list ascii * json_t))
    (key : list ascii) (value : json_t)
  : option (list (list ascii * json_t)) :=
  if utf8_check_string key then Some (json ++ [(key, value)]) else None.

(** The loop over the elements of a vector. *)
Fixpoint append_elements (f : Lisp_Object -> outcome json_t)
    (elts : list Lisp_Object) (json : list json_t)
  : outcome (list json_t) :=
  match elts with
  | [] => Normal json
  | x :: rest =>
      do j <- f x;
      append_elements f rest (json ++ [j])
  end.

(** The loop over the slots of a hash table that hold an entry. *)
Fixpoint set_entries (f : Lisp_Object -> outcome json_t)
    (lisp : Lisp_Object) (entries : list (Lisp_Object * Lisp_Object))
    (json : list (list ascii * json_t))
  : outcome (list (list ascii * json_t)) :=
  match entries with
  | [] => Normal json
  | (key, value) :: rest =>
      match key with
      | LString ekey =>
          do _ <- check_string_without_embedded_nulls ekey;
          if json_object_get json ekey
          then wrong_type_argument Qjson_value_p lisp
          else
            do j <- f value;
            match json_object_set_new json ekey j with
            | Some json' => set_entries f lisp rest json'
            | None =>
                do _ <- json_check_utf8 ekey;
                json_out_of_memory
            end
      | _ => wrong_type_argument Qstringp key
      end
  end.

(** The part of the body of [FOR_EACH_TAIL] that alists and plists
    share, from [CHECK_SYMBOL] on. *)
Definition add_member (f : Lisp_Object -> outcome json_t)
    (is_plist : bool) (key_symbol value : Lisp_Object)
    (json : list (list ascii * json_t))
  : outcome (list (list ascii * json_t)) :=
  match key_symbol with
  | Symbol name =>
      let key := list_ascii_of_string name in
      do _ <- check_string_without_embedded_nulls key;
      let key_str :=
        match key with
        | c :: ((_ :: _) as rest) =>
            if is_plist && Ascii.eqb ":"%char c then rest else key
        | _ => key
        end in
      if json_object_get json key_str then Normal json
      else
        do j <- f value;
        match json_object_set_new json key_str j with
        | Some json' => Normal json'
        | None => json_out_of_memory
        end
  | _ => wrong_type_argument Qsymbolp key_symbol
  end.

(** [FOR_EACH_TAIL (tail)] and the [CHECK_LIST_END (tail, lisp)]
    after it. *)
Fixpoint for_each_tail (f : Lisp_Object -> outcome json_t)
    (is_plist : bool) (lisp tail : Lisp_Object)
    (json : list (list ascii * json_t))
  : outcome (list (list ascii * json_t)) :=
  match tail with
  | Cons car cdr =>
      if is_plist then
        match cdr with
        | Cons value rest =>
            do json' <- add_member f is_plist car value json;
            for_each_tail f is_plist lisp rest json'
        | _ => wrong_type_argument Qconsp cdr
        end
      else
        match car with
        | Cons key_symbol value =>
            do json' <- add_member f is_plist key_symbol value json;
            for_each_tail f is_plist lisp cdr json'
        | _ => wrong_type_argument Qconsp car
        end
  | _ =>
      if NILP tail then Normal json
      else wrong_type_argument Qlistp lisp
  end.

Definition CONSP (x : Lisp_Object) : bool :=
  match x with
  | Cons _ _ => true
  | _ => false
  end.

(** [f] is [lisp_to_json] one level down. *)
Definition lisp_to_json_nonscalar_1 (f : Lisp_Object -> outcome json_t)
    (lisp : Lisp_Object) : outcome json_t :=
  match lisp with
  | Vector elts =>
      do json <- append_elements f elts [];
      Normal (JSON_ARRAY json)
  | HashTable entries =>
      do json <- set_entries f lisp entries [];
      Normal (JSON_OBJECT json)
  | Cons car _ =>
      let is_plist := negb (CONSP car) in
      do json <- for_each_tail f is_plist lisp lisp [];
      Normal (JSON_OBJECT json)
  | _ =>
      if NILP lisp then Normal (JSON_OBJECT [])
      else wrong_type_argument Qjson_value_p lisp
  end.

Fixpoint lisp_to_json (room : nat) (lisp : Lisp_Object)
    (conf : json_configuration) : outcome json_t :=
  if EQ lisp (null_object conf) then Normal JSON_NULL
  else if EQ lisp (false_object conf) then Normal JSON_FALSE
  else if EQ lisp Qt then Normal JSON_TRUE
  else
    match lisp with
    | Fixnum value =>
        if (JSON_INT_MIN <=? value) && (value <=? JSON_INT_MAX)
        then Normal (JSON_INTEGER value)
        else Xsignal Qargs_out_of_range
                     (list3 lisp (Fixnum JSON_INT_MIN) (Fixnum JSON_INT_MAX))
    | LString encoded =>
        if utf8_check_string encoded then Normal (JSON_STRING encoded)
        else
          do _ <- json_check_utf8 encoded;
          json_out_of_memory
    | _ =>
        (* lisp_to_json_nonscalar *)
        match room with
        | O => xsignal0 Qjson_object_too_deep
        | S room' =>
            lisp_to_json_nonscalar_1 (fun x => lisp_to_json room' x conf) lisp
        end
    end.

(** *** Vocabulary *)

(** What a member of an object becomes in a hash table, an alist and
    a plist, [v] being its converted value. *)
Definition entry_of (kv : list ascii * json_t) (v : Lisp_Object)
  : Lisp_Object * Lisp_Object :=
  (LString (cstr (fst kv)), v).

Definition pair_of (kv : list ascii * json_t) (v : Lisp_Object)
  : Lisp_Object :=
  Fcons (intern (fst kv)) v.

Definition property_of (kv : list ascii * json_t) (v : Lisp_Object)
  : list Lisp_Object :=
  [intern_keyword (fst kv); v].

(** The Lisp values that stand for null and false are symbols, they
    differ from each other and from [t] and [nil]. *)
Definition distinct_markers (conf : json_configuration) : bool :=
  match null_object conf, false_object conf with
  | Symbol n, Symbol f =>
      negb (String.eqb n f)
      && negb (String.eqb n "t") && negb (String.eqb f "t")
      && negb (String.eqb n "nil") && negb (String.eqb f "nil")
  | _, _ => false
  end.

Fixpoint distinct (keys : list (list ascii)) : bool :=
  match keys with
  | [] => true
  | k :: rest =>
      negb (existsb (fun k' => if list_eq_dec ascii_dec k' k
                               then true else false) rest)
      && distinct rest
  end.

(** A key jansson accepts, and one that a plist can carry: [:] alone
    is the keyword of the empty key and of the key [:]. *)
Definition key_ok (conf : json_configuration) (key : list ascii) : bool :=
  negb (has_NUL key) && utf8_check_string key
  && match object_type conf with
     | json_object_plist => negb (is_empty key)
     | _ => true
     end.

(** A value as jansson builds them: integers of [json_int_t], strings
    and keys in UTF-8, keys without NUL and distinct within an
    object. *)
Fixpoint well_formed (conf : json_configuration) (json : json_t) : bool :=
  match json with
  | JSON_INTEGER i => (JSON_INT_MIN <=? i) && (i <=? JSON_INT_MAX)
  | JSON_STRING s => utf8_check_string s
  | JSON_ARRAY elts => forallb (well_formed conf) elts
  | JSON_OBJECT members =>
      distinct (map fst members)
      && forallb (key_ok conf) (map fst members)
      && forallb (fun kv => well_formed conf (snd kv)) members
  | _ => true
  end.

(** The number of levels of arrays and objects in a value. *)
Fixpoint nesting (json : json_t) : nat :=
  match json with
  | JSON_ARRAY elts => S (list_max (map nesting elts))
  | JSON_OBJECT members =>
      S (list_max (map (fun kv => nesting (snd kv)) members))
  | _ => O
  end.

(** A value Emacs has room for: the sizes are within the limits
    [json_to_lisp] checks and the keys of an object are distinct. *)
Fixpoint storable (json : json_t) : bool :=
  match json with
  | JSON_ARRAY elts =>
      (Z.of_nat (length elts) <=? PTRDIFF_MAX) && forallb storable elts
  | JSON_OBJECT members =>
      (Z.of_nat (length members) <=? MOST_POSITIVE_FIXNUM)
      && distinct (map (fun kv => cstr (fst kv)) members)
      && forallb (fun kv => storable (snd kv)) members
  | _ => true
  end.

(** The conversion stops on the depth when [deep], and returns
    otherwise. *)
Definition graded {A} (deep : bool) (r : outcome A) : Prop :=
  if deep then r = xsignal0 Qjson_object_too_deep
  else exists a, r = Normal a.

(** The Lisp value that has the shape of the JSON value: elements
    and members in their order, each translated in turn. *)
Fixpoint translation (json : json_t) (conf : json_configuration)
  : Lisp_Object :=
  match json with
  | JSON_NULL => null_object conf
  | JSON_FALSE => false_object conf
  | JSON_TRUE => Qt
  | JSON_INTEGER i => Fixnum i
  | JSON_STRING s => LString s
  | JSON_ARRAY elts =>
      match array_type conf with
      | json_array_array => Vector (map (fun x => translation x conf) elts)
      | json_array_list => Flist (map (fun x => translation x conf) elts)
      end
  | JSON_OBJECT members =>
      match object_type conf with
      | json_object_hashtable =>
          HashTable
            (map (fun kv => entry_of kv (translation (snd kv) conf)) members)
      | json_object_alist =>
          Flist
            (map (fun kv => pair_of kv (translation (snd kv) conf)) members)
      | json_object_plist =>
          Flist
            (flat_map (fun kv => property_of kv (translation (snd kv) conf))
                      members)
      end
  end.

(** The alist with these keys and values. *)
Definition alist_of (pairs : list (string * Lisp_Object)) : Lisp_Object :=
  Flist (map (fun p => Fcons (Symbol (fst p)) (snd p)) pairs).

(** The number of cells [FOR_EACH_TAIL] goes through. *)
Fixpoint spine (tail : Lisp_Object) : nat :=
  match tail with
  | Cons _ cdr => S (spine cdr)
  | _ => O
  end.

(** The conversion returned a JSON array. *)
Definition is_array (r : outcome json_t) : bool :=
  match r with
  | Normal (JSON_ARRAY _) => true
  | _ => false
  end.

(** [JSON_FALSE] occurs in the value. *)
Fixpoint has_false (json : json_t) : bool :=
  match json with
  | JSON_FALSE => true
  | JSON_ARRAY elts => existsb has_false elts
  | JSON_OBJECT members => existsb (fun kv => has_false (snd kv)) members
  | _ => false
  end.

End Converters.

(** UTF-8 as both tests read it: the encodings of the Unicode scalar
    values, in their shortest form. *)
Definition byte_in (lo hi : N) (c : ascii) : bool :=
  (lo <=? N_of_ascii c)%N && (N_of_ascii c <=? hi)%N.

Fixpoint utf8_valid (s : list ascii) : bool :=
  match s with
  | [] => true
  | b0 :: rest =>
      if byte_in 0 127 b0 then utf8_valid rest
      else if byte_in 194 223 b0 then
        match rest with
        | b1 :: rest' => byte_in 128 191 b1 && utf8_valid rest'
        | _ => false
        end
      else if byte_in 224 239 b0 then
        match rest with
        | b1 :: b2 :: rest' =>
            (if byte_in 224 224 b0 then byte_in 160 191 b1
             else if byte_in 237 237 b0 then byte_in 128 159 b1
             else byte_in 128 191 b1)
            && byte_in 128 191 b2 && utf8_valid rest'
        | _ => false
        end
      else if byte_in 240 244 b0 then
        match rest with
        | b1 :: b2 :: b3 :: rest' =>
            (if byte_in 240 240 b0 then byte_in 144 191 b1
             else if byte_in 244 244 b0 then byte_in 128 143 b1
             else byte_in 128 191 b1)
            && byte_in 128 191 b2 && byte_in 128 191 b3
            && utf8_valid rest'
        | _ => false
        end
      else false
  end.

Definition unicode : Encoding := {|
  utf8_check_string := utf8_valid;
  utf8_string_p := utf8_valid
|}.

End Convert.

(** A request and the plist [json_to_lisp] makes of it. *)
Definition plist_conf : json_configuration :=
  mk_conf json_object_plist json_array_array QCnull QCfalse.

Definition request_json : json_t :=
  JSON_OBJECT
    [(chars "id", JSON_INTEGER 1);
     (chars "params", JSON_ARRAY [JSON_TRUE; JSON_NULL; JSON_OBJECT []]);
     (chars "method", JSON_STRING (chars "ping"))].

Definition request_plist : Lisp_Object :=
  Flist [Symbol ":id"; Fixnum 1;
         Symbol ":params"; Vector [Qt; QCnull; Qnil];
         Symbol ":method"; LString (chars "ping")].

(** Arrays are read as lists. *)
Definition list_conf : json_configuration :=
  mk_conf json_object_hashtable json_array_list QCnull QCfalse.

(** One object stands for null and for false. *)
Definition merged_conf : json_configuration :=
  mk_conf json_object_hashtable json_array_array Qnil Qnil.

(** ** The tests on error texts

    [json_has_prefix] and [json_has_suffix] classify the messages of a
    jansson that has no error codes.  A buffer is the list of its
    bytes, followed by a NUL when it holds none. *)

(** [strncmp (s1, s2, n) == 0] *)
Fixpoint strncmp_eq (s1 s2 : list ascii) (n : nat) : bool :=
  match n with
  | O => true
  | S n' =>
      let c1 := hd NUL s1 in
      let c2 := hd NUL s2 in
      if Ascii.eqb c1 c2
      then if Ascii.eqb c1 NUL then true
           else strncmp_eq (tl s1) (tl s2) n'
      else false
  end.

(** [memcmp (p1, p2, n) == 0], both areas being [n] bytes long at
    least. *)
Fixpoint memcmp_eq (p1 p2 : list ascii) (n : nat) {struct n} : bool :=
  match n with
  | O => true
  | S n' =>
      match p1, p2 with
      | c1 :: r1, c2 :: r2 => Ascii.eqb c1 c2 && memcmp_eq r1 r2 n'
      | _, _ => false
      end
  end.

Definition json_has_prefix (string prefix : list ascii) : bool :=
  strncmp_eq string prefix (Z.to_nat (strlen prefix)).

Definition json_has_suffix (string suffix : list ascii) : bool :=
  let string_len := strlen string in
  let suffix_len := strlen suffix in
  (suffix_len <=? string_len)
  && memcmp_eq (skipn (Z.to_nat (string_len - suffix_len)) string) suffix
               (Z.to_nat suffix_len).

(** ** Vocabulary of the end of a run *)

(** The schedule of the child does not grow. *)
Definition shrinks (s s' : json_rpc_state) : Prop :=
  (schedule_length s' <= schedule_length s)%nat.

(** What a call of the handler leaves alone: the handle, with the
    stream behind it, and the termination flag. *)
Definition untouched (s s' : json_rpc_state) : Prop :=
  handle s' = handle s /\ done s' = done s.

(** The condition of the [while] of [Fjson_rpc] is false. *)
Definition loop_is_over (s : json_rpc_state) : Prop :=
  done s = true
  \/ exists h, handle s = Some h /\ ssp_isalive h = false.

(** ** A frame longer than an [int] can count *)

(** A Lisp string of 2^32 - 2 letters.  Its JSON text, the letters
    between two quotes, has 2^32 bytes, and the frame built around it
    2^32 + 30. *)
Definition long_string : list ascii :=
  repeat "a"%char (Z.to_nat (2 ^ 32 - 2)).

Definition long_text : list ascii := DQUOTE :: long_string ++ [DQUOTE].

(** An open connection whose next [send] reports 30 bytes. *)
Definition wrapping_handle : SSP_Handle := mk_handle [] [] [] true [30].

Definition wrapping_state : json_rpc_state :=
  Fjson_rpc_connection wrapping_handle 1 (fun _ => NUL).
(** * Properties *)

(** ** C strings *)

Lemma has_NUL_false (l : list ascii) : has_NUL l = false <-> ~ In NUL l.
Proof.
  unfold has_NUL. split.
  - intros H Hin.
    assert (existsb (Ascii.eqb NUL) l = true).
    { apply existsb_exists. exists NUL. split; [assumption|].
      apply Ascii.eqb_refl. }
    congruence.
  - intros H. apply Bool.not_true_is_false. intros E.
    apply existsb_exists in E. destruct E as (c & Hin & Hc).
    apply Ascii.eqb_eq in Hc. subst c. contradiction.
Qed.

Lemma cstr_no_NUL (l : list ascii) : ~ In NUL l -> cstr l = l.
Proof.
  induction l as [|c l IH]; simpl; intros H; [reflexivity|].
  destruct (Ascii.eqb c NUL) eqn:E.
  - apply Ascii.eqb_eq in E. exfalso. apply H. now left.
  - f_equal. apply IH. intros Hin. apply H. now right.
Qed.

Lemma cstr_is_NUL_free (l : list ascii) : ~ In NUL (cstr l).
Proof.
  induction l as [|c l IH]; simpl; [tauto|].
  destruct (Ascii.eqb c NUL) eqn:E; simpl; [tauto|].
  intros [H|H]; [|tauto].
  subst c. now rewrite Ascii.eqb_refl in E.
Qed.


Lemma strlen_no_NUL (l : list ascii) :
  ~ In NUL l -> strlen l = Z.of_nat (length l).
Proof. intros H. unfold strlen. now rewrite cstr_no_NUL. Qed.

Lemma uint_digits_no_NUL (d : Decimal.uint) :
  ~ In NUL (chars (DecimalString.NilEmpty.string_of_uint d)).
Proof.
  induction d; simpl; try tauto;
    (intros [H|H]; [discriminate H | tauto]).
Qed.

Lemma decimal_no_NUL (n : Z) : ~ In NUL (decimal n).
Proof.
  unfold decimal, DecimalString.NilZero.string_of_uint.
  destruct (N.to_uint (Z.to_N n)) eqn:E;
    try (rewrite <- E; apply uint_digits_no_NUL).
  simpl. intros [H|H]; [discriminate H | tauto].
Qed.

Lemma sprintf_frame_no_NUL (size : Z) (string : list ascii) :
  ~ In NUL (sprintf_frame size string).
Proof.
  unfold sprintf_frame. rewrite !in_app_iff.
  intros [H|[H|[H|H]]].
  - simpl in H. repeat (destruct H as [H|H]; [discriminate H|]). exact H.
  - now apply decimal_no_NUL in H.
  - simpl in H. repeat (destruct H as [H|H]; [discriminate H|]). exact H.
  - now apply cstr_is_NUL_free in H.
Qed.

Lemma to_int_small (z : Z) : 0 <= z <= INT_MAX -> to_int z = z.
Proof.
  unfold to_int, INT_MAX. intros H.
  rewrite Z.mod_small; lia.
Qed.

(** *** Keyword arguments: the earliest occurrence wins *)

Lemma EQ_Symbol_true (x : Lisp_Object) (name : string) :
  EQ x (Symbol name) = true -> x = Symbol name.
Proof.
  destruct x; simpl; try discriminate.
  intros H. apply String.eqb_eq in H. now subst.
Qed.

(** Effect of one loop iteration on each field of the configuration. *)
Lemma json_parse_arg_fields key value conf pot conf' :
  json_parse_arg key value conf pot = Ret conf' ->
  null_object conf'
    = (if EQ key QCnull_object then value else null_object conf) /\
  false_object conf'
    = (if EQ key QCfalse_object then value else false_object conf) /\
  (if EQ key QCobject_type
   then object_type_of value = Some (object_type conf')
   else object_type conf' = object_type conf) /\
  (if EQ key QCarray_type
   then array_type_of value = Some (array_type conf')
   else array_type conf' = array_type conf).
Proof.
  unfold json_parse_arg, object_type_of, array_type_of.
  destruct pot; simpl.
  - destruct (EQ key QCobject_type) eqn:Ko.
    { apply EQ_Symbol_true in Ko; subst key; simpl.
      destruct (EQ value Qhash_table); [intros [= <-]; simpl; auto |].
      destruct (EQ value Qalist); [intros [= <-]; simpl; auto |].
      destruct (EQ value Qplist); [intros [= <-]; simpl; auto |].
      discriminate. }
    destruct (EQ key QCarray_type) eqn:Ka.
    { apply EQ_Symbol_true in Ka; subst key; simpl.
      destruct (EQ value Qarray); [intros [= <-]; simpl; auto |].
      destruct (EQ value Qlist); [intros [= <-]; simpl; auto |].
      discriminate. }
    destruct (EQ key QCnull_object) eqn:Kn.
    { apply EQ_Symbol_true in Kn; subst key; simpl.
      intros [= <-]; simpl; auto. }
    destruct (EQ key QCfalse_object) eqn:Kf.
    { intros [= <-]; simpl; auto. }
    discriminate.
  - destruct (EQ key QCnull_object) eqn:Kn.
    { apply EQ_Symbol_true in Kn; subst key; simpl.
      intros [= <-]; simpl; auto. }
    destruct (EQ key QCfalse_object) eqn:Kf.
    { apply EQ_Symbol_true in Kf; subst key; simpl.
      intros [= <-]; simpl; auto. }
    discriminate.
Qed.

Section FirstOccurrence.

Variable args : list Lisp_Object.
Variable pot : bool.

(** [settles K P]: a run of the loop over the pairs below [n] leaves
    the field selected by [K] as the earliest [K] pair among them
    asks, and untouched when there is none.  [P conf' v] says that
    the field of [conf'] is the one [v] selects, [Q conf conf'] that
    the field did not move. *)
Variable K : Lisp_Object.
Variable P : json_configuration -> Lisp_Object -> Prop.
Variable Q : json_configuration -> json_configuration -> Prop.
Hypothesis Q_refl : forall c, Q c c.
Hypothesis Q_trans : forall a b c, Q a b -> Q b c -> Q a c.
Hypothesis P_Q : forall a b v, P a v -> Q a b -> P b v.
Hypothesis step :
  forall key value conf conf',
    json_parse_arg key value conf pot = Ret conf' ->
    if EQ key K then P conf' value else Q conf conf'.

Lemma json_parse_args_loop_settles n :
  forall conf conf',
    json_parse_args_loop n args conf pot = Ret conf' ->
    (forall j, (j < n)%nat -> EQ (key_at args j) K = true ->
               (forall j', (j' < j)%nat -> EQ (key_at args j') K = false) ->
               P conf' (value_at args j)) /\
    ((forall j, (j < n)%nat -> EQ (key_at args j) K = false) ->
     Q conf conf').
Proof.
  induction n as [|k IH]; intros conf conf' Hrun.
  - simpl in Hrun. injection Hrun as <-. split; [intros; lia | auto].
  - simpl in Hrun.
    destruct (json_parse_arg (key_at args k) (value_at args k) conf pot)
      as [conf1| |] eqn:Hstep; simpl in Hrun; try discriminate.
    apply step in Hstep.
    destruct (IH _ _ Hrun) as [IHfirst IHabsent].
    split.
    + intros j Hj Hkey Hearlier.
      destruct (Nat.eq_dec j k) as [->|Hne].
      * rewrite Hkey in Hstep.
        apply P_Q with conf1; [exact Hstep|].
        apply IHabsent. intros j' Hj'. now apply Hearlier.
      * apply IHfirst; [lia | assumption | assumption].
    + intros Habs.
      rewrite (Habs k) in Hstep by lia.
      apply Q_trans with conf1; [exact Hstep|].
      apply IHabsent. intros j Hj. apply Habs. lia.
Qed.

End FirstOccurrence.

Lemma even_length_pairs (args : list Lisp_Object) :
  Z.rem (Z.of_nat (length args)) 2 = 0 ->
  forall j, (2 * j + 1 < length args)%nat <->
            (j < Z.to_nat (Z.of_nat (length args) / 2))%nat.
Proof.
  intros Hrem j.
  rewrite Z.rem_mod_nonneg in Hrem by lia.
  pose proof (Z.div_mod (Z.of_nat (length args)) 2 ltac:(lia)).
  lia.
Qed.

(** C10.  [json_parse_args] walks the keyword list from the back, so
    when a keyword is given several times the value of its earliest
    occurrence is the one left in the configuration, for each of
    [:null-object], [:false-object], [:object-type] and [:array-type];
    a keyword that is not given leaves its field alone; and a list of
    odd length is rejected with a [wrong-type-argument plistp]
    signal. *)
Theorem json_parse_args_first_occurrence_wins :
  forall (args : list Lisp_Object) (conf : json_configuration) (pot : bool),
    (Nat.odd (length args) = true ->
     json_parse_args (Z.of_nat (length args)) args conf pot
       = Signal (wrong_type_argument Qplistp (Flist args))) /\
    (forall conf',
        json_parse_args (Z.of_nat (length args)) args conf pot = Ret conf' ->
        (forall j, first_occurrence args QCnull_object j ->
                   null_object conf' = value_at args j) /\
        (forall j, first_occurrence args QCfalse_object j ->
                   false_object conf' = value_at args j) /\
        (forall j, first_occurrence args QCobject_type j ->
                   object_type_of (value_at args j)
                     = Some (object_type conf')) /\
        (forall j, first_occurrence args QCarray_type j ->
                   array_type_of (value_at args j)
                     = Some (array_type conf')) /\
        (absent args QCnull_object -> null_object conf' = null_object conf) /\
        (absent args QCfalse_object ->
         false_object conf' = false_object conf) /\
        (absent args QCobject_type -> object_type conf' = object_type conf) /\
        (absent args QCarray_type -> array_type conf' = array_type conf)).
Proof.
  intros args conf pot. unfold json_parse_args. split.
  - intros Hodd.
    assert (Hrem : Z.rem (Z.of_nat (length args)) 2 <> 0).
    { rewrite Z.rem_mod_nonneg by lia.
      apply Nat.odd_spec in Hodd. destruct Hodd as [m Hm].
      pose proof (Z.div_mod (Z.of_nat (length args)) 2 ltac:(lia)).
      pose proof (Z.mod_pos_bound (Z.of_nat (length args)) 2 ltac:(lia)).
      lia. }
    apply Z.eqb_neq in Hrem. rewrite Hrem. simpl.
    now rewrite Nat2Z.id, firstn_all.
  - intros conf'.
    destruct (Z.rem (Z.of_nat (length args)) 2 =? 0) eqn:Hrem;
      simpl; [|discriminate].
    apply Z.eqb_eq in Hrem. intros Hrun.
    pose proof (even_length_pairs args Hrem) as Hlt.
    assert (Hnull := json_parse_args_loop_settles args pot QCnull_object
              (fun c v => null_object c = v)
              (fun a b => null_object b = null_object a)).
    assert (Hfalse := json_parse_args_loop_settles args pot QCfalse_object
              (fun c v => false_object c = v)
              (fun a b => false_object b = false_object a)).
    assert (Hobj := json_parse_args_loop_settles args pot QCobject_type
              (fun c v => object_type_of v = Some (object_type c))
              (fun a b => object_type b = object_type a)).
    assert (Harr := json_parse_args_loop_settles args pot QCarray_type
              (fun c v => array_type_of v = Some (array_type c))
              (fun a b => array_type b = array_type a)).
    simpl in Hnull, Hfalse, Hobj, Harr.
    destruct (Hnull ltac:(auto) ltac:(intros; congruence)
                    ltac:(intros; congruence)
                    ltac:(intros k v c c' H;
                          apply json_parse_arg_fields in H;
                          destruct H as (H & _);
                          destruct (EQ k QCnull_object); auto)
                    _ _ _ Hrun) as [Hn1 Hn2].
    destruct (Hfalse ltac:(auto) ltac:(intros; congruence)
                     ltac:(intros; congruence)
                     ltac:(intros k v c c' H;
                           apply json_parse_arg_fields in H;
                           destruct H as (_ & H & _);
                           destruct (EQ k QCfalse_object); auto)
                     _ _ _ Hrun) as [Hf1 Hf2].
    destruct (Hobj ltac:(auto) ltac:(intros; congruence)
                   ltac:(intros; congruence)
                   ltac:(intros k v c c' H;
                         apply json_parse_arg_fields in H;
                         destruct H as (_ & _ & H & _);
                         destruct (EQ k QCobject_type); auto)
                   _ _ _ Hrun) as [Ho1 Ho2].
    destruct (Harr ltac:(auto) ltac:(intros; congruence)
                   ltac:(intros; congruence)
                   ltac:(intros k v c c' H;
                         apply json_parse_arg_fields in H;
                         destruct H as (_ & _ & _ & H);
                         destruct (EQ k QCarray_type); auto)
                   _ _ _ Hrun) as [Ha1 Ha2].
    clear Hnull Hfalse Hobj Harr.
    unfold first_occurrence, absent.
    repeat split;
      try (intros j (Hj & Hk & He); apply Hlt in Hj; auto);
      try (intros Habsent).
    + apply Hn2. intros j Hj. apply Habsent. now apply Hlt.
    + apply Hf2. intros j Hj. apply Habsent. now apply Hlt.
    + apply Ho2. intros j Hj. apply Habsent. now apply Hlt.
    + apply Ha2. intros j Hj. apply Habsent. now apply Hlt.
Qed.


Lemma json_parse_args_first_occurrence_wins_witness :
  json_parse_args (Z.of_nat (length twice_null_object)) twice_null_object
                  default_conf true
  = Ret (mk_conf json_object_hashtable json_array_array (Fixnum 1) QCfalse)
  /\ null_object
       (mk_conf json_object_hashtable json_array_array (Fixnum 1) QCfalse)
     = value_at twice_null_object 0.
Proof.
  split; [reflexivity|].
  apply (proj1 (proj2 (json_parse_args_first_occurrence_wins
                         twice_null_object default_conf true)
                      _ eq_refl) 0%nat).
  split; [simpl; lia|].
  split; [reflexivity|].
  intros j' Hj'. lia.
Defined.

(** ** The reference collaborator on the example text *)

Example dump_ping : Reference.dump ping_message = ping_text.
Proof. reflexivity. Qed.

Example loads_ping : Reference.loads ping_text = inl ping_message.
Proof. reflexivity. Qed.

Example loads_empty :
  exists e, Reference.loads [] = inr e
            /\ code e = json_error_premature_end_of_input.
Proof. eexists. split; reflexivity. Qed.


(** ** Send path *)

Section SendPath.

Context {collab : Collaborator}.

Lemma can_use_handle_usable (st : json_rpc_state) (h : SSP_Handle) :
  lock_available st = true ->
  handle st = Some h ->
  can_use_handle st = (Ret true, set_handle_mx st (tl (handle_mx st))).
Proof.
  unfold lock_available, can_use_handle, pthread_mutex_timedlock, bindM.
  intros Hlock Hh.
  destruct (hd Acquired (handle_mx st)); [|discriminate].
  unfold get. simpl. now rewrite Hh.
Qed.

(** The whole of [json_rpc_send_callback] once the handle is
    granted: one [send] of the framed text, and [res] is 0 exactly
    when the handle reports all of it sent. *)
Lemma json_rpc_send_callback_usable
    (st : json_rpc_state) (h : SSP_Handle) (message : json_t)
    (string : list ascii) :
  lock_available st = true ->
  handle st = Some h ->
  json_dumps message = Some string ->
  let msg := sprintf_frame (strlen string) string in
  let n := to_int (strlen msg) in
  let sent := fst (ssp_send h n) in
  let st' :=
    emit (set_handle (set_handle_mx st (tl (handle_mx st)))
                     (Some (snd (ssp_send h n))))
         (Send (cancel_send st) msg n sent) in
  json_rpc_send_callback message st
  = (if sent <=? n then Ret (if sent =? n then 0 else -1)
     else Crash AssertionFailed, st').
Proof.
  intros Hlock Hh Hdumps msg n sent st'.
  unfold json_rpc_send_callback, bindM.
  rewrite (can_use_handle_usable st h Hlock Hh), Hdumps.
  unfold get. cbn [handle set_handle_mx cancel_send].
  rewrite Hh. fold msg. fold n.
  destruct (ssp_send h n) as [bytes_sent h'] eqn:Hsend.
  subst sent st'. cbn [fst snd].
  unfold modify, assert, end_using_handle, bindM, get, ret, crashed,
    pthread_mutex_unlock.
  destruct (bytes_sent <=? n); reflexivity.
Qed.

End SendPath.

Lemma sprintf_frame_exact (string : list ascii) :
  has_NUL string = false ->
  sprintf_frame (strlen string) string = frame string.
Proof.
  intros H. apply has_NUL_false in H.
  unfold sprintf_frame, frame.
  now rewrite (strlen_no_NUL string H), (cstr_no_NUL string H).
Qed.

Lemma strlen_sprintf_frame (size : Z) (string : list ascii) :
  strlen (sprintf_frame size string)
  = Z.of_nat (length (sprintf_frame size string)).
Proof. apply strlen_no_NUL, sprintf_frame_no_NUL. Qed.

(** C1, as the code has it.  When the locking discipline grants the
    handle (the mutex is acquired and the handle is not the closed
    sentinel) and the framed text is no longer than [INT_MAX],
    [json-rpc-send] issues exactly one [send], whose buffer is
    [Content-Length: N], a blank line, and the compact serialization of
    the message, [N] being the number of bytes of that serialization
    and the length passed to [send] the length of the whole buffer.
    For the text [{"id":1,"method":"ping"}] this [N] is 24. *)
Theorem json_rpc_send_issues_one_framed_send :
  (forall (collab : Collaborator) (st : json_rpc_state) (h : SSP_Handle)
          (object : Lisp_Object) (args : list Lisp_Object)
          (conf : json_configuration) (message : json_t)
          (string : list ascii),
      json_parse_args (Z.of_nat (length args)) args default_conf false
        = Ret conf ->
      lisp_to_json object conf = Ret message ->
      json_dumps message = Some string ->
      has_NUL string = false ->
      lock_available st = true ->
      handle st = Some h ->
      Z.of_nat (length (frame string)) <= INT_MAX ->
      log (snd (Fjson_rpc_send object args st))
      = log st
        ++ [Send (cancel_send st) (frame string)
                 (Z.of_nat (length (frame string)))
                 (fst (ssp_send h (Z.of_nat (length (frame string)))))])
  /\ Reference.dump ping_message = ping_text
  /\ frame ping_text = chars "Content-Length: 24" ++ DELIM ++ ping_text.
Proof.
  split; [|split; reflexivity].
  intros collab st h object args conf message string
         Hargs Hjson Hdumps Hnul Hlock Hh Hfit.
  unfold Fjson_rpc_send, bindM, lift.
  rewrite Hargs, Hjson.
  rewrite (json_rpc_send_callback_usable st h message string Hlock Hh Hdumps).
  rewrite strlen_sprintf_frame, (sprintf_frame_exact string Hnul).
  rewrite to_int_small by lia.
  destruct (fst (ssp_send h (Z.of_nat (length (frame string))))
            <=? Z.of_nat (length (frame string))); [|reflexivity].
  destruct (fst (ssp_send h (Z.of_nat (length (frame string))))
            =? Z.of_nat (length (frame string))); reflexivity.
Qed.

Lemma json_rpc_send_issues_one_framed_send_witness :
  log (snd (Fjson_rpc_send ping_object [] fresh_state))
  = log fresh_state
    ++ [Send (cancel_send fresh_state) (frame ping_text)
             (Z.of_nat (length (frame ping_text)))
             (fst (ssp_send idle_handle
                            (Z.of_nat (length (frame ping_text)))))].
Proof.
  apply (proj1 json_rpc_send_issues_one_framed_send
               Reference.collaborator fresh_state idle_handle ping_object []
               default_conf ping_message ping_text);
    try reflexivity.
  vm_compute. discriminate.
Defined.

(** C1 as stated gives N = 26 for the example; the buffer sent for it
    carries 24. *)
Lemma ping_frame_is_24_not_26 :
  sent_buffers (log (snd (Fjson_rpc_send ping_object [] fresh_state)))
  = [chars "Content-Length: 24" ++ DELIM ++ ping_text]
  /\ sent_buffers (log (snd (Fjson_rpc_send ping_object [] fresh_state)))
     <> [chars "Content-Length: 26" ++ DELIM ++ ping_text]
  /\ Z.of_nat (length ping_text) = 24.
Proof.
  split; [reflexivity|]. split; [|reflexivity].
  vm_compute. discriminate.
Qed.

(** A short write of a frame no longer than [INT_MAX]: [send]
    reporting fewer bytes than the framed buffer has makes
    [json-rpc-send] signal [Failed to send message] to its caller; the
    buffer was handed to [send] once and is not offered again, the
    termination flag of the dispatch loop is left as it was and the
    handle stays open. *)
Lemma short_write_within_INT_MAX_fails_json_rpc_send :
  forall (collab : Collaborator) (st : json_rpc_state) (h : SSP_Handle)
         (object : Lisp_Object) (args : list Lisp_Object)
         (conf : json_configuration) (message : json_t)
         (string : list ascii) (bytes_sent : Z) (rest : list Z),
    json_parse_args (Z.of_nat (length args)) args default_conf false
      = Ret conf ->
    lisp_to_json object conf = Ret message ->
    json_dumps message = Some string ->
    lock_available st = true ->
    handle st = Some h ->
    send_results h = bytes_sent :: rest ->
    strlen (sprintf_frame (strlen string) string) <= INT_MAX ->
    bytes_sent < strlen (sprintf_frame (strlen string) string) ->
    exists st',
      Fjson_rpc_send object args st
      = (Signal (Fsignal_error "Failed to send message"), st')
      /\ log st'
         = log st
           ++ [Send (cancel_send st) (sprintf_frame (strlen string) string)
                    (strlen (sprintf_frame (strlen string) string))
                    bytes_sent]
      /\ done st' = done st
      /\ handle st'
         = Some (mk_handle (stdout_pipe h) (stderr_pipe h) (schedule h)
                           (alive h) rest).
Proof.
  intros collab st h object args conf message string bytes_sent rest
         Hargs Hjson Hdumps Hlock Hh Hres Hfits Hshort.
  unfold Fjson_rpc_send, bindM, lift.
  rewrite Hargs, Hjson.
  rewrite (json_rpc_send_callback_usable st h message string Hlock Hh Hdumps).
  rewrite to_int_small by (split; [unfold strlen; lia | exact Hfits]).
  unfold ssp_send. rewrite Hres. cbn [fst snd].
  destruct (bytes_sent <=? strlen (sprintf_frame (strlen string) string))
    eqn:Hle; [|apply Z.leb_gt in Hle; lia].
  destruct (bytes_sent =? strlen (sprintf_frame (strlen string) string))
    eqn:Heq; [apply Z.eqb_eq in Heq; lia|].
  eexists. split; [reflexivity|].
  cbn [log handle done set_handle set_handle_mx emit]. auto.
Qed.

Lemma short_write_within_INT_MAX_fails_json_rpc_send_witness :
  exists st',
    Fjson_rpc_send ping_object []
                   (Fjson_rpc_connection (mk_handle [] [] [] true [10]) 1
                                         (fun _ => NUL))
    = (Signal (Fsignal_error "Failed to send message"), st')
    /\ log st'
       = [] ++ [Send false (sprintf_frame (strlen ping_text) ping_text)
                     (strlen (sprintf_frame (strlen ping_text) ping_text))
                     10]
    /\ done st' = false
    /\ handle st' = Some (mk_handle [] [] [] true []).
Proof.
  apply (short_write_within_INT_MAX_fails_json_rpc_send
           Reference.collaborator
           (Fjson_rpc_connection (mk_handle [] [] [] true [10]) 1
                                 (fun _ => NUL))
           (mk_handle [] [] [] true [10]) ping_object []
           default_conf ping_message ping_text 10 []);
    try reflexivity; vm_compute; try reflexivity; intros H; discriminate H.
Defined.

(** ** Frames longer than [INT_MAX] *)

Lemma escape_letters (n : nat) :
  flat_map Reference.escape_char (repeat "a"%char n) = repeat "a"%char n.
Proof.
  induction n as [|n IH]; [reflexivity|].
  cbn [repeat flat_map]. rewrite IH. reflexivity.
Qed.

Lemma quoted_letters_no_NUL (n : nat) :
  ~ In NUL (DQUOTE :: repeat "a"%char n ++ [DQUOTE]).
Proof.
  intros [H|H]; [discriminate H|].
  apply in_app_or in H. destruct H as [H|[H|[]]]; [|discriminate H].
  apply repeat_spec in H. discriminate H.
Qed.

(** [json-rpc-send] on a string of 2^32 - 2 letters: the frame has
    2^32 + 30 bytes, [bytes_to_send] is 30, and a [send] that reports
    30 makes the call return nil. *)
Lemma Fjson_rpc_send_wraps (n : nat) (st : json_rpc_state)
    (h : SSP_Handle) (rest : list Z) :
  Z.of_nat n = 2 ^ 32 - 2 ->
  lock_available st = true ->
  handle st = Some h ->
  send_results h = 30 :: rest ->
  strlen (sprintf_frame
            (strlen (DQUOTE :: repeat "a"%char n ++ [DQUOTE]))
            (DQUOTE :: repeat "a"%char n ++ [DQUOTE]))
  = 2 ^ 32 + 30
  /\ exists st',
      Fjson_rpc_send (LString (repeat "a"%char n)) [] st = (Ret Qnil, st')
      /\ log st'
         = log st
           ++ [Send (cancel_send st)
                    (sprintf_frame
                       (2 ^ 32) (DQUOTE :: repeat "a"%char n ++ [DQUOTE]))
                    30 30].
Proof.
  intros Hn Hlock Hh Hres.
  set (text := DQUOTE :: repeat "a"%char n ++ [DQUOTE]).
  assert (Htext : strlen text = 2 ^ 32).
  { rewrite strlen_no_NUL by apply quoted_letters_no_NUL.
    subst text. cbn [length]. rewrite length_app, repeat_length.
    cbn [length]. lia. }
  assert (Hdigits : Z.of_nat (length (decimal (2 ^ 32))) = 10)
    by (vm_compute; reflexivity).
  assert (Hframe : strlen (sprintf_frame (strlen text) text) = 2 ^ 32 + 30).
  { rewrite strlen_sprintf_frame, Htext. unfold sprintf_frame.
    rewrite !length_app, !Nat2Z.inj_add, Hdigits.
    fold (strlen text). rewrite Htext. vm_compute. reflexivity. }
  split; [exact Hframe|].
  assert (Hargs : json_parse_args (Z.of_nat (length (@nil Lisp_Object))) []
                                  default_conf false
                  = Ret default_conf) by reflexivity.
  assert (Hjson : lisp_to_json (LString (repeat "a"%char n)) default_conf
                  = Ret (JSON_STRING (repeat "a"%char n))) by reflexivity.
  assert (Hdumps : json_dumps (JSON_STRING (repeat "a"%char n)) = Some text).
  { cbn [json_dumps Reference.collaborator Reference.dump].
    unfold Reference.dump_string. now rewrite escape_letters. }
  unfold Fjson_rpc_send, bindM, lift.
  rewrite Hargs, Hjson.
  rewrite (json_rpc_send_callback_usable st h _ text Hlock Hh Hdumps).
  rewrite Hframe, Htext.
  change (to_int (2 ^ 32 + 30)) with 30.
  unfold ssp_send. rewrite Hres. cbn [fst snd].
  change (30 <=? 30) with true. change (30 =? 30) with true.
  cbv iota. change (0 <? 0) with false. cbv iota.
  eexists. split; [reflexivity|].
  cbn [log set_handle set_handle_mx emit]. reflexivity.
Qed.

(** C7.  The send of a string of 2^32 - 2 letters on an open
    connection: the framed buffer has 2^32 + 30 bytes, [send] is asked
    for 30 of them and reports 30, and [json-rpc-send] returns nil to
    its caller as if the message had gone through. *)
Theorem long_frame_hides_a_short_write :
  strlen (sprintf_frame (strlen long_text) long_text) = 2 ^ 32 + 30
  /\ exists st',
      Fjson_rpc_send (LString long_string) [] wrapping_state
      = (Ret Qnil, st')
      /\ log st'
         = log wrapping_state
           ++ [Send (cancel_send wrapping_state)
                    (sprintf_frame (2 ^ 32) long_text) 30 30].
Proof.
  apply (Fjson_rpc_send_wraps (Z.to_nat (2 ^ 32 - 2)) wrapping_state
                              wrapping_handle []).
  - apply Z2Nat.id. lia.
  - reflexivity.
  - reflexivity.
  - reflexivity.
Qed.

(** ** Diagnostic buffer *)

Lemma find_NUL_first (fuel : nat) :
  forall (buf : Z -> ascii) (from stop : Z),
    from <= stop ->
    (Z.to_nat (stop - from) < fuel)%nat ->
    (forall i, from <= i < stop -> buf i <> NUL) ->
    buf stop = NUL ->
    find_NUL fuel buf from = Some stop.
Proof.
  induction fuel as [|fuel IH]; intros buf from stop Hle Hfuel Hbefore Hstop;
    [lia|].
  cbn [find_NUL]. destruct (Ascii.eqb (buf from) NUL) eqn:E.
  - apply Ascii.eqb_eq in E.
    destruct (Z.eq_dec from stop) as [->|Hne]; [reflexivity|].
    exfalso. apply (Hbefore from); [lia | assumption].
  - assert (from <> stop).
    { intros ->. rewrite Hstop, Ascii.eqb_refl in E. discriminate. }
    apply IH; try assumption; try lia.
    intros i Hi. apply Hbefore. lia.
Qed.

Lemma ERROR_BUFFER_SIZE_value : ERROR_BUFFER_SIZE = 4194304.
Proof. reflexivity. Qed.

Lemma ERROR_BUFFER_SIZE_half : ERROR_BUFFER_SIZE / 2 = 2097152.
Proof. reflexivity. Qed.

(** The fill level stays below the capacity across one capture, as long
    as [recv] stored no more than the room it was given. *)
Lemma capture_stderr_keeps_fill_below_capacity
    (bytes : list ascii) (st : json_rpc_state) :
  buffer_wf st ->
  Z.of_nat (length bytes) <= ERROR_BUFFER_SIZE - error_buffer_read st ->
  buffer_wf (snd (capture_stderr bytes st)).
Proof.
  unfold buffer_wf, capture_stderr. intros Hwf Hroom.
  pose proof ERROR_BUFFER_SIZE_value as Hsize.
  pose proof ERROR_BUFFER_SIZE_half as Hhalf.
  destruct (Z.of_nat (length bytes) =? 0) eqn:Hzero; [assumption|].
  rewrite to_int_small by (unfold INT_MAX; lia).
  destruct (error_buffer_read st + Z.of_nat (length bytes)
            =? ERROR_BUFFER_SIZE) eqn:Hfull.
  - destruct (strcpy_down _ _ _); simpl; lia.
  - apply Z.eqb_neq in Hfull. simpl. lia.
Qed.

Lemma ssp_recv_stderr_fits (h : SSP_Handle) (size stderr_size : Z) :
  0 <= stderr_size ->
  Z.of_nat (length (r_stderr (fst (ssp_recv h size stderr_size))))
  <= stderr_size.
Proof.
  intros Hpos. unfold ssp_recv.
  destruct (schedule h) as [|e rest]; simpl; [lia|].
  rewrite length_firstn. lia.
Qed.

Lemma to_size_t_small (z : Z) : 0 <= z < 2 ^ 64 -> to_size_t z = z.
Proof. intros H. unfold to_size_t. now apply Z.mod_small. Qed.

(** The bound of C6: whatever the child writes on its diagnostic
    stream, the fill level is below the 4 MiB capacity after every
    [read_stdout]. *)
Lemma read_stdout_loop_keeps_fill_below_capacity (fuel : nat) :
  forall (size : Z) (st : json_rpc_state),
    buffer_wf st -> buffer_wf (snd (read_stdout_loop fuel size st)).
Proof.
  induction fuel as [|fuel IH]; intros size st Hwf; cbn [read_stdout_loop];
    (destruct (handle st) as [h|]; [|assumption]);
    (destruct (ssp_recv h size
                 (to_size_t (ERROR_BUFFER_SIZE - error_buffer_read st)))
       as [r h'] eqn:Hrecv);
    unfold bindM;
    (assert (Hcap : buffer_wf
               (snd (capture_stderr (r_stderr r) (set_handle st (Some h')))));
     [ apply capture_stderr_keeps_fill_below_capacity; [exact Hwf|];
       cbn [set_handle error_buffer_read];
       pose proof ERROR_BUFFER_SIZE_value as Hsize; unfold buffer_wf in Hwf;
       pose proof (ssp_recv_stderr_fits h size
                     (to_size_t (ERROR_BUFFER_SIZE - error_buffer_read st)))
         as Hfit;
       rewrite Hrecv in Hfit; cbn [fst] in Hfit;
       rewrite to_size_t_small in Hfit by lia; apply Hfit; lia
     | ]);
    (destruct (capture_stderr (r_stderr r) (set_handle st (Some h')))
       as [[[]| |] st1]; cbn [snd] in Hcap; try exact Hcap);
    (destruct (negb (is_empty (r_stdout r))); [exact Hcap|]);
    (destruct ((0 <? to_size_t (r_res r)) || ssp_isalive h');
     [|exact Hcap]).
  - exact Hcap.
  - now apply IH.
Qed.

(** C6, the overflow event as the code performs it.  When a capture
    fills the buffer to its capacity, the fill level goes back to the
    midpoint and [strcpy] moves the upper half down, but only as far as
    the first NUL byte at or after the midpoint, at index [p]: the
    bytes before it are moved, a NUL is stored after them, and every
    later position of the lower half keeps the byte it had, which
    belongs to the older half and not to the most recently written
    one.  Only when that first NUL is the element past the capacity
    ([p = ERROR_BUFFER_SIZE]) is the whole upper half retained. *)
Theorem diagnostic_overflow_copy_stops_at_NUL :
  forall (st : json_rpc_state) (bytes : list ascii) (p : Z),
    0 <= error_buffer_read st ->
    bytes <> [] ->
    error_buffer_read st + Z.of_nat (length bytes) = ERROR_BUFFER_SIZE ->
    ERROR_BUFFER_SIZE / 2 <= p <= ERROR_BUFFER_SIZE ->
    write_bytes (error_buffer st) (error_buffer_read st) bytes p = NUL ->
    (forall i, ERROR_BUFFER_SIZE / 2 <= i < p ->
               write_bytes (error_buffer st) (error_buffer_read st) bytes i
               <> NUL) ->
    exists st',
      capture_stderr bytes st = (Ret tt, st')
      /\ error_buffer_read st' = ERROR_BUFFER_SIZE / 2
      /\ (forall j, 0 <= j < p - ERROR_BUFFER_SIZE / 2 ->
                    error_buffer st' j
                    = write_bytes (error_buffer st) (error_buffer_read st)
                                  bytes (ERROR_BUFFER_SIZE / 2 + j))
      /\ error_buffer st' (p - ERROR_BUFFER_SIZE / 2) = NUL
      /\ (forall j, p - ERROR_BUFFER_SIZE / 2 < j < ERROR_BUFFER_SIZE / 2 ->
                    error_buffer st' j
                    = write_bytes (error_buffer st) (error_buffer_read st)
                                  bytes j).
Proof.
  intros st bytes p Hread Hne Hfull Hp Hnul Hfirst.
  pose proof ERROR_BUFFER_SIZE_value as Hsize.
  pose proof ERROR_BUFFER_SIZE_half as Hhalf.
  unfold capture_stderr.
  assert (Hlen : (Z.of_nat (length bytes) =? 0) = false).
  { apply Z.eqb_neq. destruct bytes; [congruence | simpl; lia]. }
  rewrite Hlen, Hfull.
  rewrite to_int_small by (unfold INT_MAX; lia).
  rewrite Z.eqb_refl.
  unfold strcpy_down.
  rewrite (find_NUL_first _ _ _ p); try assumption; try lia.
  eexists. split; [reflexivity|].
  cbn [set_error_buffer error_buffer_read error_buffer].
  split; [reflexivity|].
  split; [|split].
  - intros j Hj.
    destruct ((0 <=? j) && (j <=? p - ERROR_BUFFER_SIZE / 2)) eqn:E;
      [reflexivity|].
    apply Bool.andb_false_iff in E.
    destruct E as [E|E]; [apply Z.leb_gt in E | apply Z.leb_gt in E]; lia.
  - destruct ((0 <=? p - ERROR_BUFFER_SIZE / 2)
              && (p - ERROR_BUFFER_SIZE / 2 <=? p - ERROR_BUFFER_SIZE / 2))
      eqn:E.
    + replace (ERROR_BUFFER_SIZE / 2 + (p - ERROR_BUFFER_SIZE / 2)) with p
        by lia.
      exact Hnul.
    + apply Bool.andb_false_iff in E.
      destruct E as [E|E]; apply Z.leb_gt in E; lia.
  - intros j Hj.
    destruct ((0 <=? j) && (j <=? p - ERROR_BUFFER_SIZE / 2)) eqn:E;
      [|reflexivity].
    apply Bool.andb_true_iff in E. destruct E as [_ E].
    apply Z.leb_le in E. lia.
Qed.

Lemma diagnostic_overflow_copy_stops_at_NUL_witness :
  exists st',
    capture_stderr ["b"%char] brim_state = (Ret tt, st')
    /\ error_buffer_read st' = ERROR_BUFFER_SIZE / 2
    /\ (forall j, 0 <= j < ERROR_BUFFER_SIZE / 2 - ERROR_BUFFER_SIZE / 2 ->
                  error_buffer st' j
                  = write_bytes (error_buffer brim_state)
                                (error_buffer_read brim_state)
                                ["b"%char] (ERROR_BUFFER_SIZE / 2 + j))
    /\ error_buffer st' (ERROR_BUFFER_SIZE / 2 - ERROR_BUFFER_SIZE / 2) = NUL
    /\ (forall j, ERROR_BUFFER_SIZE / 2 - ERROR_BUFFER_SIZE / 2 < j
                  < ERROR_BUFFER_SIZE / 2 ->
                  error_buffer st' j
                  = write_bytes (error_buffer brim_state)
                                (error_buffer_read brim_state)
                                ["b"%char] j).
Proof.
  apply (diagnostic_overflow_copy_stops_at_NUL
           brim_state ["b"%char] (ERROR_BUFFER_SIZE / 2)).
  - vm_compute. discriminate.
  - discriminate.
  - reflexivity.
  - vm_compute. split; discriminate.
  - reflexivity.
  - intros i Hi. lia.
Defined.

(** On that connection the byte after the NUL of the retained half is
    an [a] of the older half; the most recently written half has a [b]
    there. *)
Example brim_overflow_keeps_an_old_byte :
  fst (capture_stderr ["b"%char] brim_state) = Ret tt
  /\ error_buffer_read (snd (capture_stderr ["b"%char] brim_state))
     = ERROR_BUFFER_SIZE / 2
  /\ error_buffer (snd (capture_stderr ["b"%char] brim_state)) 1 = "a"%char
  /\ write_bytes (error_buffer brim_state) (error_buffer_read brim_state)
                 ["b"%char] (ERROR_BUFFER_SIZE / 2 + 1) = "b"%char.
Proof. vm_compute. repeat split. Qed.

(** Projections of an updated state. *)
Tactic Notation "fields" :=
  cbn [log handle_mx cancel_send handle done message error pid error_buffer
       error_buffer_read set_handle set_handle_mx set_message set_error
       set_done set_cancel_send set_error_buffer emit is_some].
Tactic Notation "fields" "in" hyp(H) :=
  cbn [log handle_mx cancel_send handle done message error pid error_buffer
       error_buffer_read set_handle set_handle_mx set_message set_error
       set_done set_cancel_send set_error_buffer emit is_some] in H.

(** ** What a computation leaves alone *)

Section Keeps.

Variable R : json_rpc_state -> json_rpc_state -> Prop.
Hypothesis R_refl : forall s, R s s.
Hypothesis R_trans : forall a b c, R a b -> R b c -> R a c.

(** [keeps m]: whatever the outcome of [m], the state it ends in is
    related to the one it started from. *)
Definition keeps {A} (m : M A) : Prop := forall s, R s (snd (m s)).

Lemma keeps_ret {A} (a : A) : keeps (ret a).
Proof. intros s. apply R_refl. Qed.

Lemma keeps_throw {A} (e : lisp_error) : keeps (@throw A e).
Proof. intros s. apply R_refl. Qed.

Lemma keeps_crashed {A} (c : crash) : keeps (@crashed A c).
Proof. intros s. apply R_refl. Qed.

Lemma keeps_lift {A} (r : result A) : keeps (lift r).
Proof. intros s. apply R_refl. Qed.

Lemma keeps_get {A} (f : json_rpc_state -> A) : keeps (get f).
Proof. intros s. apply R_refl. Qed.

Lemma keeps_assert (b : bool) : keeps (assert b).
Proof. destruct b; [apply keeps_ret | apply keeps_crashed]. Qed.

Lemma keeps_modify (f : json_rpc_state -> json_rpc_state) :
  (forall s, R s (f s)) -> keeps (modify f).
Proof. intros H s. apply H. Qed.

Lemma keeps_bind {A B} (m : M A) (k : A -> M B) :
  keeps m -> (forall a, keeps (k a)) -> keeps (bindM m k).
Proof.
  intros Hm Hk s. unfold bindM.
  specialize (Hm s). destruct (m s) as [[a|e|c] s1]; cbn [snd] in *;
    try exact Hm.
  apply R_trans with s1; [exact Hm | apply Hk].
Qed.

End Keeps.

(** Peels the monadic structure of a goal [keeps R m]. *)
Ltac keeps_with Rrefl Rtrans :=
  repeat first
    [ apply (keeps_ret _ Rrefl)
    | apply (keeps_throw _ Rrefl)
    | apply (keeps_crashed _ Rrefl)
    | apply (keeps_lift _ Rrefl)
    | apply (keeps_get _ Rrefl)
    | apply (keeps_assert _ Rrefl)
    | apply (keeps_bind _ Rtrans); [|intros ?] ].

Create HintDb keeps.

#[local] Hint Resolve keeps_ret keeps_throw keeps_crashed keeps_lift
  keeps_get keeps_assert keeps_bind keeps_modify : keeps.

Lemma reads_refl (s : json_rpc_state) : reads s s.
Proof. unfold reads. auto. Qed.

Lemma reads_trans (a b c : json_rpc_state) :
  reads a b -> reads b c -> reads a c.
Proof. unfold reads. intuition congruence. Qed.

Lemma delivers_refl (s : json_rpc_state) : delivers s s.
Proof.
  unfold delivers. split; [|auto].
  exists []. now rewrite app_nil_r.
Qed.

Lemma delivers_trans (a b c : json_rpc_state) :
  delivers a b -> delivers b c -> delivers a c.
Proof.
  unfold delivers.
  intros [(d1 & H1 & F1) (M1 & S1)] [(d2 & H2 & F2) (M2 & S2)].
  split; [|split; congruence].
  exists (d1 ++ d2). split.
  - now rewrite H2, H1, app_assoc.
  - apply Forall_app. now split.
Qed.

Lemma reads_delivers (a b : json_rpc_state) : reads a b -> delivers a b.
Proof.
  unfold reads, delivers. intros (L & Mx & _ & S).
  split; [|auto]. exists []. now rewrite app_nil_r.
Qed.

#[local] Hint Resolve reads_refl reads_trans delivers_refl delivers_trans
  : keeps.

(** ** The framed reader leaves the log and the mutex alone *)

Lemma receives_refl (s : json_rpc_state) : receives s s.
Proof. unfold receives, reads. auto 10. Qed.

Lemma receives_trans (a b c : json_rpc_state) :
  receives a b -> receives b c -> receives a c.
Proof. unfold receives, reads. intuition congruence. Qed.

Lemma keeps_weaken {A} (R R' : json_rpc_state -> json_rpc_state -> Prop)
    (m : M A) :
  (forall a b, R a b -> R' a b) -> keeps R m -> keeps R' m.
Proof. intros H Hm s. apply H, Hm. Qed.

#[local] Hint Resolve receives_refl receives_trans : keeps.

Lemma capture_stderr_receives (bytes : list ascii) :
  keeps receives (capture_stderr bytes).
Proof.
  intros s. unfold capture_stderr.
  destruct (Z.of_nat (length bytes) =? 0); [apply receives_refl|].
  destruct (_ =? ERROR_BUFFER_SIZE).
  - destruct (strcpy_down _ _ _); unfold receives, reads; fields; auto 10.
  - unfold receives, reads; fields; auto 10.
Qed.

Lemma read_stdout_loop_receives (fuel : nat) :
  forall size, keeps receives (read_stdout_loop fuel size).
Proof.
  induction fuel as [|fuel IH]; intros size s; cbn [read_stdout_loop].
  - destruct (handle s) as [h|] eqn:Hh; [|apply receives_refl].
    destruct (ssp_recv h size _) as [r h'].
    apply receives_trans with (set_handle s (Some h')).
    { unfold receives, reads; fields; rewrite Hh; auto 10. }
    apply (keeps_bind receives receives_trans).
    + apply capture_stderr_receives.
    + intros _.
      destruct (negb (is_empty (r_stdout r))); [auto with keeps|].
      destruct ((0 <? to_size_t (r_res r)) || ssp_isalive h');
        auto with keeps.
  - destruct (handle s) as [h|] eqn:Hh; [|apply receives_refl].
    destruct (ssp_recv h size _) as [r h'].
    apply receives_trans with (set_handle s (Some h')).
    { unfold receives, reads; fields; rewrite Hh; auto 10. }
    apply (keeps_bind receives receives_trans).
    + apply capture_stderr_receives.
    + intros _.
      destruct (negb (is_empty (r_stdout r))); [auto with keeps|].
      destruct ((0 <? to_size_t (r_res r)) || ssp_isalive h');
        auto with keeps.
Qed.

Lemma read_stdout_receives (size : Z) : keeps receives (read_stdout size).
Proof.
  intros s. unfold read_stdout.
  destruct (handle s);
    [apply read_stdout_loop_receives | apply receives_refl].
Qed.

Lemma read_until_loop_receives (room : nat) :
  forall needle output, keeps receives (read_until_loop room needle output).
Proof.
  induction room as [|room IH]; intros needle output;
    cbn [read_until_loop];
    (destruct (negb (terminated output));
     [apply (keeps_crashed _ receives_refl)|]);
    (destruct (strstr (cstr output) needle);
     [apply (keeps_ret _ receives_refl)|]);
    (apply (keeps_bind _ receives_trans); [apply read_stdout_receives|]);
    intros bytes; destruct (is_empty bytes);
    keeps_with receives_refl receives_trans.
  apply IH.
Qed.

Lemma read_until_receives (needle : list ascii) :
  keeps receives (read_until needle).
Proof. apply read_until_loop_receives. Qed.

Lemma receives_reads (a b : json_rpc_state) : receives a b -> reads a b.
Proof. now intros [H _]. Qed.

Lemma read_stdout_reads (size : Z) : keeps reads (read_stdout size).
Proof.
  apply keeps_weaken with receives;
    [exact receives_reads | apply read_stdout_receives].
Qed.

Lemma read_until_loop_reads (room : nat) (needle output : list ascii) :
  keeps reads (read_until_loop room needle output).
Proof.
  apply keeps_weaken with receives;
    [exact receives_reads | apply read_until_loop_receives].
Qed.

Lemma set_done_reads (s : json_rpc_state) (b : bool) : reads s (set_done s b).
Proof. unfold reads. fields. auto. Qed.

Lemma read_payload_reads_but_done (fuel : nat) :
  forall allocated msg has_to_read,
    keeps reads (read_payload fuel allocated msg has_to_read).
Proof.
  induction fuel as [|fuel IH]; intros allocated msg has_to_read;
    cbn [read_payload];
    (destruct (0 <? has_to_read); [|apply (keeps_ret _ reads_refl)]);
    (apply (keeps_bind _ reads_trans); [apply read_stdout_reads|]);
    intros bytes;
    (destruct (negb (is_empty bytes) && negb allocated);
     [apply (keeps_crashed _ reads_refl)|]);
    (destruct (to_int (Z.of_nat (length bytes)) =? 0);
     [apply (keeps_bind _ reads_trans);
      [apply keeps_modify; intros s; apply set_done_reads
      |intros _; apply (keeps_ret _ reads_refl)]
     |]).
  - apply (keeps_ret _ reads_refl).
  - apply IH.
Qed.

Section DispatchLoop.

Context {collab : Collaborator}.

Lemma json_rpc_callback_reads : keeps reads json_rpc_callback.
Proof.
  unfold json_rpc_callback, read_until.
  apply (keeps_bind _ reads_trans); [apply read_until_loop_reads|].
  intros marker. destruct (fst marker).
  - apply (keeps_bind _ reads_trans); [apply read_until_loop_reads|].
    intros header. destruct (fst header).
    + apply (keeps_bind _ reads_trans); [apply (keeps_get _ reads_refl)|].
      intros fuel.
      apply (keeps_bind _ reads_trans);
        [apply read_payload_reads_but_done|].
      intros msg.
      apply (keeps_bind _ reads_trans); [apply (keeps_get _ reads_refl)|].
      intros d.
      destruct (negb d); [|apply (keeps_ret _ reads_refl)].
      destruct (json_loads (cstr msg)); apply keeps_modify;
        intros s; unfold reads; fields; auto.
    + apply keeps_modify; intros s; apply set_done_reads.
  - apply keeps_modify; intros s; apply set_done_reads.
Qed.

Lemma Ffuncall_running_delivers (callback : lisp_function)
    (msg err : Lisp_Object) :
  keeps delivers (Ffuncall callback msg err Qnil).
Proof.
  unfold Ffuncall.
  apply (keeps_bind _ delivers_trans).
  - apply keeps_modify. intros s. unfold delivers. fields.
    split; [|auto]. eexists. split; [reflexivity|].
    constructor; [|constructor]. now exists msg, err.
  - intros _. keeps_with delivers_refl delivers_trans.
Qed.

Lemma Fjson_rpc_loop_delivers (fuel : nat) :
  forall callback conf, keeps delivers (Fjson_rpc_loop fuel callback conf).
Proof.
  induction fuel as [|fuel IH]; intros callback conf;
    cbn [Fjson_rpc_loop]; [apply (keeps_ret _ delivers_refl)|].
  apply (keeps_bind _ delivers_trans); [apply (keeps_get _ delivers_refl)|].
  intros d. destruct d; [apply (keeps_ret _ delivers_refl)|].
  apply (keeps_bind _ delivers_trans); [apply (keeps_get _ delivers_refl)|].
  intros [h|]; [|apply (keeps_crashed _ delivers_refl)].
  destruct (ssp_isalive h); [|apply (keeps_ret _ delivers_refl)].
  apply (keeps_bind _ delivers_trans).
  { intros s. apply reads_delivers, json_rpc_callback_reads. }
  intros _.
  apply (keeps_bind _ delivers_trans); [apply (keeps_get _ delivers_refl)|].
  intros d'. apply (keeps_bind _ delivers_trans); [|intros _; apply IH].
  destruct (negb d'); [|apply (keeps_ret _ delivers_refl)].
  apply (keeps_bind _ delivers_trans); [apply (keeps_get _ delivers_refl)|].
  intros [value|].
  - apply (keeps_bind _ delivers_trans);
      [apply (keeps_lift _ delivers_refl)|].
    intros msg.
    apply (keeps_bind _ delivers_trans).
    + apply keeps_modify. intros s. apply reads_delivers.
      unfold reads; fields; auto.
    + intros _. apply Ffuncall_running_delivers.
  - apply (keeps_bind _ delivers_trans);
      [apply (keeps_get _ delivers_refl)|].
    intros e. apply Ffuncall_running_delivers.
Qed.

End DispatchLoop.

Section Closing.

Context {collab : Collaborator}.

(** A run of [json-rpc] that returns: handler calls of the running
    loop, the end of session, and then the handle is closed and
    cleared if the mutex could be taken, left as it is otherwise. *)
Lemma Fjson_rpc_returns (callback : lisp_function)
    (args : list Lisp_Object) (st st' : json_rpc_state) (v : Lisp_Object) :
  Fjson_rpc callback args st = (Ret v, st') ->
  exists ds,
    Forall running_delivery ds
    /\ if lock_available st
       then log st' = log st ++ ds ++ [end_of_session; Close]
            /\ handle st' = None
            /\ is_some (handle st) = true
       else log st' = log st ++ ds ++ [end_of_session]
            /\ is_some (handle st') = is_some (handle st).
Proof.
  unfold Fjson_rpc, bindM, lift.
  destruct (json_parse_args _ args default_conf true) as [conf| |];
    try discriminate.
  unfold get at 1.
  pose proof (Fjson_rpc_loop_delivers (schedule_length st + 2)
                                      callback conf st) as Hloop.
  destruct (Fjson_rpc_loop (schedule_length st + 2) callback conf st)
    as [[[]| |] s1]; try discriminate.
  cbn [snd] in Hloop.
  destruct Hloop as [(ds & Hlog & Hds) (Hmx & Hsome)].
  unfold Ffuncall, bindM, modify, lift, ret.
  destruct (callback Qnil Qnil Qt); try discriminate.
  unfold pthread_mutex_timedlock, lock_available.
  fields. rewrite Hmx.
  destruct (hd Acquired (handle_mx st)).
  - unfold get. fields.
    destruct (handle s1) eqn:Hs1; try discriminate.
    unfold pthread_mutex_unlock, ret.
    intros H. injection H as _ <-.
    exists ds. split; [exact Hds|]. fields.
    rewrite Hlog, <- !app_assoc. now rewrite <- Hsome.
  - intros H. injection H as _ <-.
    exists ds. split; [exact Hds|]. fields.
    rewrite Hlog, <- !app_assoc. auto.
Qed.

End Closing.

Lemma running_delivery_not_end_of_session (e : effect) :
  running_delivery e -> e <> end_of_session.
Proof. intros (msg & err & ->). discriminate. Qed.

(** C4 on a connection whose mutex is held elsewhere when the loop
    ends: [json-rpc] delivers the end of session and returns without
    closing the handle and without trying again, although the mutex is
    free right after; the handle is still there when the finaliser
    runs, whose assertion then fails. *)
Theorem dispatch_loop_abandons_handle_on_lock_timeout :
  fst (Fjson_rpc quiet_handler [] contended_state) = Ret Qnil
  /\ log (snd (Fjson_rpc quiet_handler [] contended_state))
     = [end_of_session]
  /\ handle (snd (Fjson_rpc quiet_handler [] contended_state))
     = handle contended_state
  /\ lock_available (snd (Fjson_rpc quiet_handler [] contended_state)) = true
  /\ fst (json_rpc_state_free
            (snd (Fjson_rpc quiet_handler [] contended_state)))
     = Crash AssertionFailed.
Proof. vm_compute. repeat split. Qed.

(** ** Who closes the handle *)

Section Shutdown.

Context {collab : Collaborator}.

Lemma Fjson_rpc_shutdown_open (st : json_rpc_state) (h : SSP_Handle) :
  handle st = Some h ->
  Fjson_rpc_shutdown st
  = (Ret Qnil,
     if lock_available st
     then emit (set_handle_mx (set_cancel_send st true)
                              (tl (handle_mx st))) CancelRecv
     else set_handle_mx (set_cancel_send st true) (tl (handle_mx st))).
Proof.
  destruct st as [mx hd msg er dn pd cs eb ebr lg].
  cbn [handle]. intros ->.
  unfold lock_available. cbn [handle_mx].
  destruct mx as [|[] mx]; reflexivity.
Qed.

Lemma Fjson_rpc_shutdown_never_closes (st : json_rpc_state) :
  handle (snd (Fjson_rpc_shutdown st)) = handle st
  /\ exists l, log (snd (Fjson_rpc_shutdown st)) = log st ++ l
               /\ ~ In Close l.
Proof.
  destruct (handle st) as [h|] eqn:Hh.
  - rewrite (Fjson_rpc_shutdown_open st h Hh). cbn [snd].
    destruct (lock_available st); fields; rewrite ?Hh.
    + split; [reflexivity|]. exists [CancelRecv]. split; [reflexivity|].
      intros [H|[]]. discriminate H.
    + split; [reflexivity|]. exists []. rewrite app_nil_r. auto.
  - destruct st as [mx hd msg er dn pd cs eb ebr lg].
    cbn [handle] in Hh. subst hd.
    destruct mx as [|[] mx]; cbn; (split; [reflexivity|]);
      exists []; rewrite app_nil_r; auto.
Qed.

End Shutdown.


(** C5, as the code has it.  [json-rpc-shutdown] never closes the
    handle nor clears it, whatever its outcome: it raises the
    send-cancellation flag and cancels the pending receive when it is
    granted the handle.  Called twice on an open connection it returns
    twice, and the handle is still open.  The handle is closed and
    cleared by [json-rpc] alone, once, right after the end-of-session
    delivery and when the mutex could be taken; when it could not, the
    handle is left open. *)
Theorem handle_is_closed_by_the_dispatch_loop_only :
  forall (collab : Collaborator),
    (forall st,
        handle (snd (Fjson_rpc_shutdown st)) = handle st
        /\ exists l, log (snd (Fjson_rpc_shutdown st)) = log st ++ l
                     /\ ~ In Close l)
    /\ (forall st h,
           handle st = Some h ->
           exists st1 st2,
             Fjson_rpc_shutdown st = (Ret Qnil, st1)
             /\ Fjson_rpc_shutdown st1 = (Ret Qnil, st2)
             /\ handle st2 = Some h)
    /\ (forall callback args st st' v,
           Fjson_rpc callback args st = (Ret v, st') ->
           exists ds,
             Forall running_delivery ds
             /\ if lock_available st
                then log st' = log st ++ ds ++ [end_of_session; Close]
                     /\ handle st' = None
                else log st' = log st ++ ds ++ [end_of_session]
                     /\ is_some (handle st') = is_some (handle st)).
Proof.
  intros collab. split; [|split].
  - apply Fjson_rpc_shutdown_never_closes.
  - intros st h Hh.
    assert (H1 : handle (snd (Fjson_rpc_shutdown st)) = Some h).
    { rewrite <- Hh. apply Fjson_rpc_shutdown_never_closes. }
    assert (H2 : handle (snd (Fjson_rpc_shutdown
                                (snd (Fjson_rpc_shutdown st)))) = Some h).
    { rewrite <- H1. apply Fjson_rpc_shutdown_never_closes. }
    exists (snd (Fjson_rpc_shutdown st)),
           (snd (Fjson_rpc_shutdown (snd (Fjson_rpc_shutdown st)))).
    split; [|split; [|exact H2]].
    + now rewrite (Fjson_rpc_shutdown_open st h Hh).
    + now rewrite (Fjson_rpc_shutdown_open _ h H1).
  - intros callback args st st' v Hrun.
    destruct (Fjson_rpc_returns callback args st st' v Hrun) as (ds & Hds & H).
    exists ds. split; [exact Hds|].
    destruct (lock_available st); [|exact H].
    destruct H as (Hl & Hn & _). now split.
Qed.

Lemma handle_is_closed_by_the_dispatch_loop_only_witness :
  exists st1 st2,
    Fjson_rpc_shutdown fresh_state = (Ret Qnil, st1)
    /\ Fjson_rpc_shutdown st1 = (Ret Qnil, st2)
    /\ handle st2 = Some idle_handle.
Proof.
  apply (proj1 (proj2 (handle_is_closed_by_the_dispatch_loop_only
                         Reference.collaborator))
               fresh_state idle_handle).
  reflexivity.
Defined.

(** C5 as stated: the shutdown request comes first here, and the
    handle is neither closed nor cleared by it; the dispatch loop,
    which comes second, closes it. *)
Lemma shutdown_first_does_not_close_the_handle :
  fst (Fjson_rpc_shutdown fresh_state) = Ret Qnil
  /\ handle (snd (Fjson_rpc_shutdown fresh_state)) = Some idle_handle
  /\ log (snd (Fjson_rpc_shutdown fresh_state)) = [CancelRecv]
  /\ log (snd (Fjson_rpc quiet_handler []
                         (snd (Fjson_rpc_shutdown fresh_state))))
     = [CancelRecv; end_of_session; Close].
Proof. vm_compute. repeat split. Qed.

(** The slip next to it: once the loop has closed the handle, a
    shutdown request, like a send, takes the mutex, finds the handle
    gone and releases the mutex through [end_using_handle], whose
    assertion requires a handle. *)
Example shutdown_after_close_fails_the_assertion :
  fst (Fjson_rpc_shutdown (snd (Fjson_rpc quiet_handler [] fresh_state)))
  = Crash AssertionFailed
  /\ fst (Fjson_rpc_send ping_object []
                         (snd (Fjson_rpc quiet_handler [] fresh_state)))
     = Crash AssertionFailed.
Proof. vm_compute. split; reflexivity. Qed.

(** ** One turn of the dispatch loop *)

Lemma strtol_lacks_number (s : list ascii) :
  lacks_number s = true -> strtol s = 0.
Proof.
  unfold lacks_number, strtol.
  destruct (skip_isspace s) as [|c rest]; [reflexivity|].
  destruct (Ascii.eqb c "-"%char) eqn:Eminus; simpl.
  - destruct rest as [|d rest']; [reflexivity|]. simpl.
    destruct (digit_of d); [discriminate | reflexivity].
  - destruct (Ascii.eqb c "+"%char) eqn:Eplus; simpl.
    + destruct rest as [|d rest']; [reflexivity|]. simpl.
      destruct (digit_of d); [discriminate | reflexivity].
    + destruct (digit_of c); [discriminate | reflexivity].
Qed.

Section OneTurn.

Context {collab : Collaborator}.

(** [json_rpc_callback] once the header has been read: the payload
    loop, then the decoder unless the stream ended. *)
Lemma json_rpc_callback_after_header
    (st s1 s2 s3 : json_rpc_state) (d1 hdr payload : list ascii) :
  read_until MARKER st = (Ret (true, d1), s1) ->
  read_until DELIM s1 = (Ret (true, hdr), s2) ->
  read_payload (schedule_length s2)
               (to_size_t (strtol (cstr hdr)) <? PTRDIFF_MAX) []
               (to_size_t (strtol (cstr hdr))) s2
  = (Ret payload, s3) ->
  json_rpc_callback st
  = (Ret tt,
     if done s3 then s3
     else match json_loads (cstr payload) with
          | inl value => set_message s3 (Some value)
          | inr e => set_error (set_message s3 None) e
          end).
Proof.
  intros Hmarker Hheader Hpayload.
  unfold json_rpc_callback, bindM.
  rewrite Hmarker. cbn [fst snd]. rewrite Hheader. cbn [fst snd].
  unfold get at 1. rewrite Hpayload.
  unfold get. destruct (done s3); cbn [negb]; [reflexivity|].
  destruct (json_loads (cstr payload)); reflexivity.
Qed.

(** The turn of the loop around a frame that does not decode. *)
Lemma Fjson_rpc_loop_parse_error_turn
    (fuel : nat) (callback : lisp_function) (conf : json_configuration)
    (st s' : json_rpc_state) (h : SSP_Handle) (v : Lisp_Object) :
  done st = false ->
  handle st = Some h ->
  ssp_isalive h = true ->
  json_rpc_callback st = (Ret tt, s') ->
  done s' = false ->
  message s' = None ->
  callback Qnil (get_json_parse_error (error s')) Qnil = Ret v ->
  Fjson_rpc_loop (S fuel) callback conf st
  = Fjson_rpc_loop fuel callback conf
      (emit s' (Funcall Qnil (get_json_parse_error (error s')) Qnil)).
Proof.
  intros Hdone Hh Halive Hcb Hdone' Hmsg Hret.
  cbn [Fjson_rpc_loop]. unfold bindM at 1. unfold get at 1.
  rewrite Hdone. unfold bindM at 1. unfold get at 1. rewrite Hh, Halive.
  unfold bindM at 1. unfold bindM at 1. rewrite Hcb.
  unfold bindM at 1. unfold get at 1. rewrite Hdone'. cbn [negb].
  unfold bindM at 1. unfold get at 1. rewrite Hmsg.
  unfold bindM at 1. unfold get at 1.
  unfold Ffuncall, bindM, modify, lift, ret. rewrite Hret.
  reflexivity.
Qed.

End OneTurn.

Lemma read_payload_nothing (fuel : nat) (allocated : bool)
    (msg : list ascii) (st : json_rpc_state) :
  read_payload fuel allocated msg 0 st = (Ret msg, st).
Proof. destruct fuel; reflexivity. Qed.

(** C9.  When the marker, the delimiter and the whole payload of a
    frame have been read (the stream did not end: [done] is still
    clear), and the payload does not decode, the turn of the loop
    calls the handler with (nil, the parse error, nil) and the loop
    goes on from a state that is still running: [done] clear, the
    handle open, the log longer by that one call.  The parse error is
    the value [get_json_parse_error] builds from what the decoder
    reported: a list of six elements, not [nil], that starts with
    [json-end-of-file] when the input ended too early, with
    [json-trailing-content] when something follows the value and with
    [json-parse-error] otherwise, and goes on with the decoder's
    message, the name of the source, the line, the column and the
    position. *)
Theorem undecodable_frame_is_delivered_and_loop_continues :
  forall (collab : Collaborator) (fuel : nat) (callback : lisp_function)
         (conf : json_configuration) (st s1 s2 s3 : json_rpc_state)
         (h : SSP_Handle) (d1 hdr payload : list ascii) (e : json_error_t)
         (v : Lisp_Object),
    let err :=
      Fcons (match code e with
             | json_error_premature_end_of_input => Qjson_end_of_file
             | json_error_end_of_input_expected => Qjson_trailing_content
             | json_error_invalid_syntax => Qjson_parse_error
             end)
            (list5 (LString (text e)) (LString (source e))
                   (Fixnum (line e)) (Fixnum (column e))
                   (Fixnum (position e))) in
    done st = false ->
    handle st = Some h ->
    ssp_isalive h = true ->
    read_until MARKER st = (Ret (true, d1), s1) ->
    read_until DELIM s1 = (Ret (true, hdr), s2) ->
    read_payload (schedule_length s2)
                 (to_size_t (strtol (cstr hdr)) <? PTRDIFF_MAX) []
                 (to_size_t (strtol (cstr hdr))) s2
    = (Ret payload, s3) ->
    done s3 = false ->
    json_loads (cstr payload) = inr e ->
    callback Qnil err Qnil = Ret v ->
    Fjson_rpc_loop (S fuel) callback conf st
    = Fjson_rpc_loop fuel callback conf
        (emit (set_error (set_message s3 None) e) (Funcall Qnil err Qnil))
    /\ log (emit (set_error (set_message s3 None) e)
                 (Funcall Qnil err Qnil))
       = log st ++ [Funcall Qnil err Qnil]
    /\ err <> Qnil
    /\ done (emit (set_error (set_message s3 None) e)
                  (Funcall Qnil err Qnil)) = false
    /\ is_some (handle (emit (set_error (set_message s3 None) e)
                             (Funcall Qnil err Qnil)))
       = true.
Proof.
  intros collab fuel callback conf st s1 s2 s3 h d1 hdr payload e v err
         Hdone Hh Halive Hmarker Hheader Hpayload Hdone3 Hloads Hret.
  assert (Herr : err = get_json_parse_error e) by reflexivity.
  assert (Hnil : err <> Qnil) by (unfold err, Fcons, Qnil; discriminate).
  clearbody err. subst err.
  pose proof (json_rpc_callback_after_header st s1 s2 s3 d1 hdr payload
                Hmarker Hheader Hpayload) as Hcb.
  rewrite Hdone3, Hloads in Hcb.
  pose proof (json_rpc_callback_reads st) as Hreads.
  rewrite Hcb in Hreads. cbn [snd] in Hreads.
  destruct Hreads as (Hlog & _ & _ & Hsome).
  split; [|split; [|split; [|split]]].
  - exact (Fjson_rpc_loop_parse_error_turn
             fuel callback conf st (set_error (set_message s3 None) e) h v
             Hdone Hh Halive Hcb Hdone3 eq_refl Hret).
  - fields. fields in Hlog. now rewrite Hlog.
  - exact Hnil.
  - fields. exact Hdone3.
  - fields. fields in Hsome. rewrite Hsome, Hh. reflexivity.
Qed.

Lemma undecodable_frame_is_delivered_and_loop_continues_witness :
  Fjson_rpc_loop 3 quiet_handler default_conf broken_state
  = Fjson_rpc_loop 2 quiet_handler default_conf
      (emit (set_error (set_message (after_payload broken_state) None)
                       (Reference.error_of json_error_invalid_syntax
                                           (chars "tru")))
            (Funcall Qnil
                     (Flist [Qjson_parse_error;
                             LString (chars "invalid token");
                             LString (chars "<string>");
                             Fixnum 1; Fixnum 0; Fixnum 0])
                     Qnil))
  /\ log (emit (set_error (set_message (after_payload broken_state) None)
                          (Reference.error_of json_error_invalid_syntax
                                              (chars "tru")))
               (Funcall Qnil
                        (Flist [Qjson_parse_error;
                                LString (chars "invalid token");
                                LString (chars "<string>");
                                Fixnum 1; Fixnum 0; Fixnum 0])
                        Qnil))
     = log broken_state
       ++ [Funcall Qnil
                   (Flist [Qjson_parse_error;
                           LString (chars "invalid token");
                           LString (chars "<string>");
                           Fixnum 1; Fixnum 0; Fixnum 0])
                   Qnil].
Proof.
  pose proof (undecodable_frame_is_delivered_and_loop_continues
                Reference.collaborator 2 quiet_handler default_conf
                broken_state (after_marker broken_state)
                (after_header broken_state) (after_payload broken_state)
                (mk_handle broken_stream [] (steady 60) true [])
                MARKER (header_of broken_state) (chars "tru")
                (Reference.error_of json_error_invalid_syntax
                                    (chars "tru"))
                Qnil) as H.
  cbv zeta in H.
  destruct H as (Hturn & Hlog & _); try (vm_compute; reflexivity).
  split; [exact Hturn | exact Hlog].
Defined.

(** C2, as the code has it.  When the bytes between the marker and the
    delimiter hold no number ([strtol] finds no digit after the blanks
    and an optional sign), the length is taken to be 0: no payload byte
    is read, the empty text is handed to the decoder, and since that
    fails the handler is called with (nil, the parse error, nil) and
    the loop goes on, [done] clear and the handle open.  Nothing here
    ends the session.  The parse error is the list
    [get_json_parse_error] builds from what the decoder reported on
    the empty text: not [nil], it starts with [json-end-of-file],
    [json-trailing-content] or [json-parse-error] according to the
    decoder's code and goes on with the message, the source, the
    line, the column and the position. *)
Theorem non_numeric_length_reads_an_empty_payload :
  forall (collab : Collaborator) (fuel : nat) (callback : lisp_function)
         (conf : json_configuration) (st s1 s2 : json_rpc_state)
         (h : SSP_Handle) (d1 hdr : list ascii) (e : json_error_t)
         (v : Lisp_Object),
    let err :=
      Fcons (match code e with
             | json_error_premature_end_of_input => Qjson_end_of_file
             | json_error_end_of_input_expected => Qjson_trailing_content
             | json_error_invalid_syntax => Qjson_parse_error
             end)
            (list5 (LString (text e)) (LString (source e))
                   (Fixnum (line e)) (Fixnum (column e))
                   (Fixnum (position e))) in
    done st = false ->
    handle st = Some h ->
    ssp_isalive h = true ->
    read_until MARKER st = (Ret (true, d1), s1) ->
    read_until DELIM s1 = (Ret (true, hdr), s2) ->
    lacks_number (cstr hdr) = true ->
    json_loads [] = inr e ->
    callback Qnil err Qnil = Ret v ->
    json_rpc_callback st = (Ret tt, set_error (set_message s2 None) e)
    /\ Fjson_rpc_loop (S fuel) callback conf st
       = Fjson_rpc_loop fuel callback conf
           (emit (set_error (set_message s2 None) e) (Funcall Qnil err Qnil))
    /\ log (emit (set_error (set_message s2 None) e)
                 (Funcall Qnil err Qnil))
       = log st ++ [Funcall Qnil err Qnil]
    /\ err <> Qnil
    /\ done (emit (set_error (set_message s2 None) e)
                  (Funcall Qnil err Qnil)) = false
    /\ is_some (handle (emit (set_error (set_message s2 None) e)
                             (Funcall Qnil err Qnil)))
       = true.
Proof.
  intros collab fuel callback conf st s1 s2 h d1 hdr e v err
         Hdone Hh Halive Hmarker Hheader Hlacks Hloads Hret.
  assert (Herr : err = get_json_parse_error e) by reflexivity.
  assert (Hnil : err <> Qnil) by (unfold err, Fcons, Qnil; discriminate).
  clearbody err. subst err.
  assert (Hzero : to_size_t (strtol (cstr hdr)) = 0).
  { now rewrite (strtol_lacks_number _ Hlacks). }
  assert (Hdone2 : done s2 = false).
  { pose proof (read_until_receives MARKER st) as H1.
    pose proof (read_until_receives DELIM s1) as H2.
    rewrite Hmarker in H1. rewrite Hheader in H2. cbn [snd] in H1, H2.
    destruct H1 as (_ & H1 & _). destruct H2 as (_ & H2 & _). congruence. }
  assert (Hcb : json_rpc_callback st
                = (Ret tt, set_error (set_message s2 None) e)).
  { rewrite (json_rpc_callback_after_header st s1 s2 s2 d1 hdr []
               Hmarker Hheader).
    - cbn [cstr]. now rewrite Hdone2, Hloads.
    - rewrite Hzero. apply read_payload_nothing. }
  pose proof (json_rpc_callback_reads st) as Hreads.
  rewrite Hcb in Hreads. cbn [snd] in Hreads.
  destruct Hreads as (Hlog & _ & _ & Hsome).
  split; [exact Hcb|]. split; [|split; [|split; [|split]]].
  - exact (Fjson_rpc_loop_parse_error_turn
             fuel callback conf st (set_error (set_message s2 None) e) h v
             Hdone Hh Halive Hcb Hdone2 eq_refl Hret).
  - fields. fields in Hlog. now rewrite Hlog.
  - exact Hnil.
  - fields. exact Hdone2.
  - fields. fields in Hsome. rewrite Hsome, Hh. reflexivity.
Qed.

Lemma non_numeric_length_reads_an_empty_payload_witness :
  json_rpc_callback garbled_state
  = (Ret tt,
     set_error (set_message (after_header garbled_state) None)
               (Reference.error_of json_error_premature_end_of_input []))
  /\ Fjson_rpc_loop 3 quiet_handler default_conf garbled_state
     = Fjson_rpc_loop 2 quiet_handler default_conf
         (emit (set_error (set_message (after_header garbled_state) None)
                          (Reference.error_of
                             json_error_premature_end_of_input []))
               (Funcall Qnil
                        (Flist [Qjson_end_of_file;
                                LString
                                  (chars "unexpected token near end of file");
                                LString (chars "<string>");
                                Fixnum 1; Fixnum 0; Fixnum 0])
                        Qnil)).
Proof.
  pose proof (non_numeric_length_reads_an_empty_payload
                Reference.collaborator 2 quiet_handler default_conf
                garbled_state (after_marker garbled_state)
                (after_header garbled_state)
                (mk_handle garbled_stream [] (steady 60) true [])
                MARKER (header_of garbled_state)
                (Reference.error_of json_error_premature_end_of_input [])
                Qnil) as H.
  cbv zeta in H.
  destruct H as (Hcb & Hturn & _); try (vm_compute; reflexivity).
  split; [exact Hcb | exact Hturn].
Defined.

(** C2 as stated: on a stream whose first header reads
    [Content-Length: abc], the session is not ended there.  The first
    turn leaves [done] clear, the handler gets the parse error of the
    empty text with a third argument [nil], and the frame that follows
    is read and delivered before the end of session. *)
Lemma non_numeric_length_does_not_end_the_session :
  done (snd (json_rpc_callback garbled_state)) = false
  /\ log (snd (Fjson_rpc quiet_handler [] garbled_state))
     = [Funcall Qnil
                (Flist [Qjson_end_of_file;
                        LString (chars "unexpected token near end of file");
                        LString (chars "<string>");
                        Fixnum 1; Fixnum 0; Fixnum 0])
                Qnil;
        Funcall Qt Qnil Qnil;
        end_of_session;
        Close].
Proof. vm_compute. split; reflexivity. Qed.

(** ** The framed reader on a stream *)

Lemma firstn_add {A} (a b : nat) (l : list A) :
  firstn (a + b) l = firstn a l ++ firstn b (skipn a l).
Proof.
  revert l. induction a as [|a IH]; intros l; [reflexivity|].
  destruct l as [|x l]; cbn [Nat.add firstn skipn app].
  - now rewrite firstn_nil.
  - now rewrite IH.
Qed.

Lemma consumed_refl (s : json_rpc_state) (h : SSP_Handle) :
  handle s = Some h -> consumed 0 s s.
Proof.
  intros Hh. split; [apply receives_refl|].
  exists h, h. repeat split; auto; lia.
Qed.

Lemma consumed_trans (a b : nat) (s1 s2 s3 : json_rpc_state) :
  consumed a s1 s2 -> consumed b s2 s3 -> consumed (a + b) s1 s3.
Proof.
  intros [R1 (h1 & h2 & H1 & H2 & Ha & Hp & Hs & Hs' & He & Hq)]
         [R2 (h2' & h3 & H2' & H3 & Hb & Hp' & Ht & Ht' & He' & Hq')].
  rewrite H2 in H2'. injection H2' as <-.
  split; [eapply receives_trans; eassumption|].
  exists h1, h3. repeat split; auto; try lia.
  - rewrite Hp, length_skipn in Hb. lia.
  - rewrite Hp', Hp, skipn_skipn. f_equal. lia.
Qed.

Lemma consumed_quiet (k : nat) (s s' : json_rpc_state) (h h' : SSP_Handle) :
  consumed k s s' -> handle s = Some h -> handle s' = Some h' ->
  quiet s h -> quiet s' h'.
Proof.
  intros [_ (h0 & h0' & H0 & H0' & _ & _ & _ & _ & He & Hq)] Hh Hh' [Q1 Q2].
  rewrite Hh in H0. rewrite Hh' in H0'.
  injection H0 as <-. injection H0' as <-.
  unfold quiet. lia.
Qed.

(** Without overflow a capture stores the bytes, advances the fill
    level and returns. *)
Lemma capture_stderr_quiet (bytes : list ascii) (st : json_rpc_state) :
  0 <= error_buffer_read st ->
  error_buffer_read st + Z.of_nat (length bytes) < ERROR_BUFFER_SIZE ->
  exists st',
    capture_stderr bytes st = (Ret tt, st')
    /\ receives st st'
    /\ handle st' = handle st
    /\ error_buffer_read st'
       = error_buffer_read st + Z.of_nat (length bytes).
Proof.
  intros Hpos Hroom. pose proof ERROR_BUFFER_SIZE_value as Hsize.
  unfold capture_stderr.
  destruct (Z.of_nat (length bytes) =? 0) eqn:Hzero.
  - apply Z.eqb_eq in Hzero. exists st.
    repeat split; auto using receives_refl. lia.
  - rewrite to_int_small by (unfold INT_MAX; lia).
    destruct (_ =? ERROR_BUFFER_SIZE) eqn:Hfull;
      [apply Z.eqb_eq in Hfull; lia|].
    eexists. split; [reflexivity|].
    unfold receives, reads. fields. auto 10.
Qed.

(** What one [recv] hands over. *)
Lemma ssp_recv_spec (h : SSP_Handle) (size stderr_size : Z) :
  0 <= size -> 0 <= stderr_size ->
  let r := fst (ssp_recv h size stderr_size) in
  let h' := snd (ssp_recv h size stderr_size) in
  let k := length (r_stdout r) in
  r_stdout r = firstn k (stdout_pipe h)
  /\ stdout_pipe h' = skipn k (stdout_pipe h)
  /\ (k <= length (stdout_pipe h))%nat
  /\ Z.of_nat k <= size
  /\ Z.of_nat k <= MAX_RW_COUNT
  /\ Z.of_nat (length (r_stderr r)) <= stderr_size
  /\ (length (r_stderr r) + length (stderr_pipe h')
      = length (stderr_pipe h))%nat
  /\ (length (schedule h') <= length (schedule h))%nat
  /\ ((0 < k)%nat -> (length (schedule h') < length (schedule h))%nat).
Proof.
  intros Hsize Herr. unfold ssp_recv.
  destruct (schedule h) as [|e rest]; cbn [fst snd r_stdout r_stderr
    stdout_pipe stderr_pipe schedule length firstn skipn].
  - repeat split; auto; try lia. unfold MAX_RW_COUNT. lia.
  - set (n := Z.to_nat (Z.min (Z.min size MAX_RW_COUNT)
                              (Z.of_nat (ev_stdout e)))).
    set (m := Z.to_nat (Z.min stderr_size (Z.of_nat (ev_stderr e)))).
    assert (Hn : (Z.of_nat n <= size /\ Z.of_nat n <= MAX_RW_COUNT)).
    { unfold MAX_RW_COUNT in *. subst n. lia. }
    assert (Hm : Z.of_nat m <= stderr_size) by (subst m; lia).
    rewrite !length_firstn, !length_skipn.
    repeat split; try lia.
    + destruct (Nat.le_gt_cases n (length (stdout_pipe h))) as [Hle|Hgt].
      * now rewrite Nat.min_l.
      * rewrite Nat.min_r by lia.
        rewrite firstn_all, firstn_all2 by lia. reflexivity.
    + destruct (Nat.le_gt_cases n (length (stdout_pipe h))) as [Hle|Hgt].
      * now rewrite Nat.min_l.
      * rewrite Nat.min_r by lia.
        rewrite !skipn_all2 by lia. reflexivity.
Qed.

Lemma firstn_length_nonempty {A} (l : list A) :
  is_empty l = false <-> (0 < length l)%nat.
Proof. destruct l; simpl; split; intros; try lia; congruence. Qed.

(** [read_stdout] on a quiet connection: it returns the next bytes of
    the stream, as many as [recv] gave and no more than [size]. *)
Lemma read_stdout_loop_spec (fuel : nat) :
  forall (size : Z) (st : json_rpc_state) (h : SSP_Handle),
    handle st = Some h ->
    quiet st h ->
    0 < size ->
    exists k st',
      read_stdout_loop fuel size st = (Ret (firstn k (stdout_pipe h)), st')
      /\ consumed k st st'
      /\ Z.of_nat k <= size
      /\ Z.of_nat k <= MAX_RW_COUNT.
Proof.
  pose proof ERROR_BUFFER_SIZE_value as Hcap.
  induction fuel as [|fuel IH]; intros size st h Hh [Q1 Q2] Hsize;
    cbn [read_stdout_loop]; rewrite Hh;
    (assert (Herr : 0 <= to_size_t (ERROR_BUFFER_SIZE - error_buffer_read st))
       by (rewrite to_size_t_small by lia; lia));
    pose proof (ssp_recv_spec h size _ ltac:(lia) Herr) as Hrecv;
    destruct (ssp_recv h size
                (to_size_t (ERROR_BUFFER_SIZE - error_buffer_read st)))
      as [r h'];
    cbn [fst snd] in Hrecv;
    destruct Hrecv as (Hout & Hpipe & Hk & Hks & Hkm & Hel & Hep & Hs & Hs');
    (destruct (capture_stderr_quiet (r_stderr r) (set_handle st (Some h')))
       as (st1 & Hcapture & Hrec & Hh1 & Hfill);
     [fields; lia | fields; lia |]);
    fields in Hh1; fields in Hfill;
    unfold bindM; rewrite Hcapture;
    (assert (Hstep : consumed (length (r_stdout r)) st st1);
     [ split;
       [ apply receives_trans with (set_handle st (Some h'));
         [unfold receives, reads; fields; rewrite Hh; auto 10 | exact Hrec]
       | exists h, h'; repeat split; auto; lia ]
     | ]).
  - destruct (is_empty (r_stdout r)) eqn:Hempty; cbn [negb].
    + destruct (r_stdout r) as [|c l] eqn:Hr; [|discriminate].
      exists 0%nat, st1. cbn [length] in Hstep.
      destruct ((0 <? to_size_t (r_res r)) || ssp_isalive h');
        (split; [reflexivity|]); (split; [exact Hstep|]);
        unfold MAX_RW_COUNT; cbn [Z.of_nat]; lia.
    + exists (length (r_stdout r)), st1. rewrite <- Hout.
      split; [reflexivity|]. auto.
  - destruct (is_empty (r_stdout r)) eqn:Hempty; cbn [negb].
    + destruct (r_stdout r) as [|c l] eqn:Hr; [|discriminate].
      cbn [length] in Hstep, Hpipe. cbn [skipn] in Hpipe.
      destruct ((0 <? to_size_t (r_res r)) || ssp_isalive h').
      * destruct (IH size st1 h' Hh1) as (k & st' & Hrun & Hcons & Hk1 & Hk2);
          [unfold quiet; lia | lia |].
        exists k, st'. rewrite Hrun, Hpipe.
        split; [reflexivity|]. split; [|auto].
        apply (consumed_trans 0 k st st1 st'); assumption.
      * exists 0%nat, st1. split; [reflexivity|].
        split; [exact Hstep|].
        unfold MAX_RW_COUNT; cbn [Z.of_nat]; lia.
    + exists (length (r_stdout r)), st1. rewrite <- Hout.
      split; [reflexivity|]. auto.
Qed.

Lemma read_stdout_spec (size : Z) (st : json_rpc_state) (h : SSP_Handle) :
  handle st = Some h ->
  quiet st h ->
  0 < size ->
  exists k st',
    read_stdout size st = (Ret (firstn k (stdout_pipe h)), st')
    /\ consumed k st st'
    /\ Z.of_nat k <= size
    /\ Z.of_nat k <= MAX_RW_COUNT.
Proof.
  intros Hh Hq Hsize. unfold read_stdout. rewrite Hh.
  now apply read_stdout_loop_spec.
Qed.

Lemma starts_with_length (needle hay : list ascii) :
  starts_with needle hay = true -> (length needle <= length hay)%nat.
Proof.
  revert hay. induction needle as [|n needle IH]; intros hay H;
    [simpl; lia|].
  destruct hay as [|c hay]; [discriminate|].
  simpl in H. apply Bool.andb_true_iff in H. destruct H as [_ H].
  apply IH in H. simpl. lia.
Qed.

Lemma strstr_length (hay needle : list ascii) :
  strstr hay needle = true -> (length needle <= length hay)%nat.
Proof.
  induction hay as [|c hay IH]; intros H.
  - simpl in H. rewrite Bool.orb_false_r in H.
    now apply starts_with_length in H.
  - cbn [strstr] in H. apply Bool.orb_true_iff in H. destruct H as [H|H].
    + now apply starts_with_length in H.
    + apply IH in H. simpl. lia.
Qed.

Lemma cstr_length (l : list ascii) : (length (cstr l) <= length l)%nat.
Proof.
  induction l as [|c l IH]; simpl; [lia|].
  destruct (Ascii.eqb c NUL); simpl; lia.
Qed.

(** [read_until] on a quiet connection, when the needle shows up
    within the next [K] bytes of the stream unless the stream is
    shorter, and the array has room for them: it stops at the first
    [k] for which the bytes read contain the needle, or earlier when
    the stream ends. *)
Lemma read_until_loop_spec (room : nat) :
  forall (needle output : list ascii) (st : json_rpc_state)
         (h : SSP_Handle) (K : nat),
    handle st = Some h ->
    quiet st h ->
    Z.of_nat (length output + K) < BUFFER_SIZE ->
    (K <= room)%nat ->
    ((K <= length (stdout_pipe h))%nat ->
     strstr (cstr (output ++ firstn K (stdout_pipe h))) needle = true) ->
    exists b k st',
      read_until_loop room needle output st
      = (Ret (b, output ++ firstn k (stdout_pipe h)), st')
      /\ consumed k st st'
      /\ (k <= K)%nat
      /\ strstr (cstr (output ++ firstn k (stdout_pipe h))) needle = b
      /\ (forall j, (j < k)%nat ->
                    strstr (cstr (output ++ firstn j (stdout_pipe h))) needle
                    = false).
Proof.
  induction room as [|room IH];
    intros needle output st h K Hh Hq Hfit Hroom Hfound;
    cbn [read_until_loop];
    (assert (Hterm : terminated output = true);
     [ unfold terminated; apply Bool.orb_true_iff; right;
       apply Z.ltb_lt; lia | ]);
    rewrite Hterm; cbn [negb];
    (destruct (strstr (cstr output) needle) eqn:Hhere;
     [ exists true, 0%nat, st; cbn [firstn]; rewrite app_nil_r;
       split; [reflexivity|];
       split; [now apply consumed_refl with h|];
       split; [lia|]; split; [exact Hhere | intros j Hj; lia]
     | ]);
    unfold bindM;
    destruct (read_stdout_spec 1 st h Hh Hq ltac:(lia))
      as (k1 & st1 & Hread & Hcons & Hk1 & _);
    rewrite Hread;
    (assert (Hlen : length (firstn k1 (stdout_pipe h)) = k1);
     [ apply firstn_length_le; destruct Hcons as [_ (h0 & h0' & H0 & _ & Hle & _)];
       rewrite Hh in H0; injection H0 as <-; exact Hle | ]);
    (destruct k1 as [|k1];
     [ cbn [firstn is_empty];
       exists false, 0%nat, st1; cbn [firstn]; rewrite app_nil_r;
       split; [reflexivity|];
       split; [exact Hcons|];
       split; [lia|]; split; [exact Hhere | intros j Hj; lia]
     | ]);
    (assert (k1 = 0)%nat by lia; subst k1);
    (assert (Hne : is_empty (firstn 1 (stdout_pipe h)) = false);
     [ apply firstn_length_nonempty; lia | ]);
    rewrite Hne;
    (assert (HK : (0 < K)%nat);
     [ destruct K as [|K']; [|lia];
       cbn [firstn] in Hfound; rewrite app_nil_r in Hfound;
       rewrite Hfound in Hhere by lia; discriminate | ]).
  - lia.
  - destruct Hcons as [Hrec (h0 & h1 & H0 & H1 & Hle & Hpipe & Hrest)].
    rewrite Hh in H0. injection H0 as <-.
    assert (Hcons : consumed 1 st st1).
    { split; [exact Hrec|]. exists h, h1. auto. }
    destruct (IH needle (output ++ firstn 1 (stdout_pipe h)) st1 h1 (K - 1)%nat
                 H1)
      as (b & k & st' & Hrun & Hcons' & Hk & Hb & Hmin).
    + now apply (consumed_quiet 1 st st1 h h1).
    + rewrite length_app, Hlen. lia.
    + lia.
    + intros HKle. rewrite Hpipe, <- app_assoc, <- firstn_add.
      replace (1 + (K - 1))%nat with K by lia.
      apply Hfound. rewrite Hpipe, length_skipn in HKle. lia.
    + rewrite Hpipe, <- app_assoc, <- firstn_add in Hrun, Hb.
      exists b, (1 + k)%nat, st'.
      split; [exact Hrun|].
      split; [now apply (consumed_trans 1 k st st1 st')|].
      split; [lia|]. split; [exact Hb|].
      intros j Hj. destruct j as [|j].
      * cbn [firstn]. now rewrite app_nil_r.
      * specialize (Hmin j ltac:(lia)).
        rewrite Hpipe, <- app_assoc, <- firstn_add in Hmin. exact Hmin.
Qed.

(** When fewer bytes are left on the stream than the payload needs,
    the payload loop meets the end of the stream and raises [done]. *)
Lemma read_payload_short (fuel : nat) :
  forall (msg : list ascii) (n : Z) (st : json_rpc_state) (h : SSP_Handle),
    handle st = Some h ->
    quiet st h ->
    (length (schedule h) <= fuel)%nat ->
    Z.of_nat (length (stdout_pipe h)) < n < 2 ^ 64 ->
    exists msg' st',
      read_payload fuel true msg n st = (Ret msg', st')
      /\ done st' = true.
Proof.
  induction fuel as [|fuel IH]; intros msg n st h Hh Hq Hfuel Hn;
    cbn [read_payload];
    (assert (Hpos : (0 <? n) = true) by (apply Z.ltb_lt; lia));
    rewrite Hpos; unfold bindM;
    destruct (read_stdout_spec n st h Hh Hq ltac:(lia))
      as (k & st1 & Hread & Hcons & Hk & Hmax);
    rewrite Hread;
    pose proof Hcons as [_ (h0 & h1 & H0 & H1 & Hle & Hpipe & _ & Hdec & _)];
    rewrite Hh in H0; injection H0 as <-;
    rewrite Bool.andb_false_r;
    rewrite (firstn_length_le _ Hle);
    (rewrite to_int_small by (unfold MAX_RW_COUNT, INT_MAX in *; lia));
    (destruct (Z.of_nat k =? 0) eqn:Hzero;
     [ eexists; eexists; split; [reflexivity | reflexivity] | ]);
    apply Z.eqb_neq in Hzero.
  - specialize (Hdec ltac:(lia)). lia.
  - destruct (IH (msg ++ firstn k (stdout_pipe h)) (to_size_t (n - Z.of_nat k))
                 st1 h1 H1)
      as (msg' & st' & Hrun & Hdone).
    + now apply (consumed_quiet k st st1 h h1).
    + specialize (Hdec ltac:(lia)). lia.
    + rewrite to_size_t_small by lia.
      rewrite Hpipe, length_skipn. lia.
    + exists msg', st'. auto.
Qed.

Lemma firstn_of_prefix {A} (k cut : nat) (l : list A) :
  (k <= cut)%nat -> firstn k (firstn cut l) = firstn k l.
Proof. intros H. rewrite firstn_firstn. f_equal. lia. Qed.

Lemma firstn_app_left {A} (k : nat) (a b : list A) :
  (k <= length a)%nat -> firstn k (a ++ b) = firstn k a.
Proof.
  intros H. rewrite firstn_app.
  replace (k - length a)%nat with 0%nat by lia.
  cbn [firstn]. apply app_nil_r.
Qed.

Lemma delimited_found (header : list ascii) :
  delimited header = true -> strstr (cstr header) DELIM = true.
Proof.
  unfold delimited. intros H. apply Bool.andb_true_iff in H. tauto.
Qed.

Lemma delimited_first (header : list ascii) (j : nat) :
  delimited header = true ->
  (j < length header)%nat ->
  strstr (cstr (firstn j header)) DELIM = false.
Proof.
  unfold delimited. intros H Hj.
  apply Bool.andb_true_iff in H. destruct H as [_ H].
  rewrite forallb_forall in H.
  specialize (H j). apply Bool.negb_true_iff, H.
  apply in_seq. lia.
Qed.

Section CutShort.

Context {collab : Collaborator}.

(** The turn of [json_rpc_callback] on a stream that stops inside a
    frame: it returns with [done] raised. *)
Lemma json_rpc_callback_cut_short
    (st : json_rpc_state) (h : SSP_Handle) (header payload : list ascii)
    (cut : nat) :
  handle st = Some h ->
  quiet st h ->
  delimited header = true ->
  Z.of_nat (length header) < BUFFER_SIZE ->
  strtol (cstr header) = Z.of_nat (length payload) ->
  Z.of_nat (length payload) < PTRDIFF_MAX ->
  (cut < length (MARKER ++ header ++ payload))%nat ->
  stdout_pipe h = firstn cut (MARKER ++ header ++ payload) ->
  exists st', json_rpc_callback st = (Ret tt, st') /\ done st' = true.
Proof.
  intros Hh Hq Hdelim Hfit Hlen Halloc Hcut Hpipe.
  assert (HM : length MARKER = 15%nat) by reflexivity.
  assert (Hplen : length (stdout_pipe h) = cut).
  { rewrite Hpipe. apply firstn_length_le. lia. }
  unfold json_rpc_callback, read_until, bindM.
  (* the marker *)
  destruct (read_until_loop_spec (Z.to_nat (BUFFER_SIZE + 1)) MARKER [] st h
              15 Hh Hq)
    as (b1 & k1 & s1 & Hrun1 & Hcons1 & Hk1 & Hb1 & _).
  { unfold BUFFER_SIZE. cbn [length]. lia. }
  { unfold BUFFER_SIZE. lia. }
  { intros H15. cbn [app]. rewrite Hpipe, firstn_of_prefix by lia.
    rewrite <- HM, firstn_app_left, firstn_all by lia. reflexivity. }
  rewrite Hrun1. cbn [fst snd app] in *.
  destruct b1; [|eexists; split; reflexivity].
  pose proof Hcons1 as [_ (h0 & h1 & H0 & H1 & Hle1 & Hpipe1 & _)].
  rewrite Hh in H0. injection H0 as <-.
  assert (k1 = 15%nat).
  { apply strstr_length in Hb1. pose proof (cstr_length (firstn k1 (stdout_pipe h))).
    rewrite length_firstn in H. lia. }
  subst k1.
  assert (Hq1 : quiet s1 h1) by now apply (consumed_quiet 15 st s1 h h1).
  assert (Hp1 : stdout_pipe h1 = firstn (cut - 15) (header ++ payload)).
  { rewrite Hpipe1, Hpipe, skipn_firstn_comm. reflexivity. }
  assert (Hcut1 : (cut - 15 < length (header ++ payload))%nat).
  { rewrite !length_app in *. lia. }
  assert (Hplen1 : length (stdout_pipe h1) = (cut - 15)%nat).
  { rewrite Hp1. apply firstn_length_le. lia. }
  (* the delimiter *)
  destruct (read_until_loop_spec (Z.to_nat (BUFFER_SIZE + 1)) DELIM [] s1 h1
              (length header) H1 Hq1)
    as (b2 & k2 & s2 & Hrun2 & Hcons2 & Hk2 & Hb2 & _).
  { cbn [length Nat.add]. lia. }
  { unfold BUFFER_SIZE in *. lia. }
  { intros Hhl. cbn [app]. rewrite Hp1, firstn_of_prefix by lia.
    rewrite firstn_app_left, firstn_all by lia.
    now apply delimited_found. }
  rewrite Hrun2. cbn [fst snd app] in *.
  destruct b2; [|eexists; split; reflexivity].
  pose proof Hcons2 as [_ (h1' & h2 & H1' & H2 & Hle2 & Hpipe2 & _)].
  rewrite H1 in H1'. injection H1' as <-.
  assert (Hpre : firstn k2 (stdout_pipe h1) = firstn k2 header).
  { rewrite Hp1, firstn_of_prefix by lia. now apply firstn_app_left. }
  rewrite Hpre in *.
  assert (k2 = length header).
  { destruct (Nat.eq_dec k2 (length header)) as [E|E]; [exact E|].
    rewrite (delimited_first header k2 Hdelim) in Hb2 by lia.
    discriminate. }
  subst k2. rewrite firstn_all in *.
  assert (Hq2 : quiet s2 h2)
    by now apply (consumed_quiet (length header) s1 s2 h1 h2).
  assert (Hplen2 : (length (stdout_pipe h2) < length payload)%nat).
  { rewrite Hpipe2, length_skipn, Hplen1. rewrite !length_app in *. lia. }
  (* the payload *)
  rewrite Hlen.
  rewrite to_size_t_small by (unfold PTRDIFF_MAX in Halloc; lia).
  apply Z.ltb_lt in Halloc. rewrite Halloc.
  unfold get at 1.
  destruct (read_payload_short (schedule_length s2) [] (Z.of_nat (length payload))
              s2 h2 H2 Hq2)
    as (msg & s3 & Hrun3 & Hdone3).
  { unfold schedule_length. now rewrite H2. }
  { apply Z.ltb_lt in Halloc. unfold PTRDIFF_MAX in Halloc. lia. }
  rewrite Hrun3. unfold get. rewrite Hdone3. cbn [negb].
  eexists. split; [reflexivity | exact Hdone3].
Qed.

End CutShort.

Section EndOfStream.

Context {collab : Collaborator}.

(** What [json-rpc] does once its loop has returned: the end of
    session, then the close under the mutex. *)
Lemma Fjson_rpc_after_loop
    (callback : lisp_function) (args : list Lisp_Object)
    (conf : json_configuration) (st s1 : json_rpc_state) (v : Lisp_Object) :
  json_parse_args (Z.of_nat (length args)) args default_conf true
    = Ret conf ->
  Fjson_rpc_loop (schedule_length st + 2) callback conf st = (Ret tt, s1) ->
  callback Qnil Qnil Qt = Ret v ->
  is_some (handle s1) = true ->
  Fjson_rpc callback args st
  = (Ret Qnil,
     if lock_available s1
     then set_handle
            (emit (set_handle_mx (emit s1 end_of_session) (tl (handle_mx s1)))
                  Close)
            None
     else set_handle_mx (emit s1 end_of_session) (tl (handle_mx s1))).
Proof.
  intros Hargs Hloop Hret Hsome.
  unfold Fjson_rpc, bindM, lift. rewrite Hargs.
  unfold get at 1. rewrite Hloop.
  unfold Ffuncall, bindM, modify, lift, ret. rewrite Hret.
  unfold pthread_mutex_timedlock, lock_available. fields.
  destruct (hd Acquired (handle_mx s1)); [|reflexivity].
  unfold get. fields.
  destruct (handle s1); [reflexivity | discriminate].
Qed.

(** The loop on a stream that stops inside a frame: one turn at most,
    no call of the handler. *)
Lemma Fjson_rpc_loop_cut_short
    (fuel : nat) (callback : lisp_function) (conf : json_configuration)
    (st : json_rpc_state) (h : SSP_Handle) (header payload : list ascii)
    (cut : nat) :
  done st = false ->
  handle st = Some h ->
  quiet st h ->
  delimited header = true ->
  Z.of_nat (length header) < BUFFER_SIZE ->
  strtol (cstr header) = Z.of_nat (length payload) ->
  Z.of_nat (length payload) < PTRDIFF_MAX ->
  (cut < length (MARKER ++ header ++ payload))%nat ->
  stdout_pipe h = firstn cut (MARKER ++ header ++ payload) ->
  exists s1,
    Fjson_rpc_loop (S (S fuel)) callback conf st = (Ret tt, s1)
    /\ reads st s1
    /\ (ssp_isalive h = true -> done s1 = true).
Proof.
  intros Hdone Hh Hq Hdelim Hfit Hlen Halloc Hcut Hpipe.
  cbn [Fjson_rpc_loop]. unfold bindM at 1. unfold get at 1. rewrite Hdone.
  unfold bindM at 1. unfold get at 1. rewrite Hh.
  destruct (ssp_isalive h) eqn:Halive.
  - destruct (json_rpc_callback_cut_short st h header payload cut
                Hh Hq Hdelim Hfit Hlen Halloc Hcut Hpipe)
      as (s1 & Hcb & Hdone1).
    pose proof (json_rpc_callback_reads st) as Hreads.
    rewrite Hcb in Hreads. cbn [snd] in Hreads.
    unfold bindM at 1. rewrite Hcb.
    unfold bindM at 1. unfold get at 1. rewrite Hdone1. cbn [negb].
    unfold bindM at 1. unfold ret at 1.
    unfold bindM at 1. unfold get at 1. rewrite Hdone1.
    exists s1. auto.
  - exists st. split; [reflexivity|]. split; [apply reads_refl|].
    discriminate.
Qed.

End EndOfStream.

(** C8.  The stream of the child stops inside a frame: what is left of
    it is a proper prefix of the marker, a header ending at its first
    blank line, and as many payload bytes as the header announces.
    Then, on a connection whose diagnostics do not overflow, [json-rpc]
    returns after calling the handler once, with (nil, nil, t): no
    message and no error is delivered for the partial frame.  If the
    child was reported alive, the turn that met the end of the stream
    raised [done]. *)
Theorem stream_cut_inside_a_frame_ends_the_session :
  forall (collab : Collaborator) (callback : lisp_function)
         (args : list Lisp_Object) (conf : json_configuration)
         (st : json_rpc_state) (h : SSP_Handle)
         (header payload : list ascii) (cut : nat) (v : Lisp_Object),
    json_parse_args (Z.of_nat (length args)) args default_conf true
      = Ret conf ->
    callback Qnil Qnil Qt = Ret v ->
    done st = false ->
    handle st = Some h ->
    quiet st h ->
    delimited header = true ->
    Z.of_nat (length header) < BUFFER_SIZE ->
    strtol (cstr header) = Z.of_nat (length payload) ->
    Z.of_nat (length payload) < PTRDIFF_MAX ->
    (cut < length (MARKER ++ header ++ payload))%nat ->
    stdout_pipe h = firstn cut (MARKER ++ header ++ payload) ->
    exists st',
      Fjson_rpc callback args st = (Ret Qnil, st')
      /\ log st'
         = log st
           ++ end_of_session :: (if lock_available st then [Close] else [])
      /\ (ssp_isalive h = true -> done st' = true).
Proof.
  intros collab callback args conf st h header payload cut v
         Hargs Hret Hdone Hh Hq Hdelim Hfit Hlen Halloc Hcut Hpipe.
  destruct (Fjson_rpc_loop_cut_short (schedule_length st) callback conf
              st h header payload cut
              Hdone Hh Hq Hdelim Hfit Hlen Halloc Hcut Hpipe)
    as (s1 & Hloop & (Hlog & Hmx & _ & Hsome) & Hdone1).
  replace (S (S (schedule_length st))) with (schedule_length st + 2)%nat
    in Hloop by lia.
  rewrite Hh in Hsome.
  rewrite (Fjson_rpc_after_loop callback args conf st s1 v
             Hargs Hloop Hret Hsome).
  eexists. split; [reflexivity|].
  unfold lock_available. rewrite Hmx.
  destruct (hd Acquired (handle_mx st)); fields; rewrite Hlog;
    rewrite <- ?app_assoc; auto.
Qed.

Lemma stream_cut_inside_a_frame_ends_the_session_witness :
  exists st',
    Fjson_rpc quiet_handler [] (cut_state 23) = (Ret Qnil, st')
    /\ log st'
       = log (cut_state 23)
         ++ end_of_session
            :: (if lock_available (cut_state 23) then [Close] else [])
    /\ (ssp_isalive (cut_handle 23) = true -> done st' = true).
Proof.
  apply (stream_cut_inside_a_frame_ends_the_session
           Reference.collaborator quiet_handler [] default_conf
           (cut_state 23) (cut_handle 23)
           (chars " 4" ++ DELIM) (chars "true") 23 Qnil);
    try reflexivity.
  - split; vm_compute; [discriminate | reflexivity].
  - vm_compute. lia.
Defined.

(** The same inside the header, and with the stream closed before any
    byte: the end of session is the only call of the handler. *)
Example stream_cut_inside_the_header :
  log (snd (Fjson_rpc quiet_handler [] (cut_state 18)))
  = [end_of_session; Close]
  /\ log (snd (Fjson_rpc quiet_handler [] (cut_state 0)))
     = [end_of_session; Close]
  /\ log (snd (Fjson_rpc quiet_handler [] (cut_state 25)))
     = [Funcall Qt Qnil Qnil; end_of_session; Close].
Proof. vm_compute. repeat split. Qed.

(** * Further properties of the code *)

(** ** Which keyword lists are accepted *)

Lemma json_parse_arg_accepts (key value : Lisp_Object)
    (conf : json_configuration) (pot : bool) :
  (exists conf', json_parse_arg key value conf pot = Ret conf')
  <-> valid_pair pot key value = true.
Proof.
  unfold json_parse_arg, valid_pair, object_type_of, array_type_of.
  destruct (EQ key QCobject_type) eqn:Ko.
  { apply EQ_Symbol_true in Ko. subst key. cbn.
    destruct pot; cbn.
    - destruct (EQ value Qhash_table); [split; eauto|].
      destruct (EQ value Qalist); [split; eauto|].
      destruct (EQ value Qplist); [split; eauto|].
      split; [intros [c H]; discriminate | discriminate].
    - split; [intros [c H]; discriminate | discriminate]. }
  rewrite Bool.andb_false_r.
  destruct (EQ key QCarray_type) eqn:Ka.
  { apply EQ_Symbol_true in Ka. subst key. cbn.
    destruct pot; cbn.
    - destruct (EQ value Qarray); [split; eauto|].
      destruct (EQ value Qlist); [split; eauto|].
      split; [intros [c H]; discriminate | discriminate].
    - split; [intros [c H]; discriminate | discriminate]. }
  rewrite Bool.andb_false_r.
  destruct (EQ key QCnull_object); [split; eauto|].
  destruct (EQ key QCfalse_object); [split; eauto|].
  destruct pot; split; try discriminate; intros [c H]; discriminate.
Qed.

Lemma json_parse_args_loop_accepts (args : list Lisp_Object) (pot : bool)
    (n : nat) :
  forall conf,
    (exists conf', json_parse_args_loop n args conf pot = Ret conf')
    <-> (forall j, (j < n)%nat ->
                   valid_pair pot (key_at args j) (value_at args j) = true).
Proof.
  induction n as [|n IH]; intros conf; cbn [json_parse_args_loop].
  - split; [intros _ j Hj; lia | eauto].
  - split.
    + intros [conf' H] j Hj.
      destruct (json_parse_arg (key_at args n) (value_at args n) conf pot)
        as [c1| |] eqn:Hstep; cbn [bind] in H; try discriminate.
      destruct (Nat.eq_dec j n) as [->|Hne].
      * apply (json_parse_arg_accepts _ _ conf pot). eauto.
      * apply (IH c1); [eauto | lia].
    + intros Hall.
      destruct (proj2 (json_parse_arg_accepts (key_at args n) (value_at args n)
                                              conf pot))
        as [c1 Hc1]; [apply Hall; lia|].
      rewrite Hc1. cbn [bind]. apply IH. intros j Hj. apply Hall. lia.
Qed.

(** X1.  [json_parse_args] accepts a keyword list exactly when its
    length is even and every pair is valid: [:null-object] and
    [:false-object] with any value, and, only where object types are
    parsed, [:object-type] with [hash-table], [alist] or [plist] and
    [:array-type] with [array] or [list].  One invalid pair anywhere,
    even one shadowed by an earlier occurrence of its keyword, makes
    the call signal. *)
Theorem json_parse_args_accepts_valid_pairs_only :
  forall (args : list Lisp_Object) (conf : json_configuration) (pot : bool),
    (exists conf',
        json_parse_args (Z.of_nat (length args)) args conf pot = Ret conf')
    <-> Nat.even (length args) = true
        /\ forall j, (2 * j + 1 < length args)%nat ->
                     valid_pair pot (key_at args j) (value_at args j) = true.
Proof.
  intros args conf pot. unfold json_parse_args.
  destruct (Z.rem (Z.of_nat (length args)) 2 =? 0) eqn:Hrem; cbn [negb].
  - apply Z.eqb_eq in Hrem.
    rewrite json_parse_args_loop_accepts.
    assert (Heven : Nat.even (length args) = true).
    { apply Nat.even_spec. rewrite Z.rem_mod_nonneg in Hrem by lia.
      exists (Z.to_nat (Z.of_nat (length args) / 2)).
      pose proof (Z.div_mod (Z.of_nat (length args)) 2 ltac:(lia)). lia. }
    split.
    + intros H. split; [exact Heven|].
      intros j Hj. apply H. now apply even_length_pairs.
    + intros [_ H] j Hj. apply H. now apply even_length_pairs.
  - apply Z.eqb_neq in Hrem. split.
    + intros [c H]. discriminate.
    + intros [Heven _]. exfalso. apply Hrem.
      apply Nat.even_spec in Heven. destruct Heven as [m Hm].
      rewrite Hm, Nat2Z.inj_mul, Z.mul_comm. apply Z.rem_mul. lia.
Qed.

Lemma json_parse_args_accepts_valid_pairs_only_witness :
  exists conf',
    json_parse_args (Z.of_nat (length twice_null_object)) twice_null_object
                    default_conf false
    = Ret conf'.
Proof.
  apply (proj2 (json_parse_args_accepts_valid_pairs_only
                  twice_null_object default_conf false)).
  split; [reflexivity|].
  intros [|[|j]] Hj; [reflexivity | reflexivity | cbn in Hj; lia].
Defined.

(** ** Sends that are refused, and sends that go through *)

(** X2.  When the mutex cannot be taken within the timeout,
    [json-rpc-send] signals [Failed to send message] without calling
    [send]: the log, the handle and the flags are as before, whether
    the handle is open or not. *)
Theorem json_rpc_send_gives_up_when_the_lock_times_out :
  forall (collab : Collaborator) (st : json_rpc_state)
         (object : Lisp_Object) (args : list Lisp_Object)
         (conf : json_configuration) (message : json_t),
    json_parse_args (Z.of_nat (length args)) args default_conf false
      = Ret conf ->
    lisp_to_json object conf = Ret message ->
    lock_available st = false ->
    Fjson_rpc_send object args st
    = (Signal (Fsignal_error "Failed to send message"),
       set_handle_mx st (tl (handle_mx st)))
    /\ log (snd (Fjson_rpc_send object args st)) = log st
    /\ handle (snd (Fjson_rpc_send object args st)) = handle st
    /\ done (snd (Fjson_rpc_send object args st)) = done st.
Proof.
  intros collab st object args conf message Hargs Hjson Hlock.
  assert (H : Fjson_rpc_send object args st
              = (Signal (Fsignal_error "Failed to send message"),
                 set_handle_mx st (tl (handle_mx st)))).
  { unfold Fjson_rpc_send, bindM, lift. rewrite Hargs, Hjson.
    unfold json_rpc_send_callback, can_use_handle, pthread_mutex_timedlock,
      bindM.
    unfold lock_available in Hlock.
    destruct (hd Acquired (handle_mx st)); [discriminate|]. reflexivity. }
  rewrite H. auto.
Qed.

Lemma json_rpc_send_gives_up_when_the_lock_times_out_witness :
  Fjson_rpc_send ping_object [] contended_state
  = (Signal (Fsignal_error "Failed to send message"),
     set_handle_mx contended_state (tl (handle_mx contended_state))).
Proof.
  apply (json_rpc_send_gives_up_when_the_lock_times_out
           Reference.collaborator contended_state ping_object []
           default_conf ping_message);
    reflexivity.
Defined.

(** X3.  On a connection whose handle is gone (the dispatch loop has
    closed it), with the mutex free, neither [json-rpc-send] nor
    [json-rpc-shutdown] returns or signals: [can_use_handle] releases
    the mutex through [end_using_handle], and its [assert
    (state->handle)] fails.  Nothing is sent and nothing is closed. *)
Theorem send_and_shutdown_abort_once_the_handle_is_gone :
  forall (collab : Collaborator) (st : json_rpc_state)
         (object : Lisp_Object) (args : list Lisp_Object)
         (conf : json_configuration) (message : json_t),
    json_parse_args (Z.of_nat (length args)) args default_conf false
      = Ret conf ->
    lisp_to_json object conf = Ret message ->
    handle st = None ->
    lock_available st = true ->
    fst (Fjson_rpc_send object args st) = Crash AssertionFailed
    /\ log (snd (Fjson_rpc_send object args st)) = log st
    /\ fst (Fjson_rpc_shutdown st) = Crash AssertionFailed
    /\ log (snd (Fjson_rpc_shutdown st)) = log st.
Proof.
  intros collab st object args conf message Hargs Hjson Hh Hlock.
  unfold Fjson_rpc_send, Fjson_rpc_shutdown, bindM, lift.
  rewrite Hargs, Hjson.
  destruct st as [mx hd msg er dn pd cs eb ebr lg].
  cbn [handle] in Hh. subst hd.
  unfold lock_available in Hlock. cbn [handle_mx] in Hlock.
  destruct mx as [|[] mx]; try discriminate; cbn; auto.
Qed.

Lemma send_and_shutdown_abort_once_the_handle_is_gone_witness :
  fst (Fjson_rpc_send ping_object []
                      (snd (Fjson_rpc quiet_handler [] fresh_state)))
  = Crash AssertionFailed
  /\ log (snd (Fjson_rpc_send ping_object []
                              (snd (Fjson_rpc quiet_handler [] fresh_state))))
     = log (snd (Fjson_rpc quiet_handler [] fresh_state))
  /\ fst (Fjson_rpc_shutdown (snd (Fjson_rpc quiet_handler [] fresh_state)))
     = Crash AssertionFailed
  /\ log (snd (Fjson_rpc_shutdown
                 (snd (Fjson_rpc quiet_handler [] fresh_state))))
     = log (snd (Fjson_rpc quiet_handler [] fresh_state)).
Proof.
  apply (send_and_shutdown_abort_once_the_handle_is_gone
           Reference.collaborator
           (snd (Fjson_rpc quiet_handler [] fresh_state))
           ping_object [] default_conf ping_message);
    reflexivity.
Defined.

(** X4.  When the handle is granted and [send] reports the whole
    buffer sent, [json-rpc-send] returns nil; [done] is untouched and
    the handle stays open.  With C7 this makes the value of
    [json-rpc-send] depend on nothing but the count [send] reports. *)
Theorem full_write_makes_json_rpc_send_return_nil :
  forall (collab : Collaborator) (st : json_rpc_state) (h : SSP_Handle)
         (object : Lisp_Object) (args : list Lisp_Object)
         (conf : json_configuration) (message : json_t)
         (string : list ascii),
    json_parse_args (Z.of_nat (length args)) args default_conf false
      = Ret conf ->
    lisp_to_json object conf = Ret message ->
    json_dumps message = Some string ->
    lock_available st = true ->
    handle st = Some h ->
    fst (ssp_send h (to_int (strlen (sprintf_frame (strlen string) string))))
    = to_int (strlen (sprintf_frame (strlen string) string)) ->
    exists st',
      Fjson_rpc_send object args st = (Ret Qnil, st')
      /\ sent_buffers (log st')
         = sent_buffers (log st) ++ [sprintf_frame (strlen string) string]
      /\ done st' = done st
      /\ is_some (handle st') = true.
Proof.
  intros collab st h object args conf message string
         Hargs Hjson Hdumps Hlock Hh Hfull.
  unfold Fjson_rpc_send, bindM, lift.
  rewrite Hargs, Hjson.
  rewrite (json_rpc_send_callback_usable st h message string Hlock Hh Hdumps).
  rewrite Hfull, Z.leb_refl, Z.eqb_refl. cbn [Z.ltb Z.compare].
  eexists. split; [reflexivity|]. fields.
  split; [|auto].
  unfold sent_buffers. rewrite flat_map_app. reflexivity.
Qed.

Lemma full_write_makes_json_rpc_send_return_nil_witness :
  exists st',
    Fjson_rpc_send ping_object [] fresh_state = (Ret Qnil, st')
    /\ sent_buffers (log st')
       = sent_buffers (log fresh_state)
         ++ [sprintf_frame (strlen ping_text) ping_text]
    /\ done st' = done fresh_state
    /\ is_some (handle st') = true.
Proof.
  apply (full_write_makes_json_rpc_send_return_nil
           Reference.collaborator fresh_state idle_handle ping_object []
           default_conf ping_message ping_text);
    reflexivity.
Defined.

(** ** Flags, fill level and captured diagnostics *)

Lemma persists_refl (s : json_rpc_state) : persists s s.
Proof. unfold persists. auto. Qed.

Lemma persists_trans (a b c : json_rpc_state) :
  persists a b -> persists b c -> persists a c.
Proof. unfold persists. intuition. Qed.

Lemma read_stdout_loop_persists (fuel : nat) (size : Z) :
  keeps persists (read_stdout_loop fuel size).
Proof.
  intros s. pose proof (read_stdout_loop_receives fuel size s) as [R D].
  destruct R as (_ & _ & C & _). destruct D as (D & _).
  split; [congruence|]. split; [congruence|].
  apply read_stdout_loop_keeps_fill_below_capacity.
Qed.

Lemma read_stdout_persists (size : Z) : keeps persists (read_stdout size).
Proof.
  intros s. unfold read_stdout.
  destruct (handle s);
    [apply read_stdout_loop_persists | apply persists_refl].
Qed.

Lemma read_until_loop_persists (room : nat) :
  forall needle output, keeps persists (read_until_loop room needle output).
Proof.
  induction room as [|room IH]; intros needle output;
    cbn [read_until_loop];
    (destruct (negb (terminated output));
     [apply (keeps_crashed _ persists_refl)|]);
    (destruct (strstr (cstr output) needle);
     [apply (keeps_ret _ persists_refl)|]);
    (apply (keeps_bind _ persists_trans); [apply read_stdout_persists|]);
    intros bytes; destruct (is_empty bytes);
    keeps_with persists_refl persists_trans.
  apply IH.
Qed.

Lemma set_done_persists (s : json_rpc_state) : persists s (set_done s true).
Proof. unfold persists, buffer_wf. fields. auto. Qed.

Lemma read_payload_persists (fuel : nat) :
  forall allocated msg has_to_read,
    keeps persists (read_payload fuel allocated msg has_to_read).
Proof.
  induction fuel as [|fuel IH]; intros allocated msg has_to_read;
    cbn [read_payload];
    (destruct (0 <? has_to_read); [|apply (keeps_ret _ persists_refl)]);
    (apply (keeps_bind _ persists_trans); [apply read_stdout_persists|]);
    intros bytes;
    (destruct (negb (is_empty bytes) && negb allocated);
     [apply (keeps_crashed _ persists_refl)|]);
    (destruct (to_int (Z.of_nat (length bytes)) =? 0);
     [apply (keeps_bind _ persists_trans);
      [apply keeps_modify; intros s; apply set_done_persists
      |intros _; apply (keeps_ret _ persists_refl)]
     |]).
  - apply (keeps_ret _ persists_refl).
  - apply IH.
Qed.

Section Persistence.

Context {collab : Collaborator}.

Lemma json_rpc_callback_persists : keeps persists json_rpc_callback.
Proof.
  unfold json_rpc_callback, read_until.
  apply (keeps_bind _ persists_trans); [apply read_until_loop_persists|].
  intros marker. destruct (fst marker).
  - apply (keeps_bind _ persists_trans); [apply read_until_loop_persists|].
    intros header. destruct (fst header).
    + apply (keeps_bind _ persists_trans);
        [apply (keeps_get _ persists_refl)|].
      intros fuel.
      apply (keeps_bind _ persists_trans); [apply read_payload_persists|].
      intros msg s. unfold bindM, get.
      destruct (done s) eqn:Hd; cbn [negb snd]; [apply persists_refl|].
      destruct (json_loads (cstr msg)); unfold modify; cbn [snd];
        unfold persists, buffer_wf; fields; rewrite Hd; auto.
    + apply keeps_modify; intros s; apply set_done_persists.
  - apply keeps_modify; intros s; apply set_done_persists.
Qed.

Lemma emit_persists (s : json_rpc_state) (e : effect) : persists s (emit s e).
Proof. unfold persists, buffer_wf. fields. auto. Qed.

Lemma Ffuncall_persists (callback : lisp_function) (a b c : Lisp_Object) :
  keeps persists (Ffuncall callback a b c).
Proof.
  unfold Ffuncall.
  apply (keeps_bind _ persists_trans).
  - apply keeps_modify. intros s. apply emit_persists.
  - intros _. keeps_with persists_refl persists_trans.
Qed.

Lemma Fjson_rpc_loop_persists (fuel : nat) :
  forall callback conf, keeps persists (Fjson_rpc_loop fuel callback conf).
Proof.
  induction fuel as [|fuel IH]; intros callback conf;
    cbn [Fjson_rpc_loop]; [apply (keeps_ret _ persists_refl)|].
  apply (keeps_bind _ persists_trans); [apply (keeps_get _ persists_refl)|].
  intros d. destruct d; [apply (keeps_ret _ persists_refl)|].
  apply (keeps_bind _ persists_trans); [apply (keeps_get _ persists_refl)|].
  intros [h|]; [|apply (keeps_crashed _ persists_refl)].
  destruct (ssp_isalive h); [|apply (keeps_ret _ persists_refl)].
  apply (keeps_bind _ persists_trans); [apply json_rpc_callback_persists|].
  intros _.
  apply (keeps_bind _ persists_trans); [apply (keeps_get _ persists_refl)|].
  intros d'. apply (keeps_bind _ persists_trans); [|intros _; apply IH].
  destruct (negb d'); [|apply (keeps_ret _ persists_refl)].
  apply (keeps_bind _ persists_trans); [apply (keeps_get _ persists_refl)|].
  intros [value|].
  - apply (keeps_bind _ persists_trans);
      [apply (keeps_lift _ persists_refl)|].
    intros msg.
    apply (keeps_bind _ persists_trans).
    + apply keeps_modify. intros s.
      unfold persists, buffer_wf; fields; auto.
    + intros _. apply Ffuncall_persists.
  - apply (keeps_bind _ persists_trans);
      [apply (keeps_get _ persists_refl)|].
    intros e. apply Ffuncall_persists.
Qed.

Lemma Fjson_rpc_persists (callback : lisp_function)
    (args : list Lisp_Object) :
  keeps persists (Fjson_rpc callback args).
Proof.
  unfold Fjson_rpc.
  apply (keeps_bind _ persists_trans); [apply (keeps_lift _ persists_refl)|].
  intros conf.
  apply (keeps_bind _ persists_trans); [apply (keeps_get _ persists_refl)|].
  intros fuel.
  apply (keeps_bind _ persists_trans); [apply Fjson_rpc_loop_persists|].
  intros _.
  apply (keeps_bind _ persists_trans); [apply Ffuncall_persists|].
  intros _.
  apply (keeps_bind _ persists_trans).
  { intros s. unfold pthread_mutex_timedlock. cbn [snd].
    unfold persists, buffer_wf; fields; auto. }
  intros o.
  apply (keeps_bind _ persists_trans);
    [|intros _; apply (keeps_ret _ persists_refl)].
  destruct o; [|apply (keeps_ret _ persists_refl)].
  apply (keeps_bind _ persists_trans); [apply (keeps_get _ persists_refl)|].
  intros [h|]; [|apply (keeps_crashed _ persists_refl)].
  apply (keeps_bind _ persists_trans);
    [|intros _; apply (keeps_ret _ persists_refl)].
  apply keeps_modify. intros s. unfold persists, buffer_wf; fields; auto.
Qed.

Lemma can_use_handle_persists : keeps persists can_use_handle.
Proof.
  unfold can_use_handle, end_using_handle, pthread_mutex_unlock.
  apply (keeps_bind _ persists_trans).
  { intros s. unfold pthread_mutex_timedlock. cbn [snd].
    unfold persists, buffer_wf; fields; auto. }
  intros [|]; [|apply (keeps_ret _ persists_refl)].
  apply (keeps_bind _ persists_trans); [apply (keeps_get _ persists_refl)|].
  intros h. destruct (is_some h);
    keeps_with persists_refl persists_trans.
Qed.

Lemma Fjson_rpc_send_persists (object : Lisp_Object)
    (args : list Lisp_Object) :
  keeps persists (Fjson_rpc_send object args).
Proof.
  unfold Fjson_rpc_send, json_rpc_send_callback.
  apply (keeps_bind _ persists_trans); [apply (keeps_lift _ persists_refl)|].
  intros conf.
  apply (keeps_bind _ persists_trans); [apply (keeps_lift _ persists_refl)|].
  intros message.
  apply (keeps_bind _ persists_trans);
    [|intros res; destruct (res <? 0);
      keeps_with persists_refl persists_trans].
  apply (keeps_bind _ persists_trans); [apply can_use_handle_persists|].
  intros usable. destruct usable; [|apply (keeps_ret _ persists_refl)].
  destruct (json_dumps message) as [string|];
    [|apply (keeps_crashed _ persists_refl)].
  apply (keeps_bind _ persists_trans); [apply (keeps_get _ persists_refl)|].
  intros [h|]; [|apply (keeps_crashed _ persists_refl)].
  apply (keeps_bind _ persists_trans); [apply (keeps_get _ persists_refl)|].
  intros cancel. destruct (ssp_send h _) as [bytes_sent h'].
  apply (keeps_bind _ persists_trans).
  { apply keeps_modify. intros s. unfold persists, buffer_wf; fields; auto. }
  intros _. unfold end_using_handle, pthread_mutex_unlock.
  keeps_with persists_refl persists_trans.
Qed.

Lemma Fjson_rpc_shutdown_persists : keeps persists Fjson_rpc_shutdown.
Proof.
  unfold Fjson_rpc_shutdown.
  apply (keeps_bind _ persists_trans).
  { apply keeps_modify. intros s. unfold persists, buffer_wf; fields; auto. }
  intros _.
  apply (keeps_bind _ persists_trans); [apply can_use_handle_persists|].
  intros usable.
  apply (keeps_bind _ persists_trans);
    [|intros _; apply (keeps_ret _ persists_refl)].
  destruct usable; [|apply (keeps_ret _ persists_refl)].
  apply (keeps_bind _ persists_trans).
  { apply keeps_modify. intros s. apply emit_persists. }
  intros _. unfold end_using_handle, pthread_mutex_unlock.
  keeps_with persists_refl persists_trans.
Qed.

End Persistence.

(** X5.  The termination flag [done] and the send-cancellation flag
    [cancel_send] are never cleared: once one of them is raised it is
    still raised after any call of [json-rpc], [json-rpc-send] or
    [json-rpc-shutdown], whatever the outcome of the call; and
    [json-rpc-shutdown] always leaves [cancel_send] raised. *)
Theorem flags_are_never_cleared :
  forall (collab : Collaborator) (st : json_rpc_state)
         (callback : lisp_function) (object : Lisp_Object)
         (args : list Lisp_Object),
    (done st = true ->
     done (snd (Fjson_rpc callback args st)) = true
     /\ done (snd (Fjson_rpc_send object args st)) = true
     /\ done (snd (Fjson_rpc_shutdown st)) = true)
    /\ (cancel_send st = true ->
        cancel_send (snd (Fjson_rpc callback args st)) = true
        /\ cancel_send (snd (Fjson_rpc_send object args st)) = true)
    /\ cancel_send (snd (Fjson_rpc_shutdown st)) = true.
Proof.
  intros collab st callback object args.
  pose proof (Fjson_rpc_persists callback args st) as (D1 & C1 & _).
  pose proof (Fjson_rpc_send_persists object args st) as (D2 & C2 & _).
  pose proof (Fjson_rpc_shutdown_persists st) as (D3 & _ & _).
  split; [auto|]. split; [auto|].
  unfold Fjson_rpc_shutdown.
  pose proof (can_use_handle_persists (set_cancel_send st true)) as (_ & C & _).
  unfold bindM, modify. specialize (C eq_refl).
  destruct (can_use_handle (set_cancel_send st true)) as [[[]| |] s1];
    cbn [snd] in *; try exact C.
  - unfold end_using_handle, bindM, get, assert, pthread_mutex_unlock, ret,
      crashed.
    fields. destruct (is_some (handle s1)); cbn [snd]; fields; exact C.
Qed.

Lemma flags_are_never_cleared_witness :
  done (snd (Fjson_rpc quiet_handler []
                       (snd (Fjson_rpc quiet_handler [] fresh_state))))
  = true
  /\ done (snd (Fjson_rpc_send ping_object []
                               (snd (Fjson_rpc quiet_handler []
                                               fresh_state))))
     = true
  /\ done (snd (Fjson_rpc_shutdown
                  (snd (Fjson_rpc quiet_handler [] fresh_state))))
     = true.
Proof.
  apply (proj1 (flags_are_never_cleared
                  Reference.collaborator
                  (snd (Fjson_rpc quiet_handler [] fresh_state))
                  quiet_handler ping_object [])).
  reflexivity.
Defined.

(** X6.  The fill level of the diagnostic buffer stays within
    [0, ERROR_BUFFER_SIZE) across a whole run of [json-rpc], whatever
    the child writes on either stream and however the run ends: the
    text [json-rpc-stderr] returns is always shorter than 4 MiB. *)
Theorem fill_level_stays_below_capacity :
  forall (collab : Collaborator) (st : json_rpc_state)
         (callback : lisp_function) (args : list Lisp_Object),
    buffer_wf st ->
    buffer_wf (snd (Fjson_rpc callback args st))
    /\ Z.of_nat (length (captured (snd (Fjson_rpc callback args st))))
       < ERROR_BUFFER_SIZE.
Proof.
  intros collab st callback args Hwf.
  pose proof (Fjson_rpc_persists callback args st) as (_ & _ & B).
  specialize (B Hwf). split; [exact B|].
  unfold captured. rewrite length_map, length_seq.
  unfold buffer_wf in B. lia.
Qed.

Lemma fill_level_stays_below_capacity_witness :
  buffer_wf (snd (Fjson_rpc quiet_handler [] garbled_state))
  /\ Z.of_nat (length (captured (snd (Fjson_rpc quiet_handler []
                                                garbled_state))))
     < ERROR_BUFFER_SIZE.
Proof.
  apply (fill_level_stays_below_capacity
           Reference.collaborator garbled_state quiet_handler []).
  split; vm_compute; [discriminate | reflexivity].
Defined.

(** ** Diagnostics are conserved *)

Lemma map_nth_shifted {A} (l : list A) (d : A) :
  forall a, map (fun i => nth (i - a) l d) (seq a (length l)) = l.
Proof.
  induction l as [|x l IH]; intros a; [reflexivity|].
  cbn [length seq map]. rewrite Nat.sub_diag. cbn [nth]. f_equal.
  rewrite <- (IH (S a)) at 2.
  apply map_ext_in. intros i Hi. apply in_seq in Hi.
  replace (i - a)%nat with (S (i - S a)) by lia. reflexivity.
Qed.

Lemma captured_after_capture (bytes : list ascii) (st : json_rpc_state) :
  0 <= error_buffer_read st ->
  error_buffer_read st + Z.of_nat (length bytes) < ERROR_BUFFER_SIZE ->
  captured (snd (capture_stderr bytes st)) = captured st ++ bytes.
Proof.
  intros Hpos Hroom. pose proof ERROR_BUFFER_SIZE_value as Hsize.
  unfold capture_stderr.
  destruct (Z.of_nat (length bytes) =? 0) eqn:Hzero.
  - apply Z.eqb_eq in Hzero. destruct bytes; [|cbn [length] in Hzero; lia].
    cbn [snd]. now rewrite app_nil_r.
  - rewrite to_int_small by (unfold INT_MAX; lia).
    destruct (_ =? ERROR_BUFFER_SIZE) eqn:Hfull;
      [apply Z.eqb_eq in Hfull; lia|].
    cbn [snd]. unfold captured. fields.
    replace (Z.to_nat (error_buffer_read st + Z.of_nat (length bytes)))
      with (Z.to_nat (error_buffer_read st) + length bytes)%nat by lia.
    rewrite seq_app, map_app. cbn [Nat.add]. f_equal.
    + apply map_ext_in. intros i Hi. apply in_seq in Hi.
      unfold write_bytes.
      destruct (error_buffer_read st <=? Z.of_nat i) eqn:E;
        [apply Z.leb_le in E; lia | reflexivity].
    + rewrite <- (map_nth_shifted bytes NUL (Z.to_nat (error_buffer_read st)))
        at 2.
      apply map_ext_in. intros i Hi. apply in_seq in Hi.
      unfold write_bytes.
      destruct (error_buffer_read st <=? Z.of_nat i) eqn:E1;
        [|apply Z.leb_gt in E1; lia].
      destruct (Z.of_nat i <? error_buffer_read st + Z.of_nat (length bytes))
        eqn:E2; [|apply Z.ltb_ge in E2; lia].
      cbn [andb]. f_equal. lia.
Qed.

Lemma ssp_recv_stderr_split (h : SSP_Handle) (size stderr_size : Z) :
  r_stderr (fst (ssp_recv h size stderr_size))
  ++ stderr_pipe (snd (ssp_recv h size stderr_size))
  = stderr_pipe h.
Proof.
  unfold ssp_recv. destruct (schedule h); cbn [fst snd r_stderr stderr_pipe].
  - reflexivity.
  - apply firstn_skipn.
Qed.

Lemma conserves_refl (s : json_rpc_state) : conserves s s.
Proof. intros h Hh Hq. exists h. auto. Qed.

Lemma conserves_trans (a b c : json_rpc_state) :
  conserves a b -> conserves b c -> conserves a c.
Proof.
  intros Hab Hbc h Hh Hq.
  destruct (Hab h Hh Hq) as (h1 & Hh1 & Hq1 & E1).
  destruct (Hbc h1 Hh1 Hq1) as (h2 & Hh2 & Hq2 & E2).
  exists h2. split; [exact Hh2|]. split; [exact Hq2|]. congruence.
Qed.

Lemma read_stdout_loop_conserves (fuel : nat) :
  forall size, keeps conserves (read_stdout_loop fuel size).
Proof.
  pose proof ERROR_BUFFER_SIZE_value as Hcap.
  induction fuel as [|fuel IH]; intros size st h Hh [Q1 Q2];
    cbn [read_stdout_loop]; rewrite Hh;
    (assert (Herr : 0 <= to_size_t (ERROR_BUFFER_SIZE - error_buffer_read st))
       by (rewrite to_size_t_small by lia; lia));
    pose proof (ssp_recv_stderr_fits h size _ Herr) as Hfits;
    pose proof (ssp_recv_stderr_split h size
                  (to_size_t (ERROR_BUFFER_SIZE - error_buffer_read st)))
      as Hsplit;
    destruct (ssp_recv h size
                (to_size_t (ERROR_BUFFER_SIZE - error_buffer_read st)))
      as [r h'];
    cbn [fst snd] in Hfits, Hsplit;
    (assert (Hlen : (length (r_stderr r) + length (stderr_pipe h')
                     = length (stderr_pipe h))%nat)
       by (rewrite <- Hsplit, length_app; reflexivity));
    pose proof (captured_after_capture (r_stderr r)
                  (set_handle st (Some h'))) as Hcapt;
    (destruct (capture_stderr_quiet (r_stderr r) (set_handle st (Some h')))
       as (st1 & Hcapture & _ & Hh1 & Hfill);
     [fields; lia | fields; lia |]);
    rewrite Hcapture in Hcapt; cbn [snd] in Hcapt;
    fields in Hh1; fields in Hfill;
    (assert (Hstep : handle st1 = Some h' /\ quiet st1 h'
                     /\ captured st1 ++ stderr_pipe h'
                        = captured st ++ stderr_pipe h);
     [ split; [exact Hh1|]; split; [unfold quiet; lia|];
       rewrite Hcapt by (fields; lia);
       rewrite <- app_assoc, Hsplit; reflexivity | ]);
    unfold bindM; rewrite Hcapture;
    (destruct (negb (is_empty (r_stdout r)));
     [cbn [snd]; exists h'; exact Hstep|]);
    (destruct ((0 <? to_size_t (r_res r)) || ssp_isalive h');
     [|cbn [snd]; exists h'; exact Hstep]).
  - cbn [snd]. exists h'. exact Hstep.
  - destruct Hstep as (Hs1 & Hs2 & Hs3).
    destruct (IH size st1 h' Hs1 Hs2) as (h2 & H2 & Q & E).
    exists h2. split; [exact H2|]. split; [exact Q|]. congruence.
Qed.

Lemma read_stdout_conserves (size : Z) : keeps conserves (read_stdout size).
Proof.
  intros s. unfold read_stdout.
  destruct (handle s);
    [apply read_stdout_loop_conserves | apply conserves_refl].
Qed.

Lemma read_until_loop_conserves (room : nat) :
  forall needle output, keeps conserves (read_until_loop room needle output).
Proof.
  induction room as [|room IH]; intros needle output;
    cbn [read_until_loop];
    (destruct (negb (terminated output));
     [apply (keeps_crashed _ conserves_refl)|]);
    (destruct (strstr (cstr output) needle);
     [apply (keeps_ret _ conserves_refl)|]);
    (apply (keeps_bind _ conserves_trans); [apply read_stdout_conserves|]);
    intros bytes; destruct (is_empty bytes);
    keeps_with conserves_refl conserves_trans.
  apply IH.
Qed.

Lemma conserves_same (s s' : json_rpc_state) :
  handle s' = handle s ->
  error_buffer s' = error_buffer s ->
  error_buffer_read s' = error_buffer_read s ->
  conserves s s'.
Proof.
  intros Hh Hb Hr h Hs Hq. exists h.
  unfold quiet, captured in *. rewrite Hh, Hb, Hr. auto.
Qed.

Lemma read_payload_conserves (fuel : nat) :
  forall allocated msg has_to_read,
    keeps conserves (read_payload fuel allocated msg has_to_read).
Proof.
  induction fuel as [|fuel IH]; intros allocated msg has_to_read;
    cbn [read_payload];
    (destruct (0 <? has_to_read); [|apply (keeps_ret _ conserves_refl)]);
    (apply (keeps_bind _ conserves_trans); [apply read_stdout_conserves|]);
    intros bytes;
    (destruct (negb (is_empty bytes) && negb allocated);
     [apply (keeps_crashed _ conserves_refl)|]);
    (destruct (to_int (Z.of_nat (length bytes)) =? 0);
     [apply (keeps_bind _ conserves_trans);
      [apply keeps_modify; intros s; now apply conserves_same
      |intros _; apply (keeps_ret _ conserves_refl)]
     |]).
  - apply (keeps_ret _ conserves_refl).
  - apply IH.
Qed.

Section Conservation.

Context {collab : Collaborator}.

Lemma json_rpc_callback_conserves : keeps conserves json_rpc_callback.
Proof.
  unfold json_rpc_callback, read_until.
  apply (keeps_bind _ conserves_trans); [apply read_until_loop_conserves|].
  intros marker. destruct (fst marker).
  - apply (keeps_bind _ conserves_trans); [apply read_until_loop_conserves|].
    intros header. destruct (fst header).
    + apply (keeps_bind _ conserves_trans);
        [apply (keeps_get _ conserves_refl)|].
      intros fuel.
      apply (keeps_bind _ conserves_trans); [apply read_payload_conserves|].
      intros msg.
      apply (keeps_bind _ conserves_trans);
        [apply (keeps_get _ conserves_refl)|].
      intros d. destruct (negb d); [|apply (keeps_ret _ conserves_refl)].
      destruct (json_loads (cstr msg)); apply keeps_modify;
        intros s; now apply conserves_same.
    + apply keeps_modify; intros s; now apply conserves_same.
  - apply keeps_modify; intros s; now apply conserves_same.
Qed.

Lemma Ffuncall_conserves (callback : lisp_function) (a b c : Lisp_Object) :
  keeps conserves (Ffuncall callback a b c).
Proof.
  unfold Ffuncall.
  apply (keeps_bind _ conserves_trans).
  - apply keeps_modify. intros s. now apply conserves_same.
  - intros _. keeps_with conserves_refl conserves_trans.
Qed.

Lemma Fjson_rpc_loop_conserves (fuel : nat) :
  forall callback conf, keeps conserves (Fjson_rpc_loop fuel callback conf).
Proof.
  induction fuel as [|fuel IH]; intros callback conf;
    cbn [Fjson_rpc_loop]; [apply (keeps_ret _ conserves_refl)|].
  apply (keeps_bind _ conserves_trans); [apply (keeps_get _ conserves_refl)|].
  intros d. destruct d; [apply (keeps_ret _ conserves_refl)|].
  apply (keeps_bind _ conserves_trans); [apply (keeps_get _ conserves_refl)|].
  intros [h|]; [|apply (keeps_crashed _ conserves_refl)].
  destruct (ssp_isalive h); [|apply (keeps_ret _ conserves_refl)].
  apply (keeps_bind _ conserves_trans); [apply json_rpc_callback_conserves|].
  intros _.
  apply (keeps_bind _ conserves_trans); [apply (keeps_get _ conserves_refl)|].
  intros d'. apply (keeps_bind _ conserves_trans); [|intros _; apply IH].
  destruct (negb d'); [|apply (keeps_ret _ conserves_refl)].
  apply (keeps_bind _ conserves_trans); [apply (keeps_get _ conserves_refl)|].
  intros [value|].
  - apply (keeps_bind _ conserves_trans);
      [apply (keeps_lift _ conserves_refl)|].
    intros msg.
    apply (keeps_bind _ conserves_trans).
    + apply keeps_modify. intros s. now apply conserves_same.
    + intros _. apply Ffuncall_conserves.
  - apply (keeps_bind _ conserves_trans);
      [apply (keeps_get _ conserves_refl)|].
    intros e. apply Ffuncall_conserves.
Qed.

End Conservation.

Lemma Fjson_rpc_stderr_captured (s : json_rpc_state) :
  Fjson_rpc_stderr s = (Ret (LString (captured s)), s).
Proof. reflexivity. Qed.

(** X7.  On a connection whose diagnostics fit in the buffer, the
    dispatch loop loses and reorders none of them, whatever the
    interleaving with the standard output: if [json-rpc-stderr] gave
    [before] when the loop of [json-rpc] started, it gives after the
    loop a text [after] such that [after], followed by what the child
    has still to write on its diagnostic stream, is [before] followed
    by what the child had to write at the start. *)
Theorem diagnostics_are_conserved :
  forall (collab : Collaborator) (fuel : nat) (callback : lisp_function)
         (conf : json_configuration) (st : json_rpc_state) (h : SSP_Handle)
         (before : list ascii),
    handle st = Some h ->
    quiet st h ->
    fst (Fjson_rpc_stderr st) = Ret (LString before) ->
    exists h' after,
      handle (snd (Fjson_rpc_loop fuel callback conf st)) = Some h'
      /\ fst (Fjson_rpc_stderr (snd (Fjson_rpc_loop fuel callback conf st)))
         = Ret (LString after)
      /\ after ++ stderr_pipe h' = before ++ stderr_pipe h.
Proof.
  intros collab fuel callback conf st h before Hh Hq Hbefore.
  rewrite Fjson_rpc_stderr_captured in Hbefore. cbn [fst] in Hbefore.
  injection Hbefore as <-.
  destruct (Fjson_rpc_loop_conserves fuel callback conf st h Hh Hq)
    as (h' & H1 & _ & H2).
  exists h', (captured (snd (Fjson_rpc_loop fuel callback conf st))).
  rewrite Fjson_rpc_stderr_captured. auto.
Qed.

Lemma diagnostics_are_conserved_witness :
  exists h' after,
    handle (snd (Fjson_rpc_loop 62 quiet_handler default_conf chatty_state))
    = Some h'
    /\ fst (Fjson_rpc_stderr
              (snd (Fjson_rpc_loop 62 quiet_handler default_conf
                                   chatty_state)))
       = Ret (LString after)
    /\ after ++ stderr_pipe h' = [] ++ stderr_pipe chatty_handle.
Proof.
  apply (diagnostics_are_conserved
           Reference.collaborator 62 quiet_handler default_conf
           chatty_state chatty_handle []).
  - reflexivity.
  - split; vm_compute; [discriminate | reflexivity].
  - reflexivity.
Defined.

(** ** A responsive child *)

(** One [recv] from a responsive child whose stream is not empty
    yields at least one byte and uses one entry of the schedule. *)
Lemma ssp_recv_responsive (h : SSP_Handle) (size stderr_size : Z) :
  responsive h = true ->
  (0 < length (schedule h))%nat ->
  (0 < length (stdout_pipe h))%nat ->
  0 < size ->
  let r := fst (ssp_recv h size stderr_size) in
  let h' := snd (ssp_recv h size stderr_size) in
  (0 < length (r_stdout r))%nat
  /\ responsive h' = true
  /\ length (schedule h) = S (length (schedule h')).
Proof.
  unfold responsive, ssp_recv. intros Hresp Hsched Hpipe Hsize.
  destruct (schedule h) as [|e rest]; [cbn [length] in Hsched; lia|].
  cbn [forallb] in Hresp. apply Bool.andb_true_iff in Hresp.
  destruct Hresp as [He Hrest]. apply Nat.ltb_lt in He.
  cbn [fst snd r_stdout schedule length].
  split; [|split; [exact Hrest | reflexivity]].
  rewrite length_firstn. unfold MAX_RW_COUNT. lia.
Qed.

Lemma read_stdout_responsive (size : Z) (st : json_rpc_state)
    (h : SSP_Handle) :
  handle st = Some h ->
  quiet st h ->
  responsive h = true ->
  (0 < length (schedule h))%nat ->
  (0 < length (stdout_pipe h))%nat ->
  0 < size ->
  exists k st' h',
    read_stdout size st = (Ret (firstn k (stdout_pipe h)), st')
    /\ (0 < k <= length (stdout_pipe h))%nat
    /\ Z.of_nat k <= size
    /\ Z.of_nat k <= MAX_RW_COUNT
    /\ receives st st'
    /\ handle st' = Some h'
    /\ quiet st' h'
    /\ stdout_pipe h' = skipn k (stdout_pipe h)
    /\ responsive h' = true
    /\ length (schedule h) = S (length (schedule h')).
Proof.
  pose proof ERROR_BUFFER_SIZE_value as Hcap.
  intros Hh [Q1 Q2] Hresp Hsched Hpipe0 Hsize.
  unfold read_stdout. rewrite Hh.
  destruct (length (schedule h)) as [|fuel] eqn:Hfuel; [lia|].
  cbn [read_stdout_loop]. rewrite Hh.
  assert (Herr : 0 <= to_size_t (ERROR_BUFFER_SIZE - error_buffer_read st))
    by (rewrite to_size_t_small by lia; lia).
  pose proof (ssp_recv_spec h size _ ltac:(lia) Herr) as Hrecv.
  pose proof (ssp_recv_responsive h size
                (to_size_t (ERROR_BUFFER_SIZE - error_buffer_read st))
                Hresp ltac:(lia) Hpipe0 Hsize) as Hgive.
  destruct (ssp_recv h size
              (to_size_t (ERROR_BUFFER_SIZE - error_buffer_read st)))
    as [r h'].
  cbn [fst snd] in Hrecv, Hgive.
  destruct Hrecv as (Hout & Hpipe & Hk & Hks & Hkm & Hel & Hep & Hs & Hs').
  destruct Hgive as (Hpos & Hresp' & Hlen).
  destruct (capture_stderr_quiet (r_stderr r) (set_handle st (Some h')))
    as (st1 & Hcapture & Hrec & Hh1 & Hfill);
    [fields; lia | fields; lia |].
  fields in Hh1. fields in Hfill.
  unfold bindM. rewrite Hcapture.
  assert (Hne : is_empty (r_stdout r) = false)
    by now apply firstn_length_nonempty.
  rewrite Hne. cbn [negb].
  exists (length (r_stdout r)), st1, h'. rewrite <- Hout.
  split; [reflexivity|].
  split; [lia|]. split; [exact Hks|]. split; [exact Hkm|].
  split.
  { apply receives_trans with (set_handle st (Some h')); [|exact Hrec].
    unfold receives, reads. fields. rewrite Hh. auto 10. }
  split; [exact Hh1|].
  split; [unfold quiet; lia|].
  split; [exact Hpipe|].
  split; [exact Hresp'|]. lia.
Qed.





Section Decoding.

Context {collab : Collaborator}.


End Decoding.





(** ** A needle that does not come *)

Lemma read_until_loop_overrun (room : nat) :
  forall (needle output : list ascii) (st : json_rpc_state)
         (h : SSP_Handle),
    handle st = Some h ->
    quiet st h ->
    responsive h = true ->
    (room < length (schedule h))%nat ->
    (room < length (stdout_pipe h))%nat ->
    (forall j, (j <= room)%nat ->
               strstr (cstr (output ++ firstn j (stdout_pipe h))) needle
               = false) ->
    exists st' h',
      read_until_loop room needle output st = (Crash BufferOverrun, st')
      /\ receives st st'
      /\ handle st' = Some h'.
Proof.
  induction room as [|room IH];
    intros needle output st h Hh Hq Hresp Hsched Hpipe Hnever;
    cbn [read_until_loop];
    (destruct (terminated output); cbn [negb];
     [|exists st, h; unfold crashed; auto using receives_refl]);
    pose proof (Hnever 0%nat ltac:(lia)) as Hhere;
    cbn [firstn] in Hhere; rewrite app_nil_r in Hhere; rewrite Hhere;
    unfold bindM;
    destruct (read_stdout_responsive 1 st h Hh Hq Hresp ltac:(lia)
                ltac:(lia) ltac:(lia))
      as (k & s1 & h1 & Hread & Hk & Hk1 & _ & Hrec & Hh1 & Hq1 & Hp1
          & Hresp1 & Hlen1);
    (assert (k = 1%nat) by lia; subst k);
    rewrite Hread;
    (assert (Hne : is_empty (firstn 1 (stdout_pipe h)) = false);
     [apply firstn_length_nonempty; rewrite length_firstn; lia|]);
    rewrite Hne.
  - exists s1, h1. unfold crashed. auto.
  - destruct (IH needle (output ++ firstn 1 (stdout_pipe h)) s1 h1
                Hh1 Hq1 Hresp1)
      as (s2 & h2 & Hrun & Hrec2 & Hh2).
    + lia.
    + rewrite Hp1, length_skipn. lia.
    + intros j Hj. rewrite Hp1, <- app_assoc, <- firstn_add.
      apply Hnever. lia.
    + exists s2, h2. split; [exact Hrun|].
      split; [eapply receives_trans; eassumption | exact Hh2].
Qed.

Lemma never_within_spec (n : nat) (needle stream : list ascii) (j : nat) :
  never_within n needle stream = true ->
  (j < n)%nat ->
  strstr (cstr (firstn j stream)) needle = false.
Proof.
  unfold never_within. intros H Hj. rewrite forallb_forall in H.
  apply Bool.negb_true_iff, H, in_seq. lia.
Qed.

(** X10.  [read_until] does not bound what it stores.  When a
    responsive child sends more than [BUFFER_SIZE + 1] bytes before
    the marker is complete, the first turn of [json_rpc_callback]
    runs past the end of its array [data]: the reader does not
    return. *)
Theorem late_marker_overruns_the_array :
  forall (collab : Collaborator) (st : json_rpc_state) (h : SSP_Handle),
    handle st = Some h ->
    quiet st h ->
    responsive h = true ->
    (Z.to_nat (BUFFER_SIZE + 1) < length (schedule h))%nat ->
    (Z.to_nat (BUFFER_SIZE + 1) < length (stdout_pipe h))%nat ->
    never_within (Z.to_nat (BUFFER_SIZE + 2)) MARKER (stdout_pipe h) = true ->
    fst (read_until MARKER st) = Crash BufferOverrun
    /\ fst (json_rpc_callback st) = Crash BufferOverrun.
Proof.
  intros collab st h Hh Hq Hresp Hsched Hpipe Hnever.
  destruct (read_until_loop_overrun (Z.to_nat (BUFFER_SIZE + 1)) MARKER []
              st h Hh Hq Hresp Hsched Hpipe)
    as (s' & h' & Hrun & _).
  { intros j Hj. cbn [app].
    apply (never_within_spec _ _ _ _ Hnever).
    unfold BUFFER_SIZE in *. lia. }
  unfold json_rpc_callback, bindM, read_until. rewrite Hrun.
  split; reflexivity.
Qed.

Lemma late_marker_overruns_the_array_witness :
  fst (read_until MARKER flooding_state) = Crash BufferOverrun
  /\ fst (json_rpc_callback flooding_state) = Crash BufferOverrun.
Proof.
  apply (late_marker_overruns_the_array
           Reference.collaborator flooding_state flooding_handle).
  - reflexivity.
  - split; vm_compute; [discriminate | reflexivity].
  - vm_compute. reflexivity.
  - vm_compute. lia.
  - vm_compute. lia.
  - vm_compute. reflexivity.
Defined.

(** ** Leaving [json-rpc] by a signal *)

Lemma running_delivery_handler_call (ds : list effect) :
  Forall running_delivery ds -> Forall handler_call ds.
Proof.
  apply Forall_impl. intros e (msg & err & ->). now exists msg, err, Qnil.
Qed.

Section Signals.

Context {collab : Collaborator}.

Lemma Fjson_rpc_signals (callback : lisp_function)
    (args : list Lisp_Object) (st st' : json_rpc_state) (e : lisp_error) :
  Fjson_rpc callback args st = (Signal e, st') ->
  handle_mx st' = handle_mx st
  /\ is_some (handle st') = is_some (handle st)
  /\ exists ds, log st' = log st ++ ds /\ Forall handler_call ds.
Proof.
  unfold Fjson_rpc, bindM, lift.
  destruct (json_parse_args _ args default_conf true) as [conf| |].
  2: { intros H. injection H as _ <-.
       split; [reflexivity|]. split; [reflexivity|].
       exists []. now rewrite app_nil_r. }
  2: discriminate.
  unfold get at 1.
  pose proof (Fjson_rpc_loop_delivers (schedule_length st + 2)
                                      callback conf st) as Hloop.
  destruct (Fjson_rpc_loop (schedule_length st + 2) callback conf st)
    as [[[]| |] s1]; cbn [snd] in Hloop; try discriminate;
    destruct Hloop as [(ds & Hlog & Hds) (Hmx & Hsome)].
  - unfold Ffuncall, bindM, modify, lift, ret.
    destruct (callback Qnil Qnil Qt).
    + unfold pthread_mutex_timedlock. fields.
      destruct (hd Acquired (handle_mx s1)); [|discriminate].
      unfold get. fields.
      destruct (handle s1); discriminate.
    + intros H. injection H as _ <-.
      fields. split; [exact Hmx|]. split; [exact Hsome|].
      exists (ds ++ [end_of_session]).
      split; [rewrite Hlog, <- app_assoc; reflexivity|].
      apply Forall_app. split; [now apply running_delivery_handler_call|].
      constructor; [|constructor]. now exists Qnil, Qnil, Qt.
    + discriminate.
  - intros H. injection H as _ <-.
    split; [exact Hmx|]. split; [exact Hsome|].
    exists ds. split; [exact Hlog|].
    now apply running_delivery_handler_call.
Qed.

End Signals.

(** X11.  A signal raised inside [json-rpc], by a wrong keyword
    argument, by the conversion of a message or by the handler,
    leaves the function at once: the mutex has not been touched, the
    handle is as open as it was and has not been closed, and all the
    run did to the outside is calls of the handler. *)
Theorem signal_out_of_json_rpc_leaves_the_handle_open :
  forall (collab : Collaborator) (callback : lisp_function)
         (args : list Lisp_Object) (st : json_rpc_state) (e : lisp_error),
    fst (Fjson_rpc callback args st) = Signal e ->
    handle_mx (snd (Fjson_rpc callback args st)) = handle_mx st
    /\ is_some (handle (snd (Fjson_rpc callback args st)))
       = is_some (handle st)
    /\ exists ds,
        log (snd (Fjson_rpc callback args st)) = log st ++ ds
        /\ Forall handler_call ds.
Proof.
  intros collab callback args st e Hsig.
  destruct (Fjson_rpc callback args st) as [r st'] eqn:Hrun.
  cbn [fst snd] in *. subst r.
  exact (Fjson_rpc_signals callback args st st' e Hrun).
Qed.

Lemma signal_out_of_json_rpc_leaves_the_handle_open_witness :
  handle_mx (snd (Fjson_rpc failing_handler [] noisy_state))
  = handle_mx noisy_state
  /\ is_some (handle (snd (Fjson_rpc failing_handler [] noisy_state)))
     = is_some (handle noisy_state)
  /\ exists ds,
      log (snd (Fjson_rpc failing_handler [] noisy_state))
      = log noisy_state ++ ds
      /\ Forall handler_call ds.
Proof.
  apply (signal_out_of_json_rpc_leaves_the_handle_open
           Reference.collaborator failing_handler [] noisy_state
           (handler_error Qnil)).
  vm_compute. reflexivity.
Defined.

(** ** Runs that do not read *)

Section NoRead.

Context {collab : Collaborator}.

Lemma Fjson_rpc_exited (callback : lisp_function)
    (args : list Lisp_Object) (conf : json_configuration)
    (st : json_rpc_state) (h : SSP_Handle) (v : Lisp_Object) :
  json_parse_args (Z.of_nat (length args)) args default_conf true
  = Ret conf ->
  handle st = Some h ->
  ssp_isalive h = false ->
  done st = false ->
  lock_available st = true ->
  callback Qnil Qnil Qt = Ret v ->
  Fjson_rpc callback args st
  = (Ret Qnil,
     set_handle_mx (set_handle (emit (emit st end_of_session) Close) None)
                   (tl (handle_mx st))).
Proof.
  intros Hargs Hh Hdead Hdone Hlock Hret.
  unfold Fjson_rpc, bindM, lift. rewrite Hargs.
  unfold get at 1. rewrite Nat.add_comm. cbn [Nat.add Fjson_rpc_loop].
  unfold bindM, get. rewrite Hdone, Hh, Hdead.
  unfold ret, Ffuncall, bindM, modify, lift, ret. rewrite Hret.
  unfold pthread_mutex_timedlock, lock_available in *. fields.
  destruct (hd Acquired (handle_mx st)); [|discriminate].
  fields. rewrite Hh. reflexivity.
Qed.

Lemma Fjson_rpc_closed (callback : lisp_function)
    (args : list Lisp_Object) (st st' : json_rpc_state) (v : Lisp_Object) :
  handle st = None ->
  lock_available st = true ->
  Fjson_rpc callback args st <> (Ret v, st').
Proof.
  intros Hh Hlock.
  unfold Fjson_rpc, bindM, lift.
  destruct (json_parse_args _ args default_conf true) as [conf| |];
    try discriminate.
  unfold get at 1.
  pose proof (Fjson_rpc_loop_delivers (schedule_length st + 2)
                                      callback conf st) as Hloop.
  destruct (Fjson_rpc_loop (schedule_length st + 2) callback conf st)
    as [[[]| |c] s1]; cbn [snd] in Hloop; try discriminate.
  destruct Hloop as [_ (Hmx & Hsome)].
  unfold Ffuncall, bindM, modify, lift, ret.
  destruct (callback Qnil Qnil Qt); try discriminate.
  unfold pthread_mutex_timedlock, lock_available in *. fields.
  rewrite Hmx.
  destruct (hd Acquired (handle_mx st)); [|discriminate].
  unfold get. fields. rewrite Hh in Hsome.
  destruct (handle s1); discriminate.
Qed.

End NoRead.

(** X12.  What a child wrote before it exited is not read.  When the
    child is no longer alive at the time [json-rpc] is called, on a
    connection that is not done and whose mutex is free, the run
    makes no read at all, whatever is waiting on the stream: the
    handler is called once, with the end of session, the handle is
    closed and cleared, and [json-rpc-pid] goes on answering the
    process id, since [done] was never raised. *)
Theorem output_of_an_exited_child_is_not_read :
  forall (collab : Collaborator) (callback : lisp_function)
         (args : list Lisp_Object) (conf : json_configuration)
         (st : json_rpc_state) (h : SSP_Handle) (v : Lisp_Object),
    json_parse_args (Z.of_nat (length args)) args default_conf true
    = Ret conf ->
    handle st = Some h ->
    ssp_isalive h = false ->
    done st = false ->
    lock_available st = true ->
    callback Qnil Qnil Qt = Ret v ->
    exists st',
      Fjson_rpc callback args st = (Ret Qnil, st')
      /\ log st' = log st ++ [end_of_session; Close]
      /\ handle st' = None
      /\ message st' = message st
      /\ fst (Fjson_rpc_pid st') = Ret (Fixnum (pid st)).
Proof.
  intros collab callback args conf st h v Hargs Hh Hdead Hdone Hlock Hret.
  eexists. split.
  - exact (Fjson_rpc_exited callback args conf st h v
             Hargs Hh Hdead Hdone Hlock Hret).
  - unfold Fjson_rpc_pid, bindM, get, ret. fields.
    rewrite Hdone, <- app_assoc. auto.
Qed.

Lemma output_of_an_exited_child_is_not_read_witness :
  exists st',
    Fjson_rpc quiet_handler [] exited_state = (Ret Qnil, st')
    /\ log st' = log exited_state ++ [end_of_session; Close]
    /\ handle st' = None
    /\ message st' = message exited_state
    /\ fst (Fjson_rpc_pid st') = Ret (Fixnum (pid exited_state)).
Proof.
  apply (output_of_an_exited_child_is_not_read
           Reference.collaborator quiet_handler [] default_conf
           exited_state exited_handle Qnil);
    reflexivity.
Defined.

(** X13.  A connection serves one run of [json-rpc].  After a run
    that returned with the mutex free, the handle is gone, and a
    second run on the same connection, with any handler and
    arguments, does not return when it finds the mutex free: it
    stops on the missing handle or leaves by a signal. *)
Theorem json_rpc_does_not_return_twice :
  forall (collab : Collaborator) (callback callback' : lisp_function)
         (args args' : list Lisp_Object) (st : json_rpc_state),
    returned (fst (Fjson_rpc callback args st)) = true ->
    lock_available st = true ->
    lock_available (snd (Fjson_rpc callback args st)) = true ->
    handle (snd (Fjson_rpc callback args st)) = None
    /\ returned
         (fst (Fjson_rpc callback' args' (snd (Fjson_rpc callback args st))))
       = false.
Proof.
  intros collab callback callback' args args' st Hret Hlock Hlock'.
  destruct (Fjson_rpc callback args st) as [r st'] eqn:Hrun.
  cbn [fst snd] in *. destruct r as [v| |]; try discriminate.
  destruct (Fjson_rpc_returns callback args st st' v Hrun) as (ds & _ & H).
  rewrite Hlock in H. destruct H as (_ & Hnone & _).
  split; [exact Hnone|].
  destruct (Fjson_rpc callback' args' st') as [r' st''] eqn:Hrun'.
  cbn [fst]. destruct r' as [v'| |]; try reflexivity.
  destruct (Fjson_rpc_closed callback' args' st' st'' v' Hnone Hlock' Hrun').
Qed.

Lemma json_rpc_does_not_return_twice_witness :
  handle (snd (Fjson_rpc quiet_handler [] noisy_state)) = None
  /\ returned
       (fst (Fjson_rpc quiet_handler []
                       (snd (Fjson_rpc quiet_handler [] noisy_state))))
     = false.
Proof.
  apply (json_rpc_does_not_return_twice
           Reference.collaborator quiet_handler quiet_handler [] []
           noisy_state);
    vm_compute; reflexivity.
Defined.

(** ** The length field, written and read back *)




















(** ** Which pair a rejected keyword list is blamed on *)

Lemma json_parse_arg_rejects (key value : Lisp_Object)
    (conf : json_configuration) (pot : bool) :
  valid_pair pot key value = false ->
  exists choices,
    json_parse_arg key value conf pot = Signal (wrong_choice choices value).
Proof.
  unfold json_parse_arg, valid_pair, object_type_of, array_type_of.
  destruct (EQ key QCobject_type) eqn:Ko.
  { apply EQ_Symbol_true in Ko. subst key. cbn.
    destruct pot; cbn.
    - destruct (EQ value Qhash_table); [discriminate|].
      destruct (EQ value Qalist); [discriminate|].
      destruct (EQ value Qplist); [discriminate|]. eauto.
    - eauto. }
  rewrite Bool.andb_false_r.
  destruct (EQ key QCarray_type) eqn:Ka.
  { apply EQ_Symbol_true in Ka. subst key. cbn.
    destruct pot; cbn.
    - destruct (EQ value Qarray); [discriminate|].
      destruct (EQ value Qlist); [discriminate|]. eauto.
    - eauto. }
  rewrite Bool.andb_false_r.
  destruct (EQ key QCnull_object); [discriminate|].
  destruct (EQ key QCfalse_object); [discriminate|].
  destruct pot; eauto.
Qed.

Lemma json_parse_args_loop_rejects (args : list Lisp_Object) (pot : bool)
    (n : nat) :
  forall (conf : json_configuration) (j : nat),
    (j < n)%nat ->
    valid_pair pot (key_at args j) (value_at args j) = false ->
    (forall j', (j < j' < n)%nat ->
                valid_pair pot (key_at args j') (value_at args j') = true) ->
    exists choices,
      json_parse_args_loop n args conf pot
      = Signal (wrong_choice choices (value_at args j)).
Proof.
  induction n as [|n IH]; intros conf j Hj Hbad Hlater; [lia|].
  cbn [json_parse_args_loop].
  destruct (Nat.eq_dec j n) as [->|Hne].
  - destruct (json_parse_arg_rejects (key_at args n) (value_at args n)
                conf pot Hbad) as [choices ->].
    exists choices. reflexivity.
  - assert (Hn : valid_pair pot (key_at args n) (value_at args n) = true)
      by (apply Hlater; lia).
    apply (json_parse_arg_accepts _ _ conf) in Hn. destruct Hn as [c ->].
    cbn [bind]. apply IH; [lia | exact Hbad |].
    intros j' Hj'. apply Hlater. lia.
Qed.

(** X15.  A rejected keyword list is blamed on its last invalid pair,
    and on the value of that pair.  When the list has an even length,
    its pair [j] is invalid and all the pairs after it are valid,
    [json_parse_args] signals [wrong_choice] with the value of pair
    [j] as the offending object, also when it is the keyword that is
    unknown, and whatever earlier pairs hold. *)
Theorem json_parse_args_blames_the_last_invalid_pair :
  forall (args : list Lisp_Object) (conf : json_configuration) (pot : bool)
         (j : nat),
    Nat.even (length args) = true ->
    (2 * j + 1 < length args)%nat ->
    valid_pair pot (key_at args j) (value_at args j) = false ->
    (forall j', (j < j')%nat -> (2 * j' + 1 < length args)%nat ->
                valid_pair pot (key_at args j') (value_at args j') = true) ->
    exists choices,
      json_parse_args (Z.of_nat (length args)) args conf pot
      = Signal (wrong_choice choices (value_at args j)).
Proof.
  intros args conf pot j Heven Hj Hbad Hlater.
  assert (Hrem : Z.rem (Z.of_nat (length args)) 2 = 0).
  { apply Nat.even_spec in Heven. destruct Heven as [k Hk].
    rewrite Hk, Nat2Z.inj_mul. cbn [Z.of_nat Pos.of_succ_nat Pos.succ].
    rewrite Z.mul_comm. apply Z.rem_mul. lia. }
  unfold json_parse_args. rewrite Hrem. cbn [Z.eqb negb].
  pose proof (even_length_pairs args Hrem) as Hpairs.
  apply json_parse_args_loop_rejects.
  - now apply Hpairs.
  - exact Hbad.
  - intros j' [Hlt Hn]. apply Hlater; [exact Hlt | now apply Hpairs].
Qed.

Lemma json_parse_args_blames_the_last_invalid_pair_witness :
  exists choices,
    json_parse_args (Z.of_nat (length misspelt_args)) misspelt_args
                    default_conf true
    = Signal (wrong_choice choices (value_at misspelt_args 1)).
Proof.
  apply (json_parse_args_blames_the_last_invalid_pair
           misspelt_args default_conf true 1).
  - reflexivity.
  - simpl. lia.
  - reflexivity.
  - intros [|[|[|j']]] Hlt Hj'; simpl in Hj'; try lia. reflexivity.
Defined.

(** ** The converters *)

Section ConverterFacts.

Import Convert.

Context {enc : Encoding}.

Lemma chain_Normal {A B} (r : outcome A) (k : A -> outcome B) (b : B) :
  chain r k = Normal b -> exists a, r = Normal a /\ k a = Normal b.
Proof. destruct r; cbn [chain]; try discriminate. eauto. Qed.

Lemma EQ_sym (a b : Lisp_Object) : EQ a b = EQ b a.
Proof.
  destruct a, b; cbn [EQ]; try reflexivity.
  - apply String.eqb_sym.
  - apply Z.eqb_sym.
Qed.

Lemma EQ_trans (a b c : Lisp_Object) :
  EQ a b = true -> EQ b c = true -> EQ a c = true.
Proof.
  destruct a, b, c; cbn [EQ]; try discriminate.
  - intros H1 H2. apply String.eqb_eq in H1, H2. subst. apply String.eqb_refl.
  - intros H1 H2. apply Z.eqb_eq in H1, H2. subst. apply Z.eqb_refl.
Qed.

(** [Fnreverse] undoes the pushes of the two loops that build lists. *)
Lemma nreverse_onto_pushed (l : list Lisp_Object) :
  forall acc acc' : Lisp_Object,
    nreverse_onto (fold_left (fun a x => Cons x a) l acc) acc'
    = nreverse_onto acc (fold_right Cons acc' l).
Proof.
  induction l as [|x l IH]; intros acc acc'; [reflexivity|].
  cbn [fold_left fold_right]. rewrite IH. reflexivity.
Qed.

Lemma Fnreverse_pushed (l : list Lisp_Object) :
  Fnreverse (fold_left (fun a x => Cons x a) l Qnil) = Flist l.
Proof. unfold Fnreverse. rewrite nreverse_onto_pushed. reflexivity. Qed.

(** What the loops of [json_to_lisp] return, when they return. *)
Lemma fill_vector_Normal (f : json_t -> outcome Lisp_Object)
    (elts : list json_t) :
  forall vs, fill_vector f elts = Normal vs ->
             Forall2 (fun x v => f x = Normal v) elts vs.
Proof.
  induction elts as [|x elts IH]; intros vs H; cbn [fill_vector] in H.
  - injection H as <-. constructor.
  - apply chain_Normal in H. destruct H as (v & Hv & H).
    apply chain_Normal in H. destruct H as (vs' & Hvs & H).
    injection H as <-. constructor; auto.
Qed.

Lemma cons_backwards_Normal (f : json_t -> outcome Lisp_Object)
    (elts : list json_t) :
  forall r, cons_backwards f elts = Normal r ->
            exists vs, Forall2 (fun x v => f x = Normal v) elts vs
                       /\ r = Flist vs.
Proof.
  induction elts as [|x elts IH]; intros r H; cbn [cons_backwards] in H.
  - injection H as <-. exists []. split; [constructor | reflexivity].
  - apply chain_Normal in H. destruct H as (r' & Hr & H).
    apply chain_Normal in H. destruct H as (v & Hv & H).
    injection H as <-.
    destruct (IH r' Hr) as (vs & Hvs & ->).
    exists (v :: vs). split; [constructor; auto | reflexivity].
Qed.

Lemma put_members_Normal (f : json_t -> outcome Lisp_Object)
    (members : list (list ascii * json_t)) :
  forall h0 h,
    put_members f members h0 = Normal h ->
    exists vs,
      Forall2 (fun kv v => f (snd kv) = Normal v) members vs
      /\ h = h0 ++ map (fun p => entry_of (fst p) (snd p))
                       (combine members vs).
Proof.
  induction members as [|[k x] members IH]; intros h0 h H;
    cbn [put_members] in H.
  - injection H as <-. exists []. split; [constructor|].
    cbn. now rewrite app_nil_r.
  - destruct (has_key h0 (cstr k)); [discriminate|].
    apply chain_Normal in H. destruct H as (v & Hv & H).
    destruct (IH _ _ H) as (vs & Hvs & ->).
    exists (v :: vs). split; [constructor; auto|].
    cbn [combine map fst snd]. rewrite <- app_assoc. reflexivity.
Qed.

Lemma push_pairs_Normal (f : json_t -> outcome Lisp_Object)
    (members : list (list ascii * json_t)) :
  forall acc r,
    push_pairs f members acc = Normal r ->
    exists vs,
      Forall2 (fun kv v => f (snd kv) = Normal v) members vs
      /\ r = fold_left (fun a x => Cons x a)
                       (map (fun p => pair_of (fst p) (snd p))
                            (combine members vs))
                       acc.
Proof.
  induction members as [|[k x] members IH]; intros acc r H;
    cbn [push_pairs] in H.
  - injection H as <-. exists []. split; [constructor | reflexivity].
  - apply chain_Normal in H. destruct H as (v & Hv & H).
    destruct (IH _ _ H) as (vs & Hvs & ->).
    exists (v :: vs). split; [constructor; auto | reflexivity].
Qed.

Lemma push_properties_Normal (f : json_t -> outcome Lisp_Object)
    (members : list (list ascii * json_t)) :
  forall acc r,
    push_properties f members acc = Normal r ->
    exists vs,
      Forall2 (fun kv v => f (snd kv) = Normal v) members vs
      /\ r = fold_left (fun a x => Cons x a)
                       (flat_map (fun p => property_of (fst p) (snd p))
                                 (combine members vs))
                       acc.
Proof.
  induction members as [|[k x] members IH]; intros acc r H;
    cbn [push_properties] in H.
  - injection H as <-. exists []. split; [constructor | reflexivity].
  - apply chain_Normal in H. destruct H as (v & Hv & H).
    destruct (IH _ _ H) as (vs & Hvs & ->).
    exists (v :: vs). split; [constructor; auto | reflexivity].
Qed.


Lemma Forall2_impl_In {A B} (P Q : A -> B -> Prop) (l : list A)
    (l' : list B) :
  Forall2 P l l' ->
  (forall x y, In x l -> P x y -> Q x y) ->
  Forall2 Q l l'.
Proof.
  induction 1 as [|x y l l' Hxy _ IH]; intros Himp; constructor.
  - apply Himp; [now left | exact Hxy].
  - apply IH. intros x' y' Hin. apply Himp. now right.
Qed.

(** The loops of [lisp_to_json] on what those of [json_to_lisp]
    built, [g] undoing the conversion of each element. *)
Lemma append_elements_back (g : Lisp_Object -> outcome json_t)
    (elts : list json_t) (vs : list Lisp_Object) :
  Forall2 (fun x v => g v = Normal x) elts vs ->
  forall acc, append_elements g vs acc = Normal (acc ++ elts).
Proof.
  induction 1 as [|x v elts vs Hv _ IH]; intros acc;
    cbn [append_elements].
  - now rewrite app_nil_r.
  - rewrite Hv. cbn [chain]. rewrite IH, <- app_assoc. reflexivity.
Qed.

Lemma key_ok_plain (conf : json_configuration) (k : list ascii) :
  key_ok conf k = true ->
  has_NUL k = false /\ cstr k = k /\ utf8_check_string k = true.
Proof.
  unfold key_ok. intros H.
  apply Bool.andb_true_iff in H. destruct H as [H _].
  apply Bool.andb_true_iff in H. destruct H as [Hnul Hutf].
  apply Bool.negb_true_iff in Hnul.
  split; [exact Hnul|]. split; [|exact Hutf].
  now apply cstr_no_NUL, has_NUL_false.
Qed.

Lemma json_object_get_app (json : list (list ascii * json_t))
    (k k' : list ascii) (x : json_t) :
  json_object_get json k' = false ->
  k <> k' ->
  json_object_get (json ++ [(k, x)]) k' = false.
Proof.
  unfold json_object_get. intros H Hne.
  rewrite existsb_app, H. cbn [existsb fst orb].
  destruct (list_eq_dec ascii_dec k k'); [contradiction | reflexivity].
Qed.

Lemma distinct_cons (k : list ascii) (keys : list (list ascii)) :
  distinct (k :: keys) = true ->
  distinct keys = true /\ forall k', In k' keys -> k <> k'.
Proof.
  cbn [distinct]. intros H. apply Bool.andb_true_iff in H.
  destruct H as [Hk Hrest]. split; [exact Hrest|].
  intros k' Hin ->. apply Bool.negb_true_iff in Hk.
  assert (existsb (fun k'0 => if list_eq_dec ascii_dec k'0 k'
                              then true else false) keys = true).
  { apply existsb_exists. exists k'. split; [exact Hin|].
    destruct (list_eq_dec ascii_dec k' k'); [reflexivity | contradiction]. }
  congruence.
Qed.

(** The state of an object that is being rebuilt: the keys still to
    come are proper, distinct, and not yet in the object. *)
Lemma members_step (conf : json_configuration) (k : list ascii)
    (x : json_t) (members : list (list ascii * json_t))
    (json : list (list ascii * json_t)) :
  distinct (map fst ((k, x) :: members)) = true ->
  forallb (key_ok conf) (map fst ((k, x) :: members)) = true ->
  (forall kv, In kv ((k, x) :: members) ->
              json_object_get json (fst kv) = false) ->
  key_ok conf k = true
  /\ json_object_get json k = false
  /\ distinct (map fst members) = true
  /\ forallb (key_ok conf) (map fst members) = true
  /\ (forall kv, In kv members ->
                 json_object_get (json ++ [(k, x)]) (fst kv) = false).
Proof.
  cbn [map fst forallb]. intros Hdist Hkeys Hfresh.
  apply distinct_cons in Hdist. destruct Hdist as [Hdist Hne].
  apply Bool.andb_true_iff in Hkeys. destruct Hkeys as [Hk Hkeys].
  split; [exact Hk|].
  split; [apply (Hfresh (k, x)); now left|].
  split; [exact Hdist|]. split; [exact Hkeys|].
  intros kv Hin. apply json_object_get_app.
  - apply Hfresh. now right.
  - apply Hne. now apply in_map.
Qed.

Lemma set_entries_back (conf : json_configuration)
    (g : Lisp_Object -> outcome json_t) (lisp : Lisp_Object)
    (members : list (list ascii * json_t)) (vs : list Lisp_Object) :
  Forall2 (fun kv v => g v = Normal (snd kv)) members vs ->
  forall json,
    distinct (map fst members) = true ->
    forallb (key_ok conf) (map fst members) = true ->
    (forall kv, In kv members -> json_object_get json (fst kv) = false) ->
    set_entries g lisp
                (map (fun p => entry_of (fst p) (snd p))
                     (combine members vs))
                json
    = Normal (json ++ members).
Proof.
  induction 1 as [|[k x] v members vs Hv _ IH];
    intros json Hdist Hkeys Hfresh; cbn [combine map set_entries].
  - now rewrite app_nil_r.
  - destruct (members_step conf k x members json Hdist Hkeys Hfresh)
      as (Hk & Hget & Hdist' & Hkeys' & Hfresh').
    destruct (key_ok_plain conf k Hk) as (Hnul & Hcstr & Hutf).
    unfold entry_of at 1. cbn [fst snd]. rewrite Hcstr.
    unfold check_string_without_embedded_nulls. rewrite Hnul.
    cbn [chain]. rewrite Hget.
    cbn [snd] in Hv. rewrite Hv. cbn [chain].
    unfold json_object_set_new. rewrite Hutf.
    rewrite (IH _ Hdist' Hkeys' Hfresh'), <- app_assoc. reflexivity.
Qed.

Lemma add_member_back (conf : json_configuration)
    (g : Lisp_Object -> outcome json_t) (is_plist : bool)
    (k : list ascii) (x : json_t) (v : Lisp_Object)
    (json : list (list ascii * json_t)) :
  key_ok conf k = true ->
  (is_plist = true -> object_type conf = json_object_plist) ->
  json_object_get json k = false ->
  g v = Normal x ->
  add_member g is_plist
             (if is_plist then intern_keyword k else intern k) v json
  = Normal (json ++ [(k, x)]).
Proof.
  intros Hk Hplist Hget Hv.
  destruct (key_ok_plain conf k Hk) as (Hnul & Hcstr & Hutf).
  assert (Hstep : forall key_str : list ascii,
             key_str = k ->
             (if json_object_get json key_str then Normal json
              else do j <- g v;
                   match json_object_set_new json key_str j with
                   | Some json' => Normal json'
                   | None => json_out_of_memory
                   end)
             = Normal (json ++ [(k, x)])).
  { intros key_str ->. rewrite Hget, Hv. cbn [chain].
    unfold json_object_set_new. now rewrite Hutf. }
  destruct is_plist.
  - specialize (Hplist eq_refl).
    unfold key_ok in Hk. rewrite Hplist in Hk.
    apply Bool.andb_true_iff in Hk. destruct Hk as [_ Hne].
    destruct k as [|c k]; [discriminate Hne|].
    unfold intern_keyword, add_member. rewrite Hcstr.
    cbn [list_ascii_of_string].
    rewrite list_ascii_of_string_of_list_ascii.
    unfold check_string_without_embedded_nulls.
    assert (Hnul' : has_NUL (":"%char :: c :: k) = false).
    { unfold has_NUL in *. cbn [existsb] in *.
      apply Bool.orb_false_iff. split; [reflexivity | exact Hnul]. }
    rewrite Hnul'. cbn [chain andb]. rewrite Ascii.eqb_refl.
    now apply Hstep.
  - unfold intern, add_member. rewrite Hcstr.
    rewrite list_ascii_of_string_of_list_ascii.
    unfold check_string_without_embedded_nulls. rewrite Hnul.
    cbn [chain andb].
    destruct k as [|c [|c' k]]; now apply Hstep.
Qed.

Lemma for_each_tail_alist_back (conf : json_configuration)
    (g : Lisp_Object -> outcome json_t) (lisp : Lisp_Object)
    (members : list (list ascii * json_t)) (vs : list Lisp_Object) :
  Forall2 (fun kv v => g v = Normal (snd kv)) members vs ->
  forall json,
    distinct (map fst members) = true ->
    forallb (key_ok conf) (map fst members) = true ->
    (forall kv, In kv members -> json_object_get json (fst kv) = false) ->
    for_each_tail g false lisp
                  (Flist (map (fun p => pair_of (fst p) (snd p))
                              (combine members vs)))
                  json
    = Normal (json ++ members).
Proof.
  induction 1 as [|[k x] v members vs Hv _ IH];
    intros json Hdist Hkeys Hfresh;
    cbn [combine map Flist fold_right for_each_tail].
  - cbn. now rewrite app_nil_r.
  - destruct (members_step conf k x members json Hdist Hkeys Hfresh)
      as (Hk & Hget & Hdist' & Hkeys' & Hfresh').
    unfold pair_of at 1. unfold Fcons. cbn [fst snd].
    rewrite (add_member_back conf g false k x v json Hk
               ltac:(discriminate) Hget Hv).
    cbn [chain].
    change (fold_right Cons Qnil ?l) with (Flist l).
    rewrite (IH _ Hdist' Hkeys' Hfresh'), <- app_assoc. reflexivity.
Qed.

Lemma for_each_tail_plist_back (conf : json_configuration)
    (g : Lisp_Object -> outcome json_t) (lisp : Lisp_Object)
    (members : list (list ascii * json_t)) (vs : list Lisp_Object) :
  object_type conf = json_object_plist ->
  Forall2 (fun kv v => g v = Normal (snd kv)) members vs ->
  forall json,
    distinct (map fst members) = true ->
    forallb (key_ok conf) (map fst members) = true ->
    (forall kv, In kv members -> json_object_get json (fst kv) = false) ->
    for_each_tail g true lisp
                  (Flist (flat_map (fun p => property_of (fst p) (snd p))
                                   (combine members vs)))
                  json
    = Normal (json ++ members).
Proof.
  intros Hplist.
  induction 1 as [|[k x] v members vs Hv _ IH];
    intros json Hdist Hkeys Hfresh;
    cbn [combine flat_map Flist fold_right for_each_tail app property_of].
  - cbn. now rewrite app_nil_r.
  - destruct (members_step conf k x members json Hdist Hkeys Hfresh)
      as (Hk & Hget & Hdist' & Hkeys' & Hfresh').
    cbn [fst snd].
    rewrite (add_member_back conf g true k x v json Hk
               ltac:(intros _; exact Hplist) Hget Hv).
    cbn [chain].
    change (fold_right Cons Qnil ?l) with (Flist l).
    rewrite (IH _ Hdist' Hkeys' Hfresh'), <- app_assoc. reflexivity.
Qed.


Lemma distinct_markers_spec (conf : json_configuration) :
  distinct_markers conf = true ->
  exists n f,
    null_object conf = Symbol n
    /\ false_object conf = Symbol f
    /\ String.eqb f n = false
    /\ String.eqb "t" n = false
    /\ String.eqb "t" f = false
    /\ String.eqb "nil" n = false
    /\ String.eqb "nil" f = false.
Proof.
  unfold distinct_markers.
  destruct (null_object conf) as [n| | | | |]; try discriminate.
  destruct (false_object conf) as [f| | | | |]; try discriminate.
  intros H.
  apply Bool.andb_true_iff in H. destruct H as [H H5].
  apply Bool.andb_true_iff in H. destruct H as [H H4].
  apply Bool.andb_true_iff in H. destruct H as [H H3].
  apply Bool.andb_true_iff in H. destruct H as [H1 H2].
  apply Bool.negb_true_iff in H1, H2, H3, H4, H5.
  exists n, f.
  rewrite (String.eqb_sym f n), (String.eqb_sym "t" n),
    (String.eqb_sym "t" f), (String.eqb_sym "nil" n),
    (String.eqb_sym "nil" f).
  auto 10.
Qed.

Lemma well_formed_members (conf : json_configuration)
    (members : list (list ascii * json_t)) :
  well_formed conf (JSON_OBJECT members) = true ->
  distinct (map fst members) = true
  /\ forallb (key_ok conf) (map fst members) = true
  /\ forall kv, In kv members -> well_formed conf (snd kv) = true.
Proof.
  cbn [well_formed]. intros H.
  apply Bool.andb_true_iff in H. destruct H as [H Hvalues].
  apply Bool.andb_true_iff in H. destruct H as [Hdist Hkeys].
  split; [exact Hdist|]. split; [exact Hkeys|].
  now apply forallb_forall.
Qed.

(** What [json_to_lisp] built, [lisp_to_json] takes apart again. *)
Lemma lisp_to_json_json_to_lisp (conf : json_configuration) :
  distinct_markers conf = true ->
  array_type conf = json_array_array ->
  forall (room : nat) (json : json_t) (v : Lisp_Object),
    well_formed conf json = true ->
    json_to_lisp room json conf = Normal v ->
    lisp_to_json room v conf = Normal json.
Proof.
  intros Hmark Harr.
  destruct (distinct_markers_spec conf Hmark)
    as (n & f & Hnull & Hfalse & Hfn & Htn & Htf & Hnn & Hnf).
  assert (Hscalar : forall room json v,
             match json with
             | JSON_ARRAY _ | JSON_OBJECT _ => False
             | _ => True
             end ->
             well_formed conf json = true ->
             json_to_lisp room json conf = Normal v ->
             lisp_to_json room v conf = Normal json).
  { intros room json v Hshape Hwf Hrun.
    destruct json; try contradiction; destruct room;
      cbn [json_to_lisp] in Hrun; injection Hrun as <-;
      cbn [lisp_to_json well_formed] in *;
      rewrite ?Hnull, ?Hfalse; cbn [EQ Qt];
      rewrite ?String.eqb_refl, ?Hfn, ?Htn, ?Htf, ?Hwf; reflexivity. }
  induction room as [|room IH]; intros json v Hwf Hrun;
    destruct json as [| | |i|s|elts|members];
    try (apply Hscalar; [exact I | assumption | assumption]);
    cbn [json_to_lisp] in Hrun; try discriminate Hrun.
  - (* an array *)
    destruct (PTRDIFF_MAX <? Z.of_nat (length elts)); [discriminate|].
    rewrite Harr in Hrun.
    apply chain_Normal in Hrun. destruct Hrun as (vs & Hfill & Hv).
    injection Hv as <-.
    apply fill_vector_Normal in Hfill.
    cbn [well_formed] in Hwf. rewrite forallb_forall in Hwf.
    assert (Hback : Forall2 (fun x v => lisp_to_json room v conf = Normal x)
                            elts vs).
    { eapply Forall2_impl_In; [exact Hfill|].
      intros x y Hin Hxy. cbn beta in Hxy. apply IH; auto. }
    cbn [lisp_to_json EQ lisp_to_json_nonscalar_1].
    rewrite (append_elements_back _ elts vs Hback []). reflexivity.
  - (* an object *)
    destruct (well_formed_members conf members Hwf)
      as (Hdist & Hkeys & Hvalues).
    assert (Hflip : forall vs,
               Forall2 (fun kv v => json_to_lisp room (snd kv) conf
                                    = Normal v) members vs ->
               Forall2 (fun kv v => lisp_to_json room v conf
                                    = Normal (snd kv)) members vs).
    { intros vs Hvs. eapply Forall2_impl_In; [exact Hvs|].
      intros kv y Hin Hxy. cbn beta in Hxy. apply IH; auto. }
    assert (Hfresh : forall kv : list ascii * json_t,
               In kv members -> json_object_get [] (fst kv) = false)
      by reflexivity.
    destruct (object_type conf) eqn:Hobj.
    + (* a hash table *)
      destruct (MOST_POSITIVE_FIXNUM <? Z.of_nat (length members));
        [discriminate|].
      apply chain_Normal in Hrun. destruct Hrun as (h & Hput & Hv).
      injection Hv as <-.
      apply put_members_Normal in Hput.
      destruct Hput as (vs & Hvs & ->). cbn [app].
      cbn [lisp_to_json EQ lisp_to_json_nonscalar_1].
      rewrite (set_entries_back conf _ _ members vs (Hflip vs Hvs) []
                 Hdist Hkeys Hfresh).
      reflexivity.
    + (* an alist *)
      apply chain_Normal in Hrun. destruct Hrun as (r & Hpush & Hv).
      injection Hv as <-.
      apply push_pairs_Normal in Hpush.
      destruct Hpush as (vs & Hvs & ->).
      rewrite Fnreverse_pushed.
      pose proof (Hflip vs Hvs) as Hback.
      pose proof (fun lisp =>
                    for_each_tail_alist_back conf
                      (fun x => lisp_to_json room x conf) lisp members vs
                      Hback [] Hdist Hkeys Hfresh) as Hloop.
      destruct Hvs as [|[k x] y members vs _ _].
      * cbn [combine map Flist fold_right lisp_to_json].
        unfold Qnil at 1 2 3. rewrite Hnull, Hfalse. cbn [EQ Qt].
        rewrite Hnn, Hnf. reflexivity.
      * cbn [combine map Flist fold_right] in Hloop |- *.
        unfold pair_of at 1. unfold pair_of at 1 in Hloop.
        unfold Fcons. unfold Fcons in Hloop.
        cbn [lisp_to_json EQ lisp_to_json_nonscalar_1 CONSP negb].
        rewrite Hloop. reflexivity.
    + (* a plist *)
      apply chain_Normal in Hrun. destruct Hrun as (r & Hpush & Hv).
      injection Hv as <-.
      apply push_properties_Normal in Hpush.
      destruct Hpush as (vs & Hvs & ->).
      rewrite Fnreverse_pushed.
      pose proof (Hflip vs Hvs) as Hback.
      pose proof (fun lisp =>
                    for_each_tail_plist_back conf
                      (fun x => lisp_to_json room x conf) lisp members vs
                      Hobj Hback [] Hdist Hkeys Hfresh) as Hloop.
      destruct Hvs as [|[k x] y members vs _ _].
      * cbn [combine flat_map Flist fold_right lisp_to_json].
        unfold Qnil at 1 2 3. rewrite Hnull, Hfalse. cbn [EQ Qt].
        rewrite Hnn, Hnf. reflexivity.
      * cbn [combine flat_map Flist fold_right app property_of fst snd]
          in Hloop |- *.
        unfold intern_keyword at 1. unfold intern_keyword at 1 in Hloop.
        cbn [lisp_to_json EQ lisp_to_json_nonscalar_1 CONSP negb].
        rewrite Hloop. reflexivity.
Qed.

End ConverterFacts.

(** X16.  [lisp_to_json] is the inverse of [json_to_lisp] on the
    values jansson builds, when arrays are read as vectors, whatever
    the Lisp type objects are read as.  If the objects for null and
    false are symbols that differ from each other, from [t] and from
    [nil], the integers, strings and keys of the value are proper,
    the keys of each object distinct and, for plists, not empty, then
    the Lisp value [json_to_lisp] returns for it converts back, at
    the same depth, to the value itself. *)
Theorem lisp_to_json_inverts_json_to_lisp :
  forall (enc : Convert.Encoding) (conf : json_configuration) (room : nat)
         (json : json_t) (v : Lisp_Object),
    Convert.distinct_markers conf = true ->
    array_type conf = json_array_array ->
    Convert.well_formed conf json = true ->
    Convert.json_to_lisp room json conf = Convert.Normal v ->
    Convert.lisp_to_json room v conf = Convert.Normal json.
Proof.
  intros enc conf room json v Hmark Harr Hwf Hrun.
  now apply lisp_to_json_json_to_lisp.
Qed.

Lemma lisp_to_json_inverts_json_to_lisp_witness :
  Convert.lisp_to_json (enc := Convert.unicode) 3 request_plist plist_conf
  = Convert.Normal request_json.
Proof.
  apply (lisp_to_json_inverts_json_to_lisp
           Convert.unicode plist_conf 3 request_json request_plist);
    reflexivity.
Defined.

Section ArraysAsLists.

Import Convert.

Context {enc : Encoding}.

(** Only a vector becomes an array. *)
Lemma lisp_to_json_array (room : nat) (lisp : Lisp_Object)
    (conf : json_configuration) :
  match lisp with
  | Vector _ => False
  | _ => True
  end ->
  is_array (lisp_to_json room lisp conf) = false.
Proof.
  intros Hshape.
  assert (Hobject : forall r : outcome (list (list ascii * json_t)),
             is_array (do json <- r; Normal (JSON_OBJECT json)) = false)
    by (intros [| |]; reflexivity).
  assert (Hdeep : forall room',
             is_array
               (match room' with
                | O => xsignal0 Qjson_object_too_deep
                | S room'' =>
                    lisp_to_json_nonscalar_1
                      (fun x => lisp_to_json room'' x conf) lisp
                end) = false).
  { intros [|room'']; [reflexivity|].
    destruct lisp; try contradiction; cbn [lisp_to_json_nonscalar_1];
      try apply Hobject;
      match goal with
      | |- context [NILP ?x] => destruct (NILP x); reflexivity
      end. }
  destruct room; cbn [lisp_to_json];
    (destruct (EQ lisp (null_object conf)); [reflexivity|]);
    (destruct (EQ lisp (false_object conf)); [reflexivity|]);
    (destruct (EQ lisp Qt); [reflexivity|]);
    destruct lisp; try contradiction; try apply (Hdeep 0%nat);
    try apply (Hdeep (S room)).
  all: try (destruct ((JSON_INT_MIN <=? n) && (n <=? JSON_INT_MAX));
            reflexivity).
  all: destruct (utf8_check_string data); [reflexivity|];
    unfold json_check_utf8; destruct (utf8_string_p data); reflexivity.
Qed.

End ArraysAsLists.

(** X17.  An array read as a list is not written back as an array.
    With [:array-type list], whatever [json_to_lisp] returns for a
    JSON array, [lisp_to_json] does not convert to an array again, at
    any depth: the empty list is [nil], which becomes an object or
    the value that [nil] stands for, and a longer list is taken for
    a plist or an alist. *)
Theorem array_read_as_list_is_not_written_back :
  forall (enc : Convert.Encoding) (conf : json_configuration)
         (room room' : nat) (elts : list json_t) (v : Lisp_Object),
    array_type conf = json_array_list ->
    Convert.json_to_lisp room (JSON_ARRAY elts) conf = Convert.Normal v ->
    Convert.is_array (Convert.lisp_to_json room' v conf) = false.
Proof.
  intros enc conf room room' elts v Hlist Hrun.
  apply lisp_to_json_array.
  destruct room; cbn [Convert.json_to_lisp] in Hrun; [discriminate|].
  destruct (PTRDIFF_MAX <? Z.of_nat (length elts)); [discriminate|].
  rewrite Hlist in Hrun.
  apply cons_backwards_Normal in Hrun. destruct Hrun as (vs & _ & ->).
  destruct vs; exact I.
Qed.

Lemma array_read_as_list_is_not_written_back_witness :
  Convert.is_array
    (Convert.lisp_to_json (enc := Convert.unicode) 5
                          (Flist [Fixnum 1; Fixnum 2]) list_conf)
  = false.
Proof.
  apply (array_read_as_list_is_not_written_back
           Convert.unicode list_conf 1 5
           [JSON_INTEGER 1; JSON_INTEGER 2] (Flist [Fixnum 1; Fixnum 2]));
    reflexivity.
Defined.

Section ValuesOfTheOutput.

Import Convert.

Context {enc : Encoding}.

Variable P : json_t -> Prop.
Variable g : Lisp_Object -> outcome json_t.
Hypothesis g_sound : forall x j, g x = Normal j -> P j.

(** Every value the loops of [lisp_to_json] store comes from the
    conversion of an element. *)
Lemma append_elements_values (elts : list Lisp_Object) :
  forall acc json,
    Forall P acc ->
    append_elements g elts acc = Normal json ->
    Forall P json.
Proof.
  induction elts as [|x elts IH]; intros acc json Hacc H;
    cbn [append_elements] in H.
  - now injection H as <-.
  - apply chain_Normal in H. destruct H as (j & Hj & H).
    apply (IH (acc ++ [j]) json); [|exact H].
    apply Forall_app. split; [exact Hacc|].
    constructor; [eauto | constructor].
Qed.

Lemma set_entries_values (lisp : Lisp_Object)
    (entries : list (Lisp_Object * Lisp_Object)) :
  forall acc json,
    Forall (fun kv => P (snd kv)) acc ->
    set_entries g lisp entries acc = Normal json ->
    Forall (fun kv => P (snd kv)) json.
Proof.
  induction entries as [|[key value] entries IH]; intros acc json Hacc H;
    cbn [set_entries] in H.
  - now injection H as <-.
  - destruct key as [| |ekey| | |]; try discriminate H.
    apply chain_Normal in H. destruct H as (_ & _ & H).
    destruct (json_object_get acc ekey); [discriminate H|].
    apply chain_Normal in H. destruct H as (j & Hj & H).
    unfold json_object_set_new in H.
    destruct (utf8_check_string ekey).
    + apply (IH (acc ++ [(ekey, j)]) json); [|exact H].
      apply Forall_app. split; [exact Hacc|].
      constructor; [cbn [snd]; eauto | constructor].
    + apply chain_Normal in H. destruct H as (_ & _ & H). discriminate H.
Qed.

Lemma add_member_values (is_plist : bool) (key_symbol value : Lisp_Object) :
  forall acc json,
    Forall (fun kv => P (snd kv)) acc ->
    add_member g is_plist key_symbol value acc = Normal json ->
    Forall (fun kv => P (snd kv)) json.
Proof.
  intros acc json Hacc H. unfold add_member in H.
  destruct key_symbol as [name| | | | |]; try discriminate H.
  apply chain_Normal in H. destruct H as (_ & _ & H).
  match type of H with
  | context [json_object_get acc ?k] =>
      destruct (json_object_get acc k);
      [now injection H as <- |];
      apply chain_Normal in H; destruct H as (j & Hj & H);
      unfold json_object_set_new in H;
      destruct (utf8_check_string k); [|discriminate H]
  end.
  injection H as <-. apply Forall_app. split; [exact Hacc|].
  constructor; [cbn [snd]; eauto | constructor].
Qed.

Lemma for_each_tail_values (is_plist : bool) (lisp tail : Lisp_Object) :
  forall acc json,
    Forall (fun kv => P (snd kv)) acc ->
    for_each_tail g is_plist lisp tail acc = Normal json ->
    Forall (fun kv => P (snd kv)) json.
Proof.
  assert (Hcells : forall (n : nat) (tail : Lisp_Object) acc json,
             (spine tail <= n)%nat ->
             Forall (fun kv => P (snd kv)) acc ->
             for_each_tail g is_plist lisp tail acc = Normal json ->
             Forall (fun kv => P (snd kv)) json).
  { clear tail. induction n as [|n IH]; intros tail acc json Hn Hacc H;
      (destruct tail as [s|z|data|car cdr|elts|entries];
       cbn [for_each_tail] in H;
       try (destruct (NILP _); [now injection H as <- | discriminate H]));
      cbn [spine] in Hn; [lia|].
    destruct is_plist.
    - destruct cdr as [| | |value rest| |]; try discriminate H.
      apply chain_Normal in H. destruct H as (json' & Hadd & H).
      cbn [spine] in Hn.
      apply (IH rest json' json); [lia | | exact H].
      now apply (add_member_values true car value acc json').
    - destruct car as [| | |key_symbol value| |]; try discriminate H.
      apply chain_Normal in H. destruct H as (json' & Hadd & H).
      apply (IH cdr json' json); [lia | | exact H].
      now apply (add_member_values false key_symbol value acc json'). }
  intros acc json. now apply (Hcells (spine tail)).
Qed.

Lemma lisp_to_json_nonscalar_1_values (lisp : Lisp_Object) (json : json_t) :
  lisp_to_json_nonscalar_1 g lisp = Normal json ->
  match json with
  | JSON_ARRAY elts => Forall P elts
  | JSON_OBJECT members => Forall (fun kv => P (snd kv)) members
  | _ => False
  end.
Proof.
  unfold lisp_to_json_nonscalar_1. intros H.
  destruct lisp as [s|z|data|car cdr|elts|entries];
    try (destruct (NILP _); [injection H as <-; constructor
                            | discriminate H]);
    apply chain_Normal in H; destruct H as (j & Hj & H);
    injection H as <-.
  - eapply for_each_tail_values; [|exact Hj]. constructor.
  - eapply append_elements_values; [|exact Hj]. constructor.
  - eapply set_entries_values; [|exact Hj]. constructor.
Qed.

End ValuesOfTheOutput.

Section NoFalse.

Import Convert.

Context {enc : Encoding}.

Lemma existsb_false_Forall {A} (p : A -> bool) (l : list A) :
  Forall (fun x => p x = false) l -> existsb p l = false.
Proof.
  induction 1 as [|x l Hx _ IH]; [reflexivity|].
  cbn [existsb]. now rewrite Hx, IH.
Qed.

Lemma lisp_to_json_no_false (conf : json_configuration) :
  EQ (false_object conf) (null_object conf) = true ->
  forall (room : nat) (lisp : Lisp_Object) (json : json_t),
    lisp_to_json room lisp conf = Normal json ->
    has_false json = false.
Proof.
  intros Hsame.
  assert (Hscalar : forall (lisp : Lisp_Object) (json : json_t)
                           (deep : outcome json_t),
             (deep = Normal json -> has_false json = false) ->
             (if EQ lisp (null_object conf) then Normal JSON_NULL
              else if EQ lisp (false_object conf) then Normal JSON_FALSE
              else if EQ lisp Qt then Normal JSON_TRUE
              else
                match lisp with
                | Fixnum value =>
                    if (JSON_INT_MIN <=? value) && (value <=? JSON_INT_MAX)
                    then Normal (JSON_INTEGER value)
                    else Xsignal Qargs_out_of_range
                                 (list3 lisp (Fixnum JSON_INT_MIN)
                                        (Fixnum JSON_INT_MAX))
                | LString encoded =>
                    if utf8_check_string encoded
                    then Normal (JSON_STRING encoded)
                    else do _ <- json_check_utf8 encoded; json_out_of_memory
                | _ => deep
                end) = Normal json ->
             has_false json = false).
  { intros lisp json deep Hdeep H.
    destruct (EQ lisp (null_object conf)) eqn:Enull;
      [now injection H as <-|].
    destruct (EQ lisp (false_object conf)) eqn:Efalse.
    { rewrite (EQ_trans _ _ _ Efalse Hsame) in Enull. discriminate. }
    destruct (EQ lisp Qt); [now injection H as <-|].
    destruct lisp as [s|value|encoded|car cdr|elts|entries]; auto.
    - destruct ((JSON_INT_MIN <=? value) && (value <=? JSON_INT_MAX));
        [now injection H as <- | discriminate H].
    - destruct (utf8_check_string encoded); [now injection H as <-|].
      apply chain_Normal in H. destruct H as (_ & _ & H). discriminate H. }
  induction room as [|room IH]; intros lisp json H;
    cbn [lisp_to_json] in H.
  - eapply Hscalar; [|exact H]. discriminate.
  - eapply Hscalar; [|exact H]. intros Hdeep.
    apply (lisp_to_json_nonscalar_1_values
             (fun j => has_false j = false) _ IH) in Hdeep.
    destruct json; try contradiction; cbn [has_false];
      now apply existsb_false_Forall.
Qed.

End NoFalse.

(** X18.  When one object stands for both null and false, the output
    of [lisp_to_json] holds no JSON false, at any depth of the value:
    the test for null comes first.  This is the remark that closes
    the documentation of [json-serialize]. *)
Theorem no_false_when_null_and_false_coincide :
  forall (enc : Convert.Encoding) (conf : json_configuration) (room : nat)
         (lisp : Lisp_Object) (json : json_t),
    EQ (false_object conf) (null_object conf) = true ->
    Convert.lisp_to_json room lisp conf = Convert.Normal json ->
    Convert.has_false json = false.
Proof.
  intros enc conf room lisp json Hsame Hrun.
  exact (lisp_to_json_no_false conf Hsame room lisp json Hrun).
Qed.

Lemma no_false_when_null_and_false_coincide_witness :
  Convert.has_false
    (JSON_ARRAY [JSON_NULL; JSON_OBJECT [(chars "a", JSON_NULL)];
                 JSON_ARRAY []])
  = false.
Proof.
  apply (no_false_when_null_and_false_coincide
           Convert.unicode merged_conf 2
           (Vector [Qnil; Flist [Fcons (Symbol "a") Qnil]; Vector []]));
    reflexivity.
Defined.

Section Duplicates.

Import Convert.

Context {enc : Encoding}.

Variable g : Lisp_Object -> outcome json_t.

Lemma json_object_get_grows (json : list (list ascii * json_t))
    (k k' : list ascii) (x : json_t) :
  json_object_get json k' = true ->
  json_object_get (json ++ [(k, x)]) k' = true.
Proof.
  unfold json_object_get. intros H. now rewrite existsb_app, H.
Qed.

Lemma json_object_get_last (json : list (list ascii * json_t))
    (k : list ascii) (x : json_t) :
  json_object_get (json ++ [(k, x)]) k = true.
Proof.
  unfold json_object_get. rewrite existsb_app. cbn [existsb fst].
  destruct (list_eq_dec ascii_dec k k); [|contradiction].
  apply Bool.orb_true_r.
Qed.

(** A member of an alist that has been handled: its name has no NUL
    and the object holds its key from then on. *)
Lemma add_member_alist (name : string) (value : Lisp_Object)
    (json json' : list (list ascii * json_t)) :
  add_member g false (Symbol name) value json = Normal json' ->
  has_NUL (list_ascii_of_string name) = false
  /\ json_object_get json' (list_ascii_of_string name) = true
  /\ forall k, json_object_get json k = true ->
               json_object_get json' k = true.
Proof.
  unfold add_member, check_string_without_embedded_nulls.
  destruct (has_NUL (list_ascii_of_string name)); [discriminate|].
  cbn [chain andb].
  assert (Hkey : match list_ascii_of_string name with
                 | c :: (_ :: _) as rest => list_ascii_of_string name
                 | _ => list_ascii_of_string name
                 end = list_ascii_of_string name)
    by (destruct (list_ascii_of_string name) as [|c [|c' k]]; reflexivity).
  rewrite Hkey.
  destruct (json_object_get json (list_ascii_of_string name)) eqn:Hget.
  - intros H. injection H as <-. auto.
  - intros H. apply chain_Normal in H. destruct H as (j & _ & H).
    unfold json_object_set_new in H.
    destruct (utf8_check_string (list_ascii_of_string name));
      [|discriminate H].
    injection H as <-. split; [reflexivity|].
    split; [apply json_object_get_last|].
    intros k. apply json_object_get_grows.
Qed.

Lemma add_member_again (name : string) (value : Lisp_Object)
    (json : list (list ascii * json_t)) :
  has_NUL (list_ascii_of_string name) = false ->
  json_object_get json (list_ascii_of_string name) = true ->
  add_member g false (Symbol name) value json = Normal json.
Proof.
  intros Hnul Hget.
  unfold add_member, check_string_without_embedded_nulls.
  rewrite Hnul. cbn [chain andb].
  destruct (list_ascii_of_string name) as [|c [|c' k]];
    now rewrite Hget.
Qed.

Lemma for_each_tail_alist_keys (lisp : Lisp_Object)
    (pairs : list (string * Lisp_Object)) :
  forall acc json,
    for_each_tail g false lisp (alist_of pairs) acc = Normal json ->
    (forall k, json_object_get acc k = true ->
               json_object_get json k = true)
    /\ forall name,
        In name (map fst pairs) ->
        has_NUL (list_ascii_of_string name) = false
        /\ json_object_get json (list_ascii_of_string name) = true.
Proof.
  induction pairs as [|[name value] pairs IH]; intros acc json H.
  - cbn in H. injection H as <-. split; [auto | intros name []].
  - unfold alist_of in H. cbn [map Flist fold_right for_each_tail] in H.
    unfold Fcons at 1 in H. cbn [fst snd] in H.
    apply chain_Normal in H. destruct H as (json' & Hadd & H).
    apply add_member_alist in Hadd. destruct Hadd as (Hnul & Hget & Hgrow).
    destruct (IH json' json H) as [Hkeep Hkeys].
    split; [auto|].
    intros name' [<-|Hin]; [split; auto | now apply Hkeys].
Qed.

Lemma for_each_tail_alist_app (lisp lisp' : Lisp_Object)
    (pairs : list (string * Lisp_Object)) (name : string)
    (value : Lisp_Object) :
  forall acc json,
    for_each_tail g false lisp (alist_of pairs) acc = Normal json ->
    for_each_tail g false lisp' (alist_of (pairs ++ [(name, value)])) acc
    = add_member g false (Symbol name) value json.
Proof.
  induction pairs as [|[name0 value0] pairs IH]; intros acc json H.
  - cbn in H. injection H as <-.
    unfold alist_of. cbn [app map Flist fold_right for_each_tail].
    unfold Fcons at 1. cbn [fst snd].
    destruct (add_member g false (Symbol name) value acc); reflexivity.
  - unfold alist_of in H |- *.
    cbn [app map Flist fold_right for_each_tail] in H |- *.
    unfold Fcons at 1 in H. unfold Fcons at 1. cbn [fst snd] in H |- *.
    apply chain_Normal in H. destruct H as (json' & Hadd & H).
    rewrite Hadd. cbn [chain]. now apply IH.
Qed.

End Duplicates.

(** X19.  In an alist a key that comes again is ignored with its
    value.  If [lisp_to_json] converts an alist, it converts the
    alist with one more pair at its end, under a key that the alist
    has already, to the same object: the value of that pair is not
    looked at, so it may be one that has no JSON form. *)
Theorem later_duplicate_in_alist_is_ignored :
  forall (enc : Convert.Encoding) (conf : json_configuration) (room : nat)
         (pairs : list (string * Lisp_Object)) (name : string)
         (value : Lisp_Object) (json : json_t),
    In name (map fst pairs) ->
    Convert.lisp_to_json room (Convert.alist_of pairs) conf
    = Convert.Normal json ->
    Convert.lisp_to_json room
                         (Convert.alist_of (pairs ++ [(name, value)])) conf
    = Convert.Normal json.
Proof.
  intros enc conf room pairs name value json Hin Hrun.
  destruct pairs as [|[name0 value0] pairs]; [destruct Hin|].
  destruct room as [|room]; [discriminate Hrun|].
  change (Convert.alist_of ((name0, value0) :: pairs))
    with (Cons (Cons (Symbol name0) value0) (Convert.alist_of pairs))
    in Hrun.
  change (Convert.alist_of (((name0, value0) :: pairs) ++ [(name, value)]))
    with (Cons (Cons (Symbol name0) value0)
               (Convert.alist_of (pairs ++ [(name, value)]))).
  cbn [Convert.lisp_to_json EQ Convert.lisp_to_json_nonscalar_1
       Convert.CONSP negb] in Hrun |- *.
  apply chain_Normal in Hrun. destruct Hrun as (members & Hloop & Hjson).
  injection Hjson as <-.
  change (Cons (Cons (Symbol name0) value0) (Convert.alist_of pairs))
    with (Convert.alist_of ((name0, value0) :: pairs)) in Hloop at 2.
  destruct (for_each_tail_alist_keys _ _ _ _ _ Hloop) as [_ Hkeys].
  destruct (Hkeys name Hin) as [Hnul Hget].
  match goal with
  | |- Convert.chain (Convert.for_each_tail ?g _ ?l _ _) _ = _ =>
      assert (Ht : Convert.for_each_tail g false l l []
                   = Convert.Normal members);
      [ etransitivity;
        [ exact (for_each_tail_alist_app
                   g _ l ((name0, value0) :: pairs) name value []
                   members Hloop)
        | now apply add_member_again ]
      | rewrite Ht; reflexivity ]
  end.
Qed.

Lemma later_duplicate_in_alist_is_ignored_witness :
  Convert.lisp_to_json
    (enc := Convert.unicode) 1
    (Convert.alist_of ([("a"%string, Fixnum 1); ("b"%string, Qt)]
                       ++ [("a"%string, Symbol "no-json-form")]))
    default_conf
  = Convert.Normal
      (JSON_OBJECT [(chars "a", JSON_INTEGER 1); (chars "b", JSON_TRUE)]).
Proof.
  apply (later_duplicate_in_alist_is_ignored
           Convert.unicode default_conf 1
           [("a"%string, Fixnum 1); ("b"%string, Qt)]
           "a"%string (Symbol "no-json-form")).
  - simpl. auto.
  - reflexivity.
Defined.

Section Depth.

Import Convert.

Variable f : json_t -> outcome Lisp_Object.
Variable deep : json_t -> bool.

Lemma graded_chain {A B} (b : bool) (r : outcome A) (k : A -> outcome B)
    (b' : bool) :
  graded b r ->
  (forall a, r = Normal a -> graded b' (k a)) ->
  graded (b || b') (chain r k).
Proof.
  unfold graded. destruct b; cbn [orb].
  - intros -> _. reflexivity.
  - intros [a ->] Hk. cbn [chain]. now apply Hk.
Qed.

Lemma graded_return {A B} (b : bool) (r : outcome A) (k : A -> B) :
  graded b r -> graded b (do a <- r; Normal (k a)).
Proof.
  intros Hr. rewrite <- (Bool.orb_false_r b).
  apply graded_chain; [exact Hr|]. intros a _. now exists (k a).
Qed.

Lemma fill_vector_graded (elts : list json_t) :
  (forall x, In x elts -> graded (deep x) (f x)) ->
  graded (existsb deep elts) (fill_vector f elts).
Proof.
  induction elts as [|x elts IH]; intros Hf;
    cbn [existsb fill_vector]; [now exists []|].
  apply graded_chain; [apply Hf; now left|]. intros v _.
  apply graded_return, IH. intros x' Hin. apply Hf. now right.
Qed.

Lemma cons_backwards_graded (elts : list json_t) :
  (forall x, In x elts -> graded (deep x) (f x)) ->
  graded (existsb deep elts) (cons_backwards f elts).
Proof.
  induction elts as [|x elts IH]; intros Hf;
    cbn [existsb cons_backwards]; [now exists Qnil|].
  rewrite Bool.orb_comm.
  apply graded_chain; [apply IH; intros x' Hin; apply Hf; now right|].
  intros result _. apply graded_return, Hf. now left.
Qed.

Lemma push_pairs_graded (members : list (list ascii * json_t)) :
  (forall kv, In kv members -> graded (deep (snd kv)) (f (snd kv))) ->
  forall result,
    graded (existsb (fun kv => deep (snd kv)) members)
           (push_pairs f members result).
Proof.
  induction members as [|[k x] members IH]; intros Hf result;
    cbn [existsb push_pairs]; [now exists result|].
  apply graded_chain; [apply (Hf (k, x)); now left|]. intros v _.
  apply IH. intros kv Hin. apply Hf. now right.
Qed.

Lemma push_properties_graded (members : list (list ascii * json_t)) :
  (forall kv, In kv members -> graded (deep (snd kv)) (f (snd kv))) ->
  forall result,
    graded (existsb (fun kv => deep (snd kv)) members)
           (push_properties f members result).
Proof.
  induction members as [|[k x] members IH]; intros Hf result;
    cbn [existsb push_properties]; [now exists result|].
  apply graded_chain; [apply (Hf (k, x)); now left|]. intros v _.
  apply IH. intros kv Hin. apply Hf. now right.
Qed.

Lemma has_key_app (h : list (Lisp_Object * Lisp_Object))
    (k k' : list ascii) (v : Lisp_Object) :
  has_key h k' = false ->
  k <> k' ->
  has_key (h ++ [(LString k, v)]) k' = false.
Proof.
  unfold has_key. intros H Hne.
  rewrite existsb_app, H. cbn [existsb fst orb].
  destruct (list_eq_dec ascii_dec k k'); [contradiction | reflexivity].
Qed.

Lemma put_members_graded (members : list (list ascii * json_t)) :
  (forall kv, In kv members -> graded (deep (snd kv)) (f (snd kv))) ->
  forall h,
    distinct (map (fun kv => cstr (fst kv)) members) = true ->
    (forall kv, In kv members -> has_key h (cstr (fst kv)) = false) ->
    graded (existsb (fun kv => deep (snd kv)) members)
           (put_members f members h).
Proof.
  induction members as [|[k x] members IH]; intros Hf h Hdist Hfresh;
    cbn [existsb put_members]; [now exists h|].
  pose proof (Hfresh (k, x) (or_introl eq_refl)) as Hk.
  cbn [fst] in Hk. rewrite Hk.
  cbn [map fst] in Hdist. apply distinct_cons in Hdist.
  destruct Hdist as [Hdist Hne].
  apply graded_chain; [apply (Hf (k, x)); now left|]. intros v _.
  apply IH; [intros kv Hin; apply Hf; now right | exact Hdist |].
  intros kv Hin. apply has_key_app; [apply Hfresh; now right|].
  apply Hne. now apply (in_map (fun kv => cstr (fst kv))).
Qed.

End Depth.

Lemma deeper_than (room : nat) {A} (depth : A -> nat) (l : list A) :
  (room <? list_max (map depth l))%nat
  = existsb (fun x => (room <? depth x)%nat) l.
Proof.
  induction l as [|x l IH]; [reflexivity|].
  cbn [map list_max fold_right existsb]. rewrite <- IH.
  change (fold_right Nat.max 0%nat (map depth l))
    with (list_max (map depth l)).
  destruct (Nat.ltb_spec room (depth x)),
    (Nat.ltb_spec room (list_max (map depth l)));
    cbn [orb]; apply Nat.ltb_lt || apply Nat.ltb_ge; lia.
Qed.

(** [json_to_lisp] stops on the depth, or returns. *)
Lemma json_to_lisp_graded (conf : json_configuration) :
  forall (room : nat) (json : json_t),
    Convert.storable json = true ->
    Convert.graded (room <? Convert.nesting json)%nat
                   (Convert.json_to_lisp room json conf).
Proof.
  induction room as [|room IH]; intros json Hst;
    destruct json as [| | |i|s|elts|members];
    cbn [Convert.json_to_lisp Convert.nesting];
    try (eexists; reflexivity); try reflexivity;
    cbn [Convert.storable] in Hst.
  - (* an array *)
    apply Bool.andb_true_iff in Hst. destruct Hst as [Hsize Hst].
    rewrite forallb_forall in Hst.
    replace (PTRDIFF_MAX <? Z.of_nat (length elts)) with false by lia.
    change (S room <? S ?n)%nat with (room <? n)%nat.
    rewrite deeper_than.
    destruct (array_type conf).
    + apply graded_return, fill_vector_graded. auto.
    + apply cons_backwards_graded. auto.
  - (* an object *)
    apply Bool.andb_true_iff in Hst. destruct Hst as [Hst Hvalues].
    apply Bool.andb_true_iff in Hst. destruct Hst as [Hsize Hdist].
    rewrite forallb_forall in Hvalues.
    change (S room <? S ?n)%nat with (room <? n)%nat.
    rewrite (deeper_than room (fun kv => Convert.nesting (snd kv))).
    destruct (object_type conf).
    + replace (Convert.MOST_POSITIVE_FIXNUM <? Z.of_nat (length members))
        with false by lia.
      apply graded_return.
      apply (put_members_graded
               _ (fun x => (room <? Convert.nesting x)%nat)); auto.
    + apply graded_return.
      apply (push_pairs_graded
               _ (fun x => (room <? Convert.nesting x)%nat)). auto.
    + apply graded_return.
      apply (push_properties_graded
               _ (fun x => (room <? Convert.nesting x)%nat)). auto.
Qed.

(** X20.  [json_to_lisp] fails on the depth and on nothing else.  For
    a value whose sizes are within the limits the function checks and
    whose objects have distinct keys, it returns a Lisp value when
    the nesting of arrays and objects is at most the number of levels
    left before [max_lisp_eval_depth], and signals
    [json-object-too-deep] when the nesting is larger, whatever the
    configuration. *)
Theorem json_to_lisp_fails_on_depth_only :
  forall (conf : json_configuration) (room : nat) (json : json_t),
    Convert.storable json = true ->
    ((Convert.nesting json <= room)%nat ->
     exists v, Convert.json_to_lisp room json conf = Convert.Normal v)
    /\ ((room < Convert.nesting json)%nat ->
        Convert.json_to_lisp room json conf
        = Convert.Xsignal Convert.Qjson_object_too_deep Qnil).
Proof.
  intros conf room json Hst.
  pose proof (json_to_lisp_graded conf room json Hst) as H.
  unfold Convert.graded in H.
  destruct (Nat.ltb_spec room (Convert.nesting json)); split;
    intros; try lia; exact H.
Qed.

Lemma json_to_lisp_fails_on_depth_only_witness :
  (exists v, Convert.json_to_lisp 3 request_json plist_conf
             = Convert.Normal v)
  /\ Convert.json_to_lisp 2 request_json plist_conf
     = Convert.Xsignal Convert.Qjson_object_too_deep Qnil.
Proof.
  split.
  - apply (json_to_lisp_fails_on_depth_only plist_conf 3 request_json);
      [reflexivity | simpl; lia].
  - apply (json_to_lisp_fails_on_depth_only plist_conf 2 request_json);
      [reflexivity | simpl; lia].
Defined.

(** X21.  The empty key does not survive a plist.  [json_to_lisp]
    makes the keyword [:] of the empty key, and [lisp_to_json] strips
    the colon of a keyword only when something follows it: an object
    whose only key is empty, read as a plist and written back, has
    the key [:] instead, with the same value. *)
Theorem empty_key_comes_back_as_a_colon :
  forall (enc : Convert.Encoding) (conf : json_configuration) (room : nat)
         (x : json_t) (v : Lisp_Object),
    object_type conf = json_object_plist ->
    Convert.utf8_check_string (chars ":") = true ->
    Convert.json_to_lisp room x conf = Convert.Normal v ->
    Convert.lisp_to_json room v conf = Convert.Normal x ->
    Convert.json_to_lisp (S room) (JSON_OBJECT [([], x)]) conf
    = Convert.Normal (Flist [Symbol ":"; v])
    /\ Convert.lisp_to_json (S room) (Flist [Symbol ":"; v]) conf
       = Convert.Normal (JSON_OBJECT [(chars ":", x)]).
Proof.
  intros enc conf room x v Hplist Hutf Hto Hback. split.
  - cbn [Convert.json_to_lisp]. rewrite Hplist.
    cbn [Convert.push_properties]. rewrite Hto. reflexivity.
  - cbn [Flist fold_right Convert.lisp_to_json EQ
         Convert.lisp_to_json_nonscalar_1 Convert.CONSP negb
         Convert.for_each_tail].
    unfold Convert.add_member.
    cbn [list_ascii_of_string Convert.check_string_without_embedded_nulls].
    change (has_NUL [":"%char]) with false.
    cbn [Convert.chain Convert.json_object_get existsb].
    rewrite Hback. cbn [Convert.chain].
    unfold Convert.json_object_set_new.
    change (chars ":") with [":"%char] in Hutf. rewrite Hutf.
    reflexivity.
Qed.

Lemma empty_key_comes_back_as_a_colon_witness :
  Convert.json_to_lisp 1 (JSON_OBJECT [([], JSON_TRUE)]) plist_conf
  = Convert.Normal (Flist [Symbol ":"; Qt])
  /\ Convert.lisp_to_json (enc := Convert.unicode) 1
                          (Flist [Symbol ":"; Qt]) plist_conf
     = Convert.Normal (JSON_OBJECT [(chars ":", JSON_TRUE)]).
Proof.
  apply (empty_key_comes_back_as_a_colon
           Convert.unicode plist_conf 0 JSON_TRUE Qt);
    reflexivity.
Defined.

(** X22.  [json_rpc_state_free] can only free a connection whose
    handle a run of [json-rpc] has closed.  Its assertion fails on a
    connection that [json-rpc-connection] has just made, and on one
    that a run of [json-rpc] left by a signal while the handle was
    open. *)
Theorem connection_cannot_be_freed_before_its_handle_is_closed :
  forall (collab : Collaborator) (h : SSP_Handle) (child : Z)
         (mem : Z -> ascii) (callback : lisp_function)
         (args : list Lisp_Object) (st : json_rpc_state) (e : lisp_error),
    is_some (handle st) = true ->
    fst (Fjson_rpc callback args st) = Signal e ->
    fst (json_rpc_state_free (Fjson_rpc_connection h child mem))
    = Crash AssertionFailed
    /\ fst (json_rpc_state_free (snd (Fjson_rpc callback args st)))
       = Crash AssertionFailed.
Proof.
  intros collab h child mem callback args st e Hopen Hsig.
  split; [reflexivity|].
  destruct (Fjson_rpc callback args st) as [r st'] eqn:Hrun.
  cbn [fst snd] in *. subst r.
  destruct (Fjson_rpc_signals callback args st st' e Hrun)
    as (_ & Hsome & _).
  unfold json_rpc_state_free, bindM, get.
  rewrite Hsome, Hopen. reflexivity.
Qed.

Lemma connection_cannot_be_freed_before_its_handle_is_closed_witness :
  fst (json_rpc_state_free (Fjson_rpc_connection idle_handle 1
                                                 (fun _ => NUL)))
  = Crash AssertionFailed
  /\ fst (json_rpc_state_free
            (snd (Fjson_rpc failing_handler [] noisy_state)))
     = Crash AssertionFailed.
Proof.
  apply (connection_cannot_be_freed_before_its_handle_is_closed
           Reference.collaborator idle_handle 1 (fun _ => NUL)
           failing_handler [] noisy_state (handler_error Qnil)).
  - reflexivity.
  - vm_compute. reflexivity.
Defined.

(** ** The tests on error texts *)

Lemma starts_with_spec (a b : list ascii) :
  starts_with a b = true <-> exists rest, b = a ++ rest.
Proof.
  revert b. induction a as [|x a IH]; intros b; cbn [starts_with app].
  - split; eauto.
  - destruct b as [|y b].
    + split; [discriminate | intros [rest H]; discriminate H].
    + rewrite Bool.andb_true_iff, Ascii.eqb_eq, IH. split.
      * intros [-> [rest ->]]. eauto.
      * intros [rest H]. injection H as -> ->. eauto.
Qed.

Lemma strncmp_eq_spec (prefix : list ascii) :
  forall string,
    strncmp_eq string prefix (length (cstr prefix))
    = starts_with (cstr prefix) (cstr string).
Proof.
  induction prefix as [|c prefix IH]; intros string; [reflexivity|].
  cbn [cstr]. destruct (Ascii.eqb c NUL) eqn:Ec; [reflexivity|].
  cbn [length strncmp_eq hd tl].
  destruct string as [|d string]; cbn [hd tl cstr starts_with].
  - rewrite Ascii.eqb_sym, Ec. reflexivity.
  - destruct (Ascii.eqb d c) eqn:Edc.
    + apply Ascii.eqb_eq in Edc. subst d. rewrite Ec.
      cbn [starts_with]. rewrite Ascii.eqb_refl. apply IH.
    + destruct (Ascii.eqb d NUL); [reflexivity|].
      cbn [starts_with]. rewrite Ascii.eqb_sym, Edc. reflexivity.
Qed.

Lemma memcmp_eq_spec (n : nat) :
  forall p1 p2,
    memcmp_eq p1 p2 n = true
    <-> firstn n p1 = firstn n p2
        /\ (n <= length p1)%nat /\ (n <= length p2)%nat.
Proof.
  induction n as [|n IH]; intros p1 p2; cbn [memcmp_eq firstn].
  - split; [intros _; repeat split; lia | reflexivity].
  - destruct p1 as [|c1 r1], p2 as [|c2 r2]; cbn [length];
      try (split; [discriminate | intros (_ & H1 & H2); lia]).
    rewrite Bool.andb_true_iff, Ascii.eqb_eq, IH. split.
    + intros [-> (-> & H1 & H2)]. repeat split; lia.
    + intros (H & H1 & H2). injection H as -> ->. repeat split; lia.
Qed.

Lemma cstr_firstn (s : list ascii) : cstr s = firstn (length (cstr s)) s.
Proof.
  induction s as [|c s IH]; [reflexivity|].
  cbn [cstr]. destruct (Ascii.eqb c NUL); [reflexivity|].
  cbn [length firstn]. now rewrite <- IH.
Qed.

(** X23.  [json_has_prefix] and [json_has_suffix] decide what their
    names say, on the C strings they are given: the first holds
    exactly when the string is the prefix followed by some text, the
    second exactly when it is some text followed by the suffix. *)
Theorem json_has_prefix_and_suffix_decide_prefix_and_suffix :
  forall string affix : list ascii,
    (json_has_prefix string affix = true
     <-> exists rest, cstr string = cstr affix ++ rest)
    /\ (json_has_suffix string affix = true
        <-> exists rest, cstr string = rest ++ cstr affix).
Proof.
  intros string affix. split.
  - unfold json_has_prefix, strlen. rewrite Nat2Z.id, strncmp_eq_spec.
    apply starts_with_spec.
  - unfold json_has_suffix, strlen.
    rewrite Bool.andb_true_iff, Z.leb_le, memcmp_eq_spec, Nat2Z.id.
    replace (Z.to_nat (Z.of_nat (length (cstr string))
                       - Z.of_nat (length (cstr affix))))
      with (length (cstr string) - length (cstr affix))%nat by lia.
    rewrite <- (cstr_firstn affix).
    pose proof (cstr_length string) as Hs.
    pose proof (cstr_length affix) as Ha.
    pose proof (cstr_firstn string) as Hcs.
    remember (length (cstr string)) as ls eqn:Els.
    remember (length (cstr affix)) as la eqn:Ela.
    assert (Hskip : (la <= ls)%nat ->
                    firstn la (skipn (ls - la) string)
                    = skipn (ls - la) (cstr string)).
    { intros Hle. rewrite Hcs at 1. rewrite skipn_firstn_comm.
      f_equal. lia. }
    split.
    + intros (Hle & Heq & _).
      exists (firstn (ls - la) (cstr string)).
      rewrite <- Heq, Hskip by lia.
      symmetry. apply firstn_skipn.
    + intros [rest Hrest].
      assert (Hlen : ls = (length rest + la)%nat)
        by (rewrite Els, Hrest, length_app, <- Ela; reflexivity).
      split; [lia|]. split; [|rewrite length_skipn; lia].
      rewrite Hskip by lia.
      replace (ls - la)%nat with (length rest) by lia.
      rewrite Hrest, skipn_app, skipn_all, Nat.sub_diag. reflexivity.
Qed.

Lemma Forall2_map_eq {A B} (t : A -> B) (l : list A) (vs : list B) :
  Forall2 (fun x v => v = t x) l vs -> vs = map t l.
Proof.
  induction 1 as [|x v l vs Hv _ IH]; [reflexivity|].
  cbn [map]. now rewrite Hv, IH.
Qed.

Lemma map_combine_map {A B C} (t : A -> B) (k : A -> B -> C)
    (l : list A) :
  map (fun p => k (fst p) (snd p)) (combine l (map t l))
  = map (fun x => k x (t x)) l.
Proof.
  induction l as [|x l IH]; [reflexivity|].
  cbn [map combine fst snd]. now rewrite IH.
Qed.

Lemma flat_map_combine_map {A B C} (t : A -> B) (k : A -> B -> list C)
    (l : list A) :
  flat_map (fun p => k (fst p) (snd p)) (combine l (map t l))
  = flat_map (fun x => k x (t x)) l.
Proof.
  induction l as [|x l IH]; [reflexivity|].
  cbn [map combine flat_map fst snd]. now rewrite IH.
Qed.

(** Within the depth, [json_to_lisp] returns the translation. *)
Lemma json_to_lisp_translation (conf : json_configuration) :
  forall (room : nat) (json : json_t) (v : Lisp_Object),
    Convert.json_to_lisp room json conf = Convert.Normal v ->
    v = Convert.translation json conf.
Proof.
  induction room as [|room IH]; intros json v Hrun;
    destruct json as [| | |i|s|elts|members];
    cbn [Convert.json_to_lisp Convert.translation] in Hrun |- *;
    try (injection Hrun as <-; reflexivity);
    try discriminate Hrun.
  - destruct (PTRDIFF_MAX <? Z.of_nat (length elts)); [discriminate|].
    destruct (array_type conf).
    + apply chain_Normal in Hrun. destruct Hrun as (vs & Hfill & Hv).
      injection Hv as <-. apply fill_vector_Normal in Hfill.
      f_equal. apply Forall2_map_eq.
      eapply Forall2_impl_In; [exact Hfill|].
      intros x y _ Hxy. now apply IH.
    + apply cons_backwards_Normal in Hrun.
      destruct Hrun as (vs & Hvs & ->).
      f_equal. apply Forall2_map_eq.
      eapply Forall2_impl_In; [exact Hvs|].
      intros x y _ Hxy. now apply IH.
  - assert (Hvalues : forall vs,
               Forall2 (fun kv v => Convert.json_to_lisp room (snd kv) conf
                                    = Convert.Normal v) members vs ->
               vs = map (fun kv => Convert.translation (snd kv) conf)
                        members).
    { intros vs Hvs. apply Forall2_map_eq.
      eapply Forall2_impl_In; [exact Hvs|].
      intros kv y _ Hxy. now apply IH. }
    destruct (object_type conf).
    + destruct (Convert.MOST_POSITIVE_FIXNUM <? Z.of_nat (length members));
        [discriminate|].
      apply chain_Normal in Hrun. destruct Hrun as (h & Hput & Hv).
      injection Hv as <-. apply put_members_Normal in Hput.
      destruct Hput as (vs & Hvs & ->).
      rewrite (Hvalues vs Hvs). cbn [app]. f_equal.
      apply (map_combine_map _ Convert.entry_of).
    + apply chain_Normal in Hrun. destruct Hrun as (r & Hpush & Hv).
      injection Hv as <-. apply push_pairs_Normal in Hpush.
      destruct Hpush as (vs & Hvs & ->).
      rewrite Fnreverse_pushed, (Hvalues vs Hvs). f_equal.
      apply (map_combine_map _ Convert.pair_of).
    + apply chain_Normal in Hrun. destruct Hrun as (r & Hpush & Hv).
      injection Hv as <-. apply push_properties_Normal in Hpush.
      destruct Hpush as (vs & Hvs & ->).
      rewrite Fnreverse_pushed, (Hvalues vs Hvs). f_equal.
      apply (flat_map_combine_map _ Convert.property_of).
Qed.

(** X24.  [json_to_lisp] keeps the order of what it converts.  For a
    value it has room for, nested no deeper than the levels left, it
    returns the Lisp value of the same shape: the elements of an
    array in their order, in a vector or in a list although the list
    is built from its last element, and the members of an object in
    the order jansson holds them, in a hash table, or in an alist or
    a plist although these are built reversed and turned around at
    the end. *)
Theorem json_to_lisp_keeps_the_order :
  forall (conf : json_configuration) (room : nat) (json : json_t),
    Convert.storable json = true ->
    (Convert.nesting json <= room)%nat ->
    Convert.json_to_lisp room json conf
    = Convert.Normal (Convert.translation json conf).
Proof.
  intros conf room json Hst Hdepth.
  pose proof (json_to_lisp_graded conf room json Hst) as H.
  replace (room <? Convert.nesting json)%nat with false in H
    by (symmetry; apply Nat.ltb_ge; exact Hdepth).
  destruct H as [v Hv]. rewrite Hv. f_equal.
  now apply (json_to_lisp_translation conf room).
Qed.

Lemma json_to_lisp_keeps_the_order_witness :
  Convert.json_to_lisp 3 request_json plist_conf
  = Convert.Normal (Convert.translation request_json plist_conf).
Proof.
  apply (json_to_lisp_keeps_the_order plist_conf 3 request_json);
    [reflexivity | simpl; lia].
Defined.

(** ** How a run of [json-rpc] ends *)

Lemma shrinks_refl (s : json_rpc_state) : shrinks s s.
Proof. unfold shrinks. lia. Qed.

Lemma shrinks_trans (a b c : json_rpc_state) :
  shrinks a b -> shrinks b c -> shrinks a c.
Proof. unfold shrinks. lia. Qed.

Lemma shrinks_same (s s' : json_rpc_state) :
  handle s' = handle s -> shrinks s s'.
Proof. unfold shrinks, schedule_length. intros ->. lia. Qed.

Lemma capture_stderr_handle (bytes : list ascii) (s : json_rpc_state) :
  handle (snd (capture_stderr bytes s)) = handle s.
Proof.
  unfold capture_stderr.
  destruct (Z.of_nat (length bytes) =? 0); [reflexivity|].
  destruct (_ =? ERROR_BUFFER_SIZE); [|reflexivity].
  destruct (strcpy_down _ _ _); reflexivity.
Qed.

(** One [recv] uses up an entry of the schedule, and gives nothing
    when there is none left. *)
Lemma ssp_recv_schedule (h : SSP_Handle) (size stderr_size : Z) :
  (length (schedule (snd (ssp_recv h size stderr_size)))
   <= length (schedule h))%nat
  /\ (is_empty (r_stdout (fst (ssp_recv h size stderr_size))) = false ->
      (length (schedule (snd (ssp_recv h size stderr_size)))
       < length (schedule h))%nat).
Proof.
  unfold ssp_recv. destruct (schedule h) as [|e rest];
    cbn [fst snd schedule r_stdout length is_empty].
  - split; [lia | discriminate].
  - split; intros; lia.
Qed.

(** [read_stdout] never makes the schedule longer, and makes it
    shorter when it returns bytes. *)
Lemma read_stdout_loop_progress (fuel : nat) :
  forall (size : Z) (st : json_rpc_state),
    shrinks st (snd (read_stdout_loop fuel size st))
    /\ forall bytes,
        fst (read_stdout_loop fuel size st) = Ret bytes ->
        is_empty bytes = false ->
        (schedule_length (snd (read_stdout_loop fuel size st))
         < schedule_length st)%nat.
Proof.
  induction fuel as [|fuel IH]; intros size st;
    cbn [read_stdout_loop];
    (destruct (handle st) as [h|] eqn:Hh;
     [|split; [apply shrinks_refl | discriminate]]);
    pose proof (ssp_recv_schedule h size
                  (to_size_t (ERROR_BUFFER_SIZE - error_buffer_read st)))
      as [Hle Hlt];
    destruct (ssp_recv h size
                (to_size_t (ERROR_BUFFER_SIZE - error_buffer_read st)))
      as [r h'];
    cbn [fst snd] in Hle, Hlt;
    pose proof (capture_stderr_handle (r_stderr r)
                  (set_handle st (Some h'))) as Hkeep;
    fields in Hkeep;
    unfold bindM;
    destruct (capture_stderr (r_stderr r) (set_handle st (Some h')))
      as [[[]|e|c] s1];
    cbn [snd] in Hkeep;
    (assert (Hlen : schedule_length s1 = length (schedule h'))
       by (unfold schedule_length; now rewrite Hkeep));
    (assert (Hst : schedule_length st = length (schedule h))
       by (unfold schedule_length; now rewrite Hh));
    try (cbn [fst snd]; split; [unfold shrinks; lia | discriminate]);
    (destruct (is_empty (r_stdout r)) eqn:Hempty; cbn [negb];
     [|unfold ret; cbn [fst snd]; split;
       [unfold shrinks; lia
       |intros bytes _ _; specialize (Hlt eq_refl); lia]]);
    (destruct ((0 <? to_size_t (r_res r)) || ssp_isalive h');
     [|unfold ret; cbn [fst snd]; split;
       [unfold shrinks; lia
       |intros bytes Hb Hne; injection Hb as <-; discriminate Hne]]).
  - unfold ret. cbn [fst snd]. split; [unfold shrinks; lia|].
    intros bytes Hb Hne. injection Hb as <-. discriminate Hne.
  - destruct (IH size s1) as [Hsh Hprog]. split.
    + unfold shrinks in *. lia.
    + intros bytes Hb Hne. specialize (Hprog bytes Hb Hne).
      unfold shrinks in Hsh. lia.
Qed.

Lemma read_stdout_progress (size : Z) (st : json_rpc_state) :
  shrinks st (snd (read_stdout size st))
  /\ forall bytes,
      fst (read_stdout size st) = Ret bytes ->
      is_empty bytes = false ->
      (schedule_length (snd (read_stdout size st)) < schedule_length st)%nat.
Proof.
  unfold read_stdout. destruct (handle st);
    [apply read_stdout_loop_progress|].
  split; [apply shrinks_refl | discriminate].
Qed.

Lemma read_stdout_shrinks (size : Z) : keeps shrinks (read_stdout size).
Proof. intros s. apply read_stdout_progress. Qed.

Lemma read_until_loop_shrinks (room : nat) :
  forall needle output, keeps shrinks (read_until_loop room needle output).
Proof.
  induction room as [|room IH]; intros needle output;
    cbn [read_until_loop];
    (destruct (negb (terminated output));
     [apply (keeps_crashed _ shrinks_refl)|]);
    (destruct (strstr (cstr output) needle);
     [apply (keeps_ret _ shrinks_refl)|]);
    (apply (keeps_bind _ shrinks_trans); [apply read_stdout_shrinks|]);
    intros bytes; destruct (is_empty bytes);
    keeps_with shrinks_refl shrinks_trans.
  apply IH.
Qed.

Lemma read_payload_shrinks (fuel : nat) :
  forall allocated msg has_to_read,
    keeps shrinks (read_payload fuel allocated msg has_to_read).
Proof.
  induction fuel as [|fuel IH]; intros allocated msg has_to_read;
    cbn [read_payload];
    (destruct (0 <? has_to_read); [|apply (keeps_ret _ shrinks_refl)]);
    (apply (keeps_bind _ shrinks_trans); [apply read_stdout_shrinks|]);
    intros bytes;
    (destruct (negb (is_empty bytes) && negb allocated);
     [apply (keeps_crashed _ shrinks_refl)|]);
    (destruct (to_int (Z.of_nat (length bytes)) =? 0);
     [apply (keeps_bind _ shrinks_trans);
      [apply keeps_modify; intros s; now apply shrinks_same
      |intros _; apply (keeps_ret _ shrinks_refl)]
     |]).
  - apply (keeps_ret _ shrinks_refl).
  - apply IH.
Qed.

Lemma untouched_refl (s : json_rpc_state) : untouched s s.
Proof. split; reflexivity. Qed.

Lemma untouched_trans (a b c : json_rpc_state) :
  untouched a b -> untouched b c -> untouched a c.
Proof. unfold untouched. intros [-> ->] [-> ->]. auto. Qed.

Lemma Ffuncall_untouched (callback : lisp_function) (a b c : Lisp_Object) :
  keeps untouched (Ffuncall callback a b c).
Proof.
  unfold Ffuncall.
  apply (keeps_bind _ untouched_trans).
  - apply keeps_modify. intros s. split; reflexivity.
  - intros _. keeps_with untouched_refl untouched_trans.
Qed.

Section EndOfTheLoop.

Context {collab : Collaborator}.

(** What follows the first read of a turn. *)
Lemma json_rpc_callback_tail_shrinks (room : nat) (output : list ascii) :
  keeps shrinks
        (marker <~ read_until_loop room MARKER output ;;
         if fst marker then
           header <~ read_until DELIM ;;
           if fst header then
             let content_length := to_size_t (strtol (cstr (snd header))) in
             let has_to_read := content_length in
             let allocated := content_length <? PTRDIFF_MAX in
             fuel <~ get schedule_length ;;
             msg <~ read_payload fuel allocated [] has_to_read ;;
             d <~ get done ;;
             if negb d then
               match json_loads (cstr msg) with
               | inl value => modify (fun s => set_message s (Some value))
               | inr e => modify (fun s => set_error (set_message s None) e)
               end
             else ret tt
           else modify (fun s => set_done s true)
         else modify (fun s => set_done s true)).
Proof.
  apply (keeps_bind _ shrinks_trans); [apply read_until_loop_shrinks|].
  intros marker. destruct (fst marker).
  - apply (keeps_bind _ shrinks_trans);
      [apply read_until_loop_shrinks|].
    intros header. destruct (fst header).
    + apply (keeps_bind _ shrinks_trans);
        [apply (keeps_get _ shrinks_refl)|].
      intros fuel.
      apply (keeps_bind _ shrinks_trans); [apply read_payload_shrinks|].
      intros msg.
      apply (keeps_bind _ shrinks_trans);
        [apply (keeps_get _ shrinks_refl)|].
      intros d. destruct (negb d); [|apply (keeps_ret _ shrinks_refl)].
      destruct (json_loads (cstr msg)); apply keeps_modify;
        intros s; now apply shrinks_same.
    + apply keeps_modify; intros s; now apply shrinks_same.
  - apply keeps_modify; intros s; now apply shrinks_same.
Qed.

End EndOfTheLoop.

Lemma bindM_assoc {A B C} (m : M A) (f : A -> M B) (g : B -> M C)
    (s : json_rpc_state) :
  bindM (bindM m f) g s = bindM m (fun x => bindM (f x) g) s.
Proof.
  unfold bindM. destruct (m s) as [[a|e|c] s']; reflexivity.
Qed.

Section Turns.

Context {collab : Collaborator}.

(** A turn of [json_rpc_callback] that comes back has used up some of
    the schedule, or has set [done]; no turn makes the schedule
    longer. *)
Lemma json_rpc_callback_progress
    (st st' : json_rpc_state) (r : result unit) :
  json_rpc_callback st = (r, st') ->
  shrinks st st'
  /\ (r = Ret tt ->
      done st' = true \/ (schedule_length st' < schedule_length st)%nat).
Proof.
  unfold json_rpc_callback. unfold read_until at 1.
  change (Z.to_nat (BUFFER_SIZE + 1)) with (S (Z.to_nat BUFFER_SIZE)).
  generalize (Z.to_nat BUFFER_SIZE). intros room.
  cbn [read_until_loop].
  change (negb (terminated [])) with false.
  change (strstr (cstr []) MARKER) with false.
  cbv iota.
  rewrite bindM_assoc.
  unfold bindM at 1.
  destruct (read_stdout_progress 1 st) as [Hsh Hprog].
  destruct (read_stdout 1 st) as [[bytes|e|c] s1];
    cbn [fst snd] in Hsh, Hprog;
    try (intros H; injection H as <- <-; split;
         [exact Hsh | discriminate]).
  destruct (is_empty bytes) eqn:Hempty.
  - unfold bindM at 1. unfold ret at 1. cbn [fst]. unfold modify.
    intros H. injection H as <- <-. fields.
    split; [|intros _; now left].
    eapply shrinks_trans; [exact Hsh|]. now apply shrinks_same.
  - specialize (Hprog bytes eq_refl Hempty).
    pose proof (json_rpc_callback_tail_shrinks room ([] ++ bytes) s1)
      as Htail.
    intros H. apply (f_equal snd) in H. cbn [snd] in H.
    assert (Hs1 : shrinks s1 st') by (rewrite <- H; exact Htail).
    split.
    + eapply shrinks_trans; [exact Hsh | exact Hs1].
    + intros _. right. unfold shrinks in Hs1. lia.
Qed.

(** One turn of the [while] of [Fjson_rpc]. *)
Lemma Fjson_rpc_loop_turn (fuel : nat) (callback : lisp_function)
    (conf : json_configuration) (st : json_rpc_state) :
  Fjson_rpc_loop (S fuel) callback conf st
  = if done st then (Ret tt, st)
    else
      match handle st with
      | None => (Crash NullDereference, st)
      | Some h =>
          if ssp_isalive h then
            match json_rpc_callback st with
            | (Ret _, s1) =>
                if done s1 then Fjson_rpc_loop fuel callback conf s1
                else
                  match
                    (m <~ get message ;;
                     match m with
                     | Some value =>
                         msg <~ lift (json_to_lisp value conf) ;;
                         modify (fun s => set_message s None) ;;;
                         Ffuncall callback msg Qnil Qnil
                     | None =>
                         e <~ get error ;;
                         Ffuncall callback Qnil (get_json_parse_error e) Qnil
                     end) s1
                  with
                  | (Ret _, s2) => Fjson_rpc_loop fuel callback conf s2
                  | (Signal e, s2) => (Signal e, s2)
                  | (Crash c, s2) => (Crash c, s2)
                  end
            | (Signal e, s1) => (Signal e, s1)
            | (Crash c, s1) => (Crash c, s1)
            end
          else (Ret tt, st)
      end.
Proof.
  cbn [Fjson_rpc_loop]. unfold bindM at 1. unfold get at 1.
  destruct (done st); [reflexivity|].
  unfold bindM at 1. unfold get at 1.
  destruct (handle st) as [h|]; [|reflexivity].
  destruct (ssp_isalive h); [|reflexivity].
  unfold bindM at 1.
  destruct (json_rpc_callback st) as [[[]|e|c] s1]; try reflexivity.
  unfold bindM at 1. unfold get at 1.
  destruct (done s1); cbn [negb].
  - unfold bindM at 1. reflexivity.
  - unfold bindM at 1. reflexivity.
Qed.

Lemma Fjson_rpc_loop_done (fuel : nat) (callback : lisp_function)
    (conf : json_configuration) (st : json_rpc_state) :
  done st = true -> Fjson_rpc_loop fuel callback conf st = (Ret tt, st).
Proof.
  intros Hdone. destruct fuel as [|fuel]; [reflexivity|].
  now rewrite Fjson_rpc_loop_turn, Hdone.
Qed.

(** What the delivery of a turn leaves alone. *)
Lemma delivery_untouched (callback : lisp_function)
    (conf : json_configuration) :
  keeps untouched
        (m <~ get message ;;
         match m with
         | Some value =>
             msg <~ lift (json_to_lisp value conf) ;;
             modify (fun s => set_message s None) ;;;
             Ffuncall callback msg Qnil Qnil
         | None =>
             e <~ get error ;;
             Ffuncall callback Qnil (get_json_parse_error e) Qnil
         end).
Proof.
  apply (keeps_bind _ untouched_trans);
    [apply (keeps_get _ untouched_refl)|].
  intros [value|].
  - apply (keeps_bind _ untouched_trans);
      [apply (keeps_lift _ untouched_refl)|].
    intros msg.
    apply (keeps_bind _ untouched_trans); [|intros _; apply Ffuncall_untouched].
    apply keeps_modify. intros s. split; reflexivity.
  - apply (keeps_bind _ untouched_trans);
      [apply (keeps_get _ untouched_refl)|].
    intros e. apply Ffuncall_untouched.
Qed.

(** The fuel [Fjson_rpc] gives its loop is never what stops it: any
    larger amount gives the same run. *)
Lemma Fjson_rpc_loop_enough (fuel : nat) :
  forall (fuel' : nat) (callback : lisp_function)
         (conf : json_configuration) (st : json_rpc_state),
    (schedule_length st + 2 <= fuel)%nat ->
    (schedule_length st + 2 <= fuel')%nat ->
    Fjson_rpc_loop fuel callback conf st
    = Fjson_rpc_loop fuel' callback conf st.
Proof.
  induction fuel as [|fuel IH]; intros fuel' callback conf st Hf Hf';
    [lia|].
  destruct fuel' as [|fuel']; [lia|].
  rewrite !Fjson_rpc_loop_turn.
  destruct (done st); [reflexivity|].
  destruct (handle st) as [h|]; [|reflexivity].
  destruct (ssp_isalive h); [|reflexivity].
  destruct (json_rpc_callback st) as [[[]|e|c] s1] eqn:Hturn;
    try reflexivity.
  destruct (json_rpc_callback_progress st s1 (Ret tt) Hturn)
    as [_ Hprog].
  specialize (Hprog eq_refl).
  destruct (done s1) eqn:Hdone.
  - now rewrite !Fjson_rpc_loop_done.
  - destruct Hprog as [Hprog|Hprog]; [discriminate|].
    pose proof (delivery_untouched callback conf s1) as [Hh _].
    match goal with
    | |- context [match ?run with _ => _ end] =>
        destruct run as [[[]|e|c] s2]
    end; try reflexivity.
    cbn [snd] in Hh.
    assert (Hlen : schedule_length s2 = schedule_length s1)
      by (unfold schedule_length; now rewrite Hh).
    apply IH; lia.
Qed.

(** When the loop comes back, its condition is false: [done] is set
    or the child is no longer alive. *)
Lemma Fjson_rpc_loop_is_over (fuel : nat) :
  forall (callback : lisp_function) (conf : json_configuration)
         (st st' : json_rpc_state),
    (schedule_length st + 2 <= fuel)%nat ->
    Fjson_rpc_loop fuel callback conf st = (Ret tt, st') ->
    loop_is_over st'.
Proof.
  induction fuel as [|fuel IH]; intros callback conf st st' Hf; [lia|].
  rewrite Fjson_rpc_loop_turn.
  destruct (done st) eqn:Hd.
  { intros H. injection H as <-. now left. }
  destruct (handle st) as [h|] eqn:Hh; [|discriminate].
  destruct (ssp_isalive h) eqn:Halive.
  2: { intros H. injection H as <-. right. now exists h. }
  destruct (json_rpc_callback st) as [[[]|e|c] s1] eqn:Hturn;
    try discriminate.
  destruct (json_rpc_callback_progress st s1 (Ret tt) Hturn)
    as [_ Hprog].
  specialize (Hprog eq_refl).
  destruct (done s1) eqn:Hdone.
  - rewrite Fjson_rpc_loop_done by assumption.
    intros H. injection H as <-. now left.
  - destruct Hprog as [Hprog|Hprog]; [discriminate|].
    pose proof (delivery_untouched callback conf s1) as [Hh1 _].
    match goal with
    | |- context [match ?run with _ => _ end] =>
        destruct run as [[[]|e|c] s2]
    end; try discriminate.
    cbn [snd] in Hh1.
    assert (Hlen : schedule_length s2 = schedule_length s1)
      by (unfold schedule_length; now rewrite Hh1).
    apply IH. lia.
Qed.

End Turns.

Section Outcomes.

Context {collab : Collaborator}.

(** What any run of [json-rpc] does to the outside, whether it
    returns, signals or aborts: handler calls of the running loop,
    and then nothing, or the end of session, or the end of session
    and the close of the handle. *)
Lemma Fjson_rpc_log (callback : lisp_function) (args : list Lisp_Object)
    (st st' : json_rpc_state) (r : result Lisp_Object) :
  Fjson_rpc callback args st = (r, st') ->
  exists ds closing,
    log st' = log st ++ ds ++ closing
    /\ Forall running_delivery ds
    /\ (closing = [] \/ closing = [end_of_session]
        \/ closing = [end_of_session; Close]).
Proof.
  unfold Fjson_rpc, bindM, lift.
  destruct (json_parse_args _ args default_conf true) as [conf| |].
  2, 3: intros H; injection H as _ <-; exists [], [];
    rewrite !app_nil_r; auto.
  unfold get at 1.
  pose proof (Fjson_rpc_loop_delivers (schedule_length st + 2)
                                      callback conf st) as Hloop.
  destruct (Fjson_rpc_loop (schedule_length st + 2) callback conf st)
    as [[[]| |] s1]; cbn [snd] in Hloop;
    destruct Hloop as [(ds & Hlog & Hds) (Hmx & Hsome)].
  2, 3: intros H; injection H as _ <-; exists ds, [];
    rewrite app_nil_r; auto.
  unfold Ffuncall, bindM, modify, lift, ret.
  destruct (callback Qnil Qnil Qt).
  2, 3: intros H; injection H as _ <-; exists ds, [end_of_session];
    fields; rewrite Hlog, <- app_assoc; auto.
  unfold pthread_mutex_timedlock. fields.
  destruct (hd Acquired (handle_mx s1)).
  - unfold get. fields.
    destruct (handle s1).
    + unfold pthread_mutex_unlock, ret.
      intros H. injection H as _ <-.
      exists ds, [end_of_session; Close]. fields.
      rewrite Hlog, <- !app_assoc. auto.
    + unfold crashed. intros H. injection H as _ <-.
      exists ds, [end_of_session]. fields.
      rewrite Hlog, <- !app_assoc. auto.
  - intros H. injection H as _ <-.
    exists ds, [end_of_session]. fields.
    rewrite Hlog, <- !app_assoc. auto.
Qed.

End Outcomes.

(** C3, as the code has it.  A run of [json-rpc] that returns has
    called the handler with (nil, nil, t) exactly once, and that call
    is the last one; all it does afterwards is close the handle.  A
    run that is left by a signal or aborts has made that call at most
    once, and no other call after it.  The loop before that call is
    ended by the stream and not by the number of turns it is given:
    more turns give the same run, and when the loop comes back
    [done] is set or the child is no longer alive. *)
Theorem end_of_session_closes_every_run_that_returns :
  forall (collab : Collaborator) (callback : lisp_function)
         (args : list Lisp_Object) (st : json_rpc_state),
    (exists ds closing,
        log (snd (Fjson_rpc callback args st)) = log st ++ ds ++ closing
        /\ Forall (fun e => running_delivery e /\ e <> end_of_session) ds
        /\ (closing = [] \/ closing = [end_of_session]
            \/ closing = [end_of_session; Close]))
    /\ (returned (fst (Fjson_rpc callback args st)) = true ->
        exists ds closing,
          log (snd (Fjson_rpc callback args st))
          = log st ++ ds ++ [end_of_session] ++ closing
          /\ Forall (fun e => running_delivery e /\ e <> end_of_session) ds
          /\ (closing = [] \/ closing = [Close]))
    /\ (forall (conf : json_configuration) (fuel : nat),
          (schedule_length st + 2 <= fuel)%nat ->
          Fjson_rpc_loop fuel callback conf st
          = Fjson_rpc_loop (schedule_length st + 2) callback conf st)
    /\ (forall (conf : json_configuration) (s1 : json_rpc_state),
          Fjson_rpc_loop (schedule_length st + 2) callback conf st
          = (Ret tt, s1) ->
          loop_is_over s1).
Proof.
  intros collab callback args st.
  assert (Hrunning : forall ds,
             Forall running_delivery ds ->
             Forall (fun e => running_delivery e /\ e <> end_of_session) ds).
  { intros ds Hds. eapply Forall_impl; [|exact Hds].
    intros e He. split; [exact He|].
    now apply running_delivery_not_end_of_session. }
  destruct (Fjson_rpc callback args st) as [r st'] eqn:Hrun.
  cbn [fst snd].
  split; [|split; [|split]].
  - destruct (Fjson_rpc_log callback args st st' r Hrun)
      as (ds & closing & Hlog & Hds & Hclosing).
    exists ds, closing. auto.
  - destruct r as [v| |]; cbn [returned]; try discriminate.
    intros _.
    destruct (Fjson_rpc_returns callback args st st' v Hrun)
      as (ds & Hds & Hlog).
    destruct (lock_available st).
    + exists ds, [Close]. destruct Hlog as (Hlog & _). auto.
    + exists ds, []. destruct Hlog as (Hlog & _).
      rewrite app_nil_r. auto.
  - intros conf fuel Hfuel. apply Fjson_rpc_loop_enough; lia.
  - intros conf s1. apply Fjson_rpc_loop_is_over. lia.
Qed.

Lemma end_of_session_closes_every_run_that_returns_witness :
  (exists ds closing,
      log (snd (Fjson_rpc quiet_handler [] garbled_state))
      = log garbled_state ++ ds ++ [end_of_session] ++ closing
      /\ Forall (fun e => running_delivery e /\ e <> end_of_session) ds
      /\ (closing = [] \/ closing = [Close]))
  /\ Fjson_rpc_loop 100 quiet_handler default_conf garbled_state
     = Fjson_rpc_loop (schedule_length garbled_state + 2) quiet_handler
                      default_conf garbled_state
  /\ loop_is_over
       (snd (Fjson_rpc_loop (schedule_length garbled_state + 2)
                            quiet_handler default_conf garbled_state)).
Proof.
  destruct (end_of_session_closes_every_run_that_returns
              Reference.collaborator quiet_handler [] garbled_state)
    as (_ & Hreturned & Hfuel & Hover).
  split; [apply Hreturned; vm_compute; reflexivity|].
  split; [apply Hfuel; vm_compute; lia|].
  apply (Hover default_conf). vm_compute. reflexivity.
Defined.

(** The handler signals on the message of a running stream: the run
    is left at once, and the call with (nil, nil, t) is never made. *)
Lemma signalling_handler_gets_no_end_of_session :
  fst (Fjson_rpc failing_handler [] noisy_state)
  = Signal (handler_error Qnil)
  /\ log (snd (Fjson_rpc failing_handler [] noisy_state))
     = [Funcall Qt Qnil Qnil]
  /\ ~ In end_of_session
          (log (snd (Fjson_rpc failing_handler [] noisy_state))).
Proof.
  assert (Hlog : log (snd (Fjson_rpc failing_handler [] noisy_state))
                 = [Funcall Qt Qnil Qnil])
    by (vm_compute; reflexivity).
  split; [vm_compute; reflexivity|].
  split; [exact Hlog|].
  rewrite Hlog. intros [H|[]]. discriminate H.
Qed.
